(** * turtlecoin-api-proxy: the aggregation, cache and routing layer of [index.js]

    A shallow embedding of the helper functions, the TTL-cache adapter, the
    cache-orchestrated single-node operations, the seed/pool aggregators, the
    block-count fallback and the synchronous part of the route handlers,
    followed by the properties stated about them.

    Conventions of the embedding.
    - A finite JavaScript number is the rational it stands for; the samples
      of the aggregators (heights, difficulties), tallies and lengths are
      integers ([Z]).  Where the program adds, divides or parses, the result
      is rounded to binary64 ([rn]); the quotient [winner.tally / arr.length]
      and the median's [(a + b) / 2] are kept as the exact rationals.
      Negative zero is modelled by zero.
    - A string is the UTF-8 encoding of the program's string; [js_length]
      counts its UTF-16 code units, as [str.length] does.
    - A JS object used as a record or as a dictionary is a [gmap string jsval].
    - A promise is the value it settles to: [Resolve v] or [Reject e].
    - The upstream daemon, the pool endpoints and the block mirror are
      oracles (section variables); every invocation is recorded in the
      [calls] log of the state, so that "the producer was (not) invoked" is a
      statement about that log. *)

From Stdlib Require Import ZArith QArith Qreduction Lia List Ascii String Permutation Sorted.
From stdpp Require Import base option list strings gmap fin_maps.

Local Open Scope Z_scope.

(** ** JavaScript values *)

(** Values that reach the cache key and the routing layer: route parameters
    (strings), configured ports (numbers) and omitted arguments. *)
Inductive prim :=
| PUndef
| PNum (z : Z)
| PStr (s : string).

(** Field values of the objects the program builds or receives. *)
Inductive jsval :=
| VUndef
| VNaN
| VBool (b : bool)
| VNum (z : Z)
| VQ (q : Q)
| VStr (s : string)
| VErr (msg : string)
| VNode (host port : prim)
| VInf (negative : bool).

Definition of_prim (p : prim) : jsval :=
  match p with
  | PUndef => VUndef
  | PNum z => VNum z
  | PStr s => VStr s
  end.

(** ** Helper functions (index.js, "Helper functions") *)

(** [arr.reduce(f)] without an initial value: throws a [TypeError] on the
    empty array ([None]), otherwise folds from the first element. *)
Definition reduce {A} (f : A -> A -> A) (arr : list A) : option A :=
  match arr with
  | [] => None
  | a :: rest => Some (fold_left f rest a)
  end.

Definition maxValue (arr : list Z) : option Z := reduce Z.max arr.

Definition minValue (arr : list Z) : option Z := reduce Z.min arr.

(** [Math.round(n / d)] for integers [n] and [d > 0]: the nearest integer,
    halves going up, which is [floor (n/d + 1/2)]. *)
Definition round_div (n d : Z) : Z := (2 * n + d) / (2 * d).

Definition sum (arr : list Z) : Z := fold_left Z.add arr 0.

(** *** Binary64 arithmetic *)

(** A number as the program computes with it. *)
Inductive number :=
| NaN
| Inf (negative : bool)
| Fin (q : Q).

(** [n / d] rounded to the nearest integer, a half to the even neighbour
    ([d > 0]). *)
Definition div_even (n d : Z) : Z :=
  let f := n / d in
  match 2 * (n mod d) ?= d with
  | Lt => f
  | Gt => f + 1
  | Eq => if Z.even f then f else f + 1
  end.

(** The [l] with [2 ^ l <= n / d < 2 ^ (l + 1)], for positive [n] and [d]. *)
Definition floor_log2 (n d : Z) : Z :=
  let l := Z.log2 n - Z.log2 d in
  if n * 2 ^ Z.max 0 (- l) <? d * 2 ^ Z.max 0 l then l - 1 else l.

(** The binary64 number nearest to a rational, a tie going to the even
    significand: 53 significant bits, exponents down to -1074 (subnormal
    numbers), an infinity from [2 ^ 1024] on. *)
Definition rn (q : Q) : number :=
  let r := Qred q in
  let n := Qnum r in
  let d := Zpos (Qden r) in
  if n =? 0 then Fin 0
  else
    let e := Z.max (-1074) (floor_log2 (Z.abs n) d - 52) in
    let up := 2 ^ Z.max 0 e in
    let down := 2 ^ Z.max 0 (- e) in
    let m := div_even (n * down) (d * up) in
    if 2 ^ 1024 * down <=? Z.abs m * up then Inf (n <? 0)
    else Fin (Qred (m * up # Z.to_pos down)).

(** [a + b]. *)
Definition add64 (a b : number) : number :=
  match a, b with
  | Fin x, Fin y => rn (x + y)
  | Inf s, Inf t => if Bool.eqb s t then Inf s else NaN
  | Inf s, Fin _ | Fin _, Inf s => Inf s
  | _, _ => NaN
  end.

(** [a / b]. *)
Definition div64 (a b : number) : number :=
  match a, b with
  | Fin x, Fin y =>
      if Qeq_bool y 0
      then (if Qeq_bool x 0 then NaN else Inf (Qnum x <? 0))
      else rn (x / y)
  | Inf s, Fin y => Inf (xorb s (Qnum y <? 0))
  | Fin _, Inf _ => Fin 0
  | _, _ => NaN
  end.

(** [Math.round(a)]: the nearest integer, a half going up. *)
Definition math_round (a : number) : number :=
  match a with
  | Fin q =>
      let r := Qred q in
      Fin (inject_Z (round_div (Qnum r) (Zpos (Qden r))))
  | other => other
  end.

Definition to_jsval (a : number) : jsval :=
  match a with
  | NaN => VNaN
  | Inf s => VInf s
  | Fin q =>
      let r := Qred q in
      if (Zpos (Qden r) =? 1) then VNum (Qnum r) else VQ r
  end.

(** [sum += arr[i]] over the array, then [Math.round(sum / arr.length)]:
    every addition and the division round to binary64.  The samples are
    the rationals that the numbers of the array stand for. *)
Definition avgValue (arr : list Q) : jsval :=
  let sum := fold_left (fun sum x => add64 sum (Fin x)) arr (Fin 0) in
  to_jsval (math_round (div64 sum (Fin (inject_Z (Z.of_nat (length arr)))))).

(** [arr.sort((a, b) => a - b)]: ascending numeric sort. *)
Fixpoint insert_asc (x : Z) (l : list Z) : list Z :=
  match l with
  | [] => [x]
  | y :: r => if x <=? y then x :: y :: r else y :: insert_asc x r
  end.

Fixpoint sort_asc (l : list Z) : list Z :=
  match l with
  | [] => []
  | x :: r => insert_asc x (sort_asc r)
  end.

(** [(arr[(arr.length - 1) >> 1] + arr[arr.length >> 1]) / 2] on the sorted
    array, as the exact rational (the sum of two samples is a binary64 number
    whenever it is below 2^53 in absolute value, and halving is exact); on the
    empty array both reads are [undefined] and the result is [NaN]. *)
Definition medValue (arr : list Z) : jsval :=
  let sorted := sort_asc arr in
  let n := length sorted in
  match nth_error sorted (Nat.div2 (n - 1)), nth_error sorted (Nat.div2 n) with
  | Some a, Some b => VQ ((a + b) # 2)
  | _, _ => VNaN
  end.

(** One entry of the [tallies] object of [voteValue]. *)
Record vote := { value : Z; tally : nat }.

(** [if (!tallies[val]) tallies[val] = { value: val, tally: 0 };
     tallies[val].tally++].  The keys are the decimal strings of the values,
    so two samples share an entry exactly when they are equal. *)
Fixpoint tally_add (val : Z) (tallies : list vote) : list vote :=
  match tallies with
  | [] => [{| value := val; tally := 1 |}]
  | t :: r =>
      if value t =? val then {| value := val; tally := S (tally t) |} :: r
      else t :: tally_add val r
  end.

Definition tally_all (arr : list Z) : list vote :=
  fold_left (fun tallies val => tally_add val tallies) arr [].

(** [votes.sort((a, b) => b.value - a.value)]: descending by VALUE.  The
    entries have pairwise distinct values, so the order in which
    [for (elem in tallies)] enumerates them does not affect the result. *)
Fixpoint insert_desc (v : vote) (l : list vote) : list vote :=
  match l with
  | [] => [v]
  | w :: r => if value w <=? value v then v :: w :: r else w :: insert_desc v r
  end.

Fixpoint sort_desc (l : list vote) : list vote :=
  match l with
  | [] => []
  | v :: r => insert_desc v (sort_desc r)
  end.

Record voter := { vvalue : Z; confidence : Q }.

(** [winner = votes[0]] is [undefined] when [votes] is empty, and the
    assignment to [winner.confidence] then throws ([None]). *)
Definition voteValue (arr : list Z) : option voter :=
  match arr with
  | [] => Some {| vvalue := 0; confidence := 1 |}
  | _ =>
      match sort_desc (tally_all arr) with
      | winner :: _ =>
          Some {| vvalue := value winner;
                  confidence := Z.of_nat (tally winner) # Pos.of_nat (length arr) |}
      | [] => None
      end
  end.

(** ** Numbers and strings: [parseInt], [Number.prototype.toString] *)

(** JS truthiness, as used by [!x], [x || y] and [if (x)]. *)
Definition truthy (v : jsval) : bool :=
  match v with
  | VUndef | VNaN => false
  | VBool b => b
  | VNum z => negb (z =? 0)
  | VQ q => negb (Qeq_bool q 0)
  | VStr s => negb (String.eqb s "")
  | VErr _ | VNode _ _ | VInf _ => true
  end.

Definition truthy_prim (p : prim) : bool := truthy (of_prim p).

Definition code (c : ascii) : Z := Z.of_N (N_of_ascii c).

Definition digit_char (d : Z) : ascii := ascii_of_N (Z.to_N (48 + d)).

(** Decimal digits of a non-negative integer, most significant first.  The
    fuel bounds the number of digits. *)
Fixpoint digits_go (fuel : nat) (n : Z) (acc : string) : string :=
  match fuel with
  | O => acc
  | S fuel' =>
      let acc' := String (digit_char (n mod 10)) acc in
      if n <? 10 then acc' else digits_go fuel' (n / 10) acc'
  end.

Definition digits (n : Z) : string := digits_go (S (Z.to_nat (Z.log2 n))) n "".

(** [String(z)] for an integer: decimal, with a minus sign when negative. *)
Definition decimal (z : Z) : string :=
  if z <? 0 then String "-" (digits (- z)) else digits z.

(** *** [Number.prototype.toString] on integers *)

(** An integer rounded to binary64, when that is finite. *)
Definition rn_integer (z : Z) : option Z :=
  match rn (inject_Z z) with
  | Fin q => Some (Qnum q)
  | _ => None
  end.

(** The number of decimal digits of a positive integer. *)
Definition width (x : Z) : Z := Z.of_nat (String.length (digits x)).

(** Whether the [k] digits of [s], followed by [n - k] zeros, are a decimal
    writing of the number [x]. *)
Definition reads_back (x s k n : Z) : bool :=
  (10 ^ (k - 1) <=? s) && (s <? 10 ^ k) &&
  match rn_integer (s * 10 ^ (n - k)) with
  | Some y => y =? x
  | None => false
  end.

(** Of two candidates the one nearer to [x], the even one when they are
    equally near. *)
Definition nearer (x p a b : Z) : Z :=
  match Z.abs (a * p - x) ?= Z.abs (b * p - x) with
  | Lt => a
  | Gt => b
  | Eq => if Z.even a then a else b
  end.

Definition choice (x k n : Z) : option Z :=
  let p := 10 ^ (n - k) in
  let lo := x / p in
  match reads_back x lo k n, reads_back x (lo + 1) k n with
  | true, true => Some (nearer x p lo (lo + 1))
  | true, false => Some lo
  | false, true => Some (lo + 1)
  | false, false => None
  end.

(** The [s], [k] and [n] of the language specification: the least number
    [k] of digits such that [s * 10 ^ (n - k)] is the number [x], for an
    integer [x] of 2^53 or more.  Seventeen digits always suffice. *)
Fixpoint shortest_from (fuel : nat) (k x : Z) : Z * Z * Z :=
  match fuel with
  | O => (x, width x, width x)
  | S fuel' =>
      match choice x k (width x), choice x k (width x + 1) with
      | Some s, _ => (s, k, width x)
      | None, Some s => (s, k, width x + 1)
      | None, None => shortest_from fuel' (k + 1) x
      end
  end.

Definition shortest (x : Z) : Z * Z * Z := shortest_from 17 1 x.

Fixpoint zeros (n : nat) : string :=
  match n with
  | O => ""
  | S n' => String "0" (zeros n')
  end.

(** [d.ddde+x]. *)
Definition exponential (s n : Z) : string :=
  match digits s with
  | String d rest =>
      String d (match rest with
                | EmptyString => EmptyString
                | _ => String "." rest
                end) +:+ "e+" +:+ digits (n - 1)
  | EmptyString => ""
  end.

(** The string of a positive integer number: below 2^53 every integer is a
    number of its own and all its digits are written; from there on the
    shortest digits that identify the number are followed by zeros, and from
    10^21 on by an exponent. *)
Definition magnitude_string (x : Z) : string :=
  if x <? 2 ^ 53 then digits x
  else
    let '(s, k, n) := shortest x in
    if n <=? 21 then digits s +:+ zeros (Z.to_nat (n - k))
    else exponential s n.

Definition number_string (z : Z) : string :=
  if z <? 0 then String "-" (magnitude_string (- z)) else magnitude_string z.

(** [a.toString()] for the results of [parseInt]: an integer number, [NaN]
    or an infinity. *)
Definition toString (a : jsval) : string :=
  match a with
  | VNum z => number_string z
  | VNaN => "NaN"
  | VInf negative => if negative then "-Infinity" else "Infinity"
  | _ => ""
  end.

(** *** Strings as the program sees them *)

(** A byte that continues a UTF-8 sequence. *)
Definition continues (c : ascii) : bool := (128 <=? code c) && (code c <? 192).

(** [str.length]: the number of UTF-16 code units, one for a character of
    one to three bytes and two for one of four bytes.  A byte that is part
    of no sequence counts as one character. *)
Fixpoint js_length (s : string) : nat :=
  match s with
  | EmptyString => 0
  | String c r =>
      if code c <? 192 then S (js_length r)
      else
        match r with
        | String c1 r1 =>
            if negb (continues c1) then S (js_length r)
            else if code c <? 224 then S (js_length r1)
            else
              match r1 with
              | String c2 r2 =>
                  if negb (continues c2) then S (js_length r)
                  else if code c <? 240 then S (js_length r2)
                  else
                    match r2 with
                    | String c3 r3 =>
                        if continues c3 && (code c <? 248)
                        then S (S (js_length r3))
                        else S (js_length r)
                    | EmptyString => S (js_length r)
                    end
              | EmptyString => S (js_length r)
              end
        | EmptyString => 1
        end
  end.

(** White space and line terminators of one byte: TAB, LF, VT, FF, CR, SP. *)
Definition ws1 (a : Z) : bool := ((9 <=? a) && (a <=? 13)) || (a =? 32).

(** Of two bytes: U+00A0. *)
Definition ws2 (a b : Z) : bool := (a =? 194) && (b =? 160).

(** Of three bytes: U+1680, U+2000 to U+200A, U+2028, U+2029, U+202F,
    U+205F, U+3000 and U+FEFF. *)
Definition ws3 (a b c : Z) : bool :=
  ((a =? 225) && (b =? 154) && (c =? 128))
  || ((a =? 226) && (b =? 128)
      && (((128 <=? c) && (c <=? 138)) || (c =? 168) || (c =? 169) || (c =? 175)))
  || ((a =? 226) && (b =? 129) && (c =? 159))
  || ((a =? 227) && (b =? 128) && (c =? 128))
  || ((a =? 239) && (b =? 187) && (c =? 191)).

(** The leading white space that [parseInt] skips. *)
Fixpoint skip_ws (s : string) : string :=
  match s with
  | String c r =>
      if ws1 (code c) then skip_ws r
      else
        match r with
        | String c1 r1 =>
            if ws2 (code c) (code c1) then skip_ws r1
            else
              match r1 with
              | String c2 r2 =>
                  if ws3 (code c) (code c1) (code c2) then skip_ws r2 else s
              | EmptyString => s
              end
        | EmptyString => s
        end
  | EmptyString => s
  end.

(** The value of a character as a digit in the given radix. *)
Definition digit_val (radix : Z) (c : ascii) : option Z :=
  let n := code c in
  let d :=
    if (48 <=? n) && (n <=? 57) then Some (n - 48)
    else if (97 <=? n) && (n <=? 122) then Some (n - 87)
    else if (65 <=? n) && (n <=? 90) then Some (n - 55)
    else None in
  match d with
  | Some v => if v <? radix then Some v else None
  | None => None
  end.

(** The longest prefix of [s] made of digits of the radix, as digit values. *)
Fixpoint take_digits (radix : Z) (s : string) : list Z :=
  match s with
  | String c r =>
      match digit_val radix c with
      | Some d => d :: take_digits radix r
      | None => []
      end
  | EmptyString => []
  end.

Definition horner (radix : Z) (ds : list Z) : Z :=
  fold_left (fun acc d => acc * radix + d) ds 0.

(** An optional sign: [(negative, rest)]. *)
Definition strip_sign (s : string) : bool * string :=
  match s with
  | String c r =>
      if Ascii.eqb c "-" then (true, r)
      else if Ascii.eqb c "+" then (false, r)
      else (false, s)
  | EmptyString => (false, s)
  end.

(** An optional [0x] or [0X] prefix: [(radix, rest)]. *)
Definition strip_radix (s : string) : Z * string :=
  match s with
  | String c0 (String c1 r) =>
      if Ascii.eqb c0 "0" && (Ascii.eqb c1 "x" || Ascii.eqb c1 "X")
      then (16, r) else (10, s)
  | _ => (10, s)
  end.

(** [parseInt(str)] with no radix argument: skip white space, read a sign,
    switch to radix 16 after a [0x]/[0X] prefix, read the longest run of
    digits; [NaN] when that run is empty, and otherwise the number nearest
    to the integer that the digits write. *)
Definition parseInt (str : string) : jsval :=
  let '(neg, s2) := strip_sign (skip_ws str) in
  let '(radix, s3) := strip_radix s2 in
  match take_digits radix s3 with
  | [] => VNaN
  | ds => to_jsval (rn (inject_Z ((if neg then -1 else 1) * horner radix ds)))
  end.

(** [function parseInteger (str)]: the parsed number when its string form is
    as LONG as the input, [undefined] otherwise. *)
Definition parseInteger (str : string) : jsval :=
  let a := parseInt str in
  if Nat.eqb (String.length (toString a)) (js_length str) then a else VUndef.

(** *** Conversion to a number *)

Fixpoint drop_chars (n : nat) (s : string) : string :=
  match n, s with
  | S n', String _ r => drop_chars n' r
  | _, _ => s
  end.

(** Nothing but white space is left. *)
Definition blank (s : string) : bool :=
  match skip_ws s with
  | EmptyString => true
  | String _ _ => false
  end.

(** [m * 10 ^ k]. *)
Definition scaled (m k : Z) : Q :=
  if 0 <=? k then inject_Z (m * 10 ^ k) else m # Z.to_pos (10 ^ (- k)).

(** A [0b], [0o] or [0x] prefix, in either case: [(radix, rest)]. *)
Definition strip_base (s : string) : option (Z * string) :=
  match s with
  | String c0 (String c1 r) =>
      if Ascii.eqb c0 "0" then
        if Ascii.eqb c1 "x" || Ascii.eqb c1 "X" then Some (16, r)
        else if Ascii.eqb c1 "o" || Ascii.eqb c1 "O" then Some (8, r)
        else if Ascii.eqb c1 "b" || Ascii.eqb c1 "B" then Some (2, r)
        else None
      else None
  | _ => None
  end.

(** An optional exponent part: [(exponent, rest)], or [None] when an [e]
    is followed by no digit. *)
Definition exponent_part (s : string) : option (Z * string) :=
  match s with
  | String c r =>
      if Ascii.eqb c "e" || Ascii.eqb c "E" then
        let '(neg, r1) := strip_sign r in
        match take_digits 10 r1 with
        | [] => None
        | ds => Some ((if neg then -1 else 1) * horner 10 ds,
                      drop_chars (length ds) r1)
        end
      else Some (0, s)
  | EmptyString => Some (0, s)
  end.

(** An unsigned decimal literal at the head of [s]: digits, a fraction and
    an exponent, with a digit before or after the point: [(value, rest)]. *)
Definition decimal_literal (s : string) : option (Q * string) :=
  let whole := take_digits 10 s in
  let s1 := drop_chars (length whole) s in
  let '(fraction, s2) :=
    match s1 with
    | String c r =>
        if Ascii.eqb c "."
        then (take_digits 10 r, drop_chars (length (take_digits 10 r)) r)
        else ([], s1)
    | EmptyString => ([], s1)
    end in
  match whole ++ fraction with
  | [] => None
  | ds =>
      match exponent_part s2 with
      | Some (e, rest) =>
          Some (scaled (horner 10 ds) (e - Z.of_nat (length fraction)), rest)
      | None => None
      end
  end.

(** The number that a string converts to: white space around it is dropped;
    the empty string is 0; a literal in base 2, 8 or 16 takes no sign; a
    decimal literal or [Infinity] takes one; anything else is [NaN]. *)
Definition string_to_number (str : string) : number :=
  match skip_ws str with
  | EmptyString => Fin 0
  | s =>
      match strip_base s with
      | Some (radix, r) =>
          match take_digits radix r with
          | [] => NaN
          | ds =>
              if blank (drop_chars (length ds) r)
              then rn (inject_Z (horner radix ds)) else NaN
          end
      | None =>
          let '(neg, s1) := strip_sign s in
          if String.prefix "Infinity" s1 then
            if blank (drop_chars 8 s1) then Inf neg else NaN
          else
            match decimal_literal s1 with
            | Some (q, rest) =>
                if blank rest then rn (if neg then - q else q)%Q else NaN
            | None => NaN
            end
      end
  end.

(** The number that a value converts to in an arithmetic expression.  An
    error object and the [{ host, port }] object convert through their
    strings, which are no numeric literals. *)
Definition to_number (v : jsval) : number :=
  match v with
  | VUndef | VNaN => NaN
  | VBool b => Fin (if b then 1 else 0)
  | VNum z => Fin (inject_Z z)
  | VQ q => Fin q
  | VStr s => string_to_number s
  | VErr _ | VNode _ _ => NaN
  | VInf s => Inf s
  end.

(** ** Objects, promises and the process state *)

Abbreviation obj := (gmap string jsval).

(** What a promise settles to. *)
Inductive promise (A : Type) :=
| Resolve (v : A)
| Reject (e : string).
Arguments Resolve {A} v.
Arguments Reject {A} e.

(** What an external collaborator answers. *)
Inductive reply (A : Type) :=
| Ok (a : A)
| Fail (e : string).
Arguments Ok {A} a.
Arguments Fail {A} e.

(** [Promise.all]: the list of values, or the first rejection. *)
Fixpoint promise_all {A} (ps : list (promise A)) : promise (list A) :=
  match ps with
  | [] => Resolve []
  | Resolve v :: r =>
      match promise_all r with
      | Resolve vs => Resolve (v :: vs)
      | Reject e => Reject e
      end
  | Reject e :: _ => Reject e
  end.

(** A [Node] of the seed list or the target of a single-node call. *)
Record node := { host : prim; port : prim }.

Record pool := { name : string; url : string }.

(** One invocation of an external collaborator. *)
Inductive call :=
| CallDaemon (h p : prim) (method : string)
| CallPool (uri : string)
| CallMirror (method : string).

(** The fields of [this] that the modelled functions read. *)
Record config := {
  cacheTimeout : Z;
  defaultHost : prim;
  defaultPort : prim;
  seeds : list node;
  pools : list pool;
  maxDeviance : Z
}.

(** The options of the constructor that feed those fields. *)
Record options := {
  opt_cacheTimeout : option Z;
  opt_defaultHost : option string;
  opt_defaultPort : option Z;
  opt_seeds : option (list node);
  opt_pools : option (list pool);
  opt_maxDeviance : option Z
}.

Definition targetBlockTime : Z := 30.

Definition backupSeeds : list node :=
  [ {| host := PStr "us-east.turtlenode.io"; port := PNum 11898 |};
    {| host := PStr "us-west.turtlenode.io"; port := PNum 11898 |};
    {| host := PStr "asia.turtlenode.io"; port := PNum 11898 |};
    {| host := PStr "europe.turtlenode.io"; port := PNum 11898 |};
    {| host := PStr "public.turtlenode.io"; port := PNum 11898 |};
    {| host := PStr "daemon.turtle.link"; port := PNum 11898 |} ].

(** [opts.x || dflt] for a numeric option. *)
Definition num_or (o : option Z) (dflt : Z) : Z :=
  match o with
  | Some z => if z =? 0 then dflt else z
  | None => dflt
  end.

Definition str_or (o : option string) (dflt : string) : string :=
  match o with
  | Some s => if String.eqb s "" then dflt else s
  | None => dflt
  end.

(** [function Self (opts)], restricted to the fields of [config]. *)
Definition Self (opts : options) : config :=
  {| cacheTimeout := num_or (opt_cacheTimeout opts) 30;
     defaultHost := PStr (str_or (opt_defaultHost opts) "public.turtlenode.io");
     defaultPort := PNum (num_or (opt_defaultPort opts) 11898);
     seeds := default backupSeeds (opt_seeds opts);
     pools := default [] (opt_pools opts);
     maxDeviance := num_or (opt_maxDeviance opts) 5 |}.

(** *** The TTL cache *)

(** An entry of the TTL cache (the [node-cache] package, which is not part
    of the sources).  A stored value is an object or [undefined] ([None]). *)
Record entry := { stored : option obj; expiresAt : Z }.

(** Modelled from the spec: [set(key, value, ttl)] of the TTL cache, which
    section 4.1 describes as storing the value under the key, overwriting any
    entry, with expiry [now + ttl].  The value is copied in, so a caller that
    later mutates its object does not change the entry. *)
Definition cache_set (key : string) (v : option obj) (ttl now : Z)
    (c : gmap string entry) : gmap string entry :=
  <[key := {| stored := v; expiresAt := now + ttl |}]> c.

(** Modelled from the spec: [get(key)] of the TTL cache, which section 4.1
    describes as returning the value if present and not expired, and the
    absent sentinel ([None]) otherwise.  An entry is live up to and including
    its expiry time; eviction of expired entries is not observable and is
    left out. *)
Definition cache_get (key : string) (now : Z) (c : gmap string entry)
    : option (option obj) :=
  match c !! key with
  | Some e => if now <=? expiresAt e then Some (stored e) else None
  | None => None
  end.

Record state := { cache : gmap string entry; calls : list call }.

Definition log (c : call) (st : state) : state :=
  {| cache := cache st; calls := calls st ++ [c] |}.

(** [util.format('%s', p)]. *)
Definition format_s (p : prim) : string :=
  match p with
  | PUndef => "undefined"
  | PNum z => decimal z
  | PStr s => s
  end.

(** [util.format('%s%s%s', node, port, method)]. *)
Definition cache_key (nd pt : prim) (method : string) : string :=
  format_s nd +:+ format_s pt +:+ method.

(** [x || y] on primitives. *)
Definition or_prim (x y : prim) : prim := if truthy_prim x then x else y.

Section Proxy.

(** [this]. *)
Variable this : config.

(** The daemon RPC client: the answer of [method] at host and port when
    asked at a given time. *)
Variable daemon : Z -> prim -> prim -> string -> reply obj.

(** [rpc.getBlockCount()], which answers a number. *)
Variable daemon_count : Z -> prim -> prim -> reply jsval.

(** [Request({uri: url, ...})] to a pool: the [network] member of the decoded
    body ([None] when it is missing or falsy), or a failure. *)
Variable pool_request : Z -> string -> reply (option obj).

(** [this.blockCache.getBlockCount()]. *)
Variable mirror_count : Z -> reply obj.

(** [Self.prototype._set]: [ttl = ttl || this.cacheTimeout]. *)
Definition _set (nd pt : prim) (method : string) (data : option obj)
    (ttl : option Z) (now : Z) (st : state) : state :=
  let ttl := num_or ttl (cacheTimeout this) in
  let key := cache_key nd pt method in
  {| cache := cache_set key data ttl now (cache st); calls := calls st |}.

(** [Self.prototype._get]: [false] ([None]) when the cache has nothing, or
    something falsy, under the key. *)
Definition _get (nd pt : prim) (method : string) (now : Z) (st : state)
    : option obj :=
  let key := cache_key nd pt method in
  match cache_get key now (cache st) with
  | Some (Some ret) => Some ret
  | _ => None
  end.

(** *** Standard JSON HTTP API commands *)

(** [new TurtleCoind({ host: node || this.defaultHost,
                      port: port || this.defaultPort })]; the client keeps
    the host and the port it is constructed with. *)
Definition rpc_of (nd pt : prim) : node :=
  {| host := or_prim nd (defaultHost this);
     port := or_prim pt (defaultPort this) |}.

Definition node_id (rpc : node) : jsval := VNode (host rpc) (port rpc).

(** The cache-hit branch: [cache.cached = true; return resolve(cache)]. *)
Definition rpc_hit (key_method : string) (nd pt : prim) (now : Z) (st : state)
    : option (promise obj) :=
  match _get nd pt key_method now st with
  | Some cache => Some (Resolve (<["cached" := VBool true]> cache))
  | None => None
  end.

(** The cache-miss branch: call the daemon; annotate, store and resolve its
    answer, or resolve the error payload. *)
Definition rpc_miss (key_method rpc_method : string) (extra : obj -> obj)
    (nd pt : prim) (now : Z) (st : state) : promise obj * state :=
  let rpc := rpc_of nd pt in
  let st := log (CallDaemon (host rpc) (port rpc) rpc_method) st in
  match daemon now (host rpc) (port rpc) rpc_method with
  | Ok data =>
      let data := <["cached" := VBool false]> data in
      let data := <["node" := node_id rpc]> data in
      let data := extra data in
      (Resolve data, _set nd pt key_method (Some data) None now st)
  | Fail err =>
      (Resolve (<["error" := VErr err]> {[ "node" := node_id rpc ]}), st)
  end.

(** The body that [_getInfo], [_feeInfo], [_getHeight], [_getTransactions]
    and [_getPeers] share. *)
Definition cached_rpc (key_method rpc_method : string) (extra : obj -> obj)
    (nd pt : prim) (now : Z) (st : state) : promise obj * state :=
  match rpc_hit key_method nd pt now st with
  | Some p => (p, st)
  | None => rpc_miss key_method rpc_method extra nd pt now st
  end.

(** [data.globalHashRate = Math.round(data.difficulty / targetBlockTime)]:
    a [difficulty] that is no number is converted to one, and a missing one
    is [undefined], which makes the rate [NaN].  The daemon reports the
    difficulty as an integer, for which the rounded quotient is written
    out. *)
Definition with_hash_rate (data : obj) : obj :=
  let rate :=
    match data !! "difficulty" with
    | Some (VNum d) => VNum (round_div d targetBlockTime)
    | Some v =>
        to_jsval (math_round (div64 (to_number v)
                                (Fin (inject_Z targetBlockTime))))
    | None => VNaN
    end in
  <["globalHashRate" := rate]> data.

Definition _getInfo := cached_rpc "getinfo" "getInfo" with_hash_rate.

Definition _feeInfo := cached_rpc "feeinfo" "feeInfo" id.

Definition _getHeight := cached_rpc "getheight" "getHeight" id.

Definition _getTransactions := cached_rpc "gettransactions" "getTransactions" id.

Definition _getPeers := cached_rpc "getpeers" "getPeers" id.

(** *** Custom JSON HTTP API commands: the aggregators *)

(** [promises.push(f(x))] for every [x] in turn, then [Promise.all].  Each
    call runs its cache lookup as soon as it is made, so every lookup sees the
    cache as it is when the round starts; the answers of the calls that missed
    are then processed one after the other. *)
Definition round {X} (hit : X -> state -> option (promise obj))
    (miss : X -> state -> promise obj * state) (xs : list X) (st : state)
    : list (promise obj) * state :=
  fold_left
    (fun acc x =>
       match hit x st with
       | Some p => (acc.1 ++ [p], acc.2)
       | None => let r := miss x acc.2 in (acc.1 ++ [r.1], r.2)
       end)
    xs ([], st).

(** [if (!results[j].height) continue; heights.push(results[j].height)]:
    the samples are the truthy values of the field.  The daemon and the pools
    report heights and difficulties as integers, and a sample is modelled
    where it is one: what is said about the samples of a round supposes that
    the field of every answer is an integer, falsy or missing ([integral]
    below). *)
Definition sample (field : string) (result : obj) : option Z :=
  match result !! field with
  | Some (VNum z) => if z =? 0 then None else Some z
  | _ => None
  end.

Definition samples (field : string) (results : list obj) : list Z :=
  omap (sample field) results.

Definition len {A} (l : list A) : jsval := VNum (Z.of_nat (length l)).

(** The object literal of [_getGlobalHeight] and [_getGlobalDifficulty];
    [None] when a helper throws. *)
Definition seed_summary (results : list obj) (values : list Z) : option obj :=
  voter ← voteValue values;
  mx ← maxValue values;
  mn ← minValue values;
  Some (list_to_map
    [ ("max", VNum mx); ("min", VNum mn);
      ("avg", avgValue (map inject_Z values)); ("med", medValue values);
      ("cnt", len results); ("ans", len values);
      ("con", VQ (confidence voter)); ("win", VNum (vvalue voter));
      ("cached", VBool false) ]).

(** The object literal of [_getGlobalPoolHeight] and
    [_getGlobalPoolDifficulty]. *)
Definition pool_summary (results : list obj) (values : list Z) : option obj :=
  voter ← voteValue values;
  mx ← maxValue values;
  mn ← minValue values;
  Some (list_to_map
    [ ("max", VNum mx); ("min", VNum mn);
      ("avg", avgValue (map inject_Z values)); ("med", medValue values);
      ("cnt", len values);
      ("con", VQ (confidence voter)); ("win", VNum (vvalue voter));
      ("cached", VBool false) ]).

(** The body that the four aggregators share: answer from the cache, or run
    one round, reduce the usable samples and store the summary.  An exception
    in the reduction, like a rejection of the round, resolves [{error}] and
    stores nothing. *)
Definition aggregate {X} (scope key_method field : string)
    (hit : X -> state -> option (promise obj))
    (miss : X -> state -> promise obj * state)
    (summary : list obj -> list Z -> option obj)
    (xs : list X) (now : Z) (st : state) : promise obj * state :=
  match _get (PStr scope) (PStr scope) key_method now st with
  | Some cache => (Resolve (<["cached" := VBool true]> cache), st)
  | None =>
      let r := round hit miss xs st in
      match promise_all r.1 with
      | Resolve results =>
          match summary results (samples field results) with
          | Some data =>
              (Resolve data,
               _set (PStr scope) (PStr scope) key_method (Some data) None now r.2)
          | None => (Resolve {[ "error" := VErr "TypeError" ]}, r.2)
          end
      | Reject err => (Resolve {[ "error" := VErr err ]}, r.2)
      end
  end.

Definition _getGlobalHeight (now : Z) : state -> promise obj * state :=
  aggregate "network" "globalheight" "height"
    (fun nd => rpc_hit "getheight" (host nd) (port nd) now)
    (fun nd => rpc_miss "getheight" "getHeight" id (host nd) (port nd) now)
    seed_summary (seeds this) now.

Definition _getGlobalDifficulty (now : Z) : state -> promise obj * state :=
  aggregate "network" "globaldifficulty" "difficulty"
    (fun nd => rpc_hit "getinfo" (host nd) (port nd) now)
    (fun nd => rpc_miss "getinfo" "getInfo" with_hash_rate (host nd) (port nd) now)
    seed_summary (seeds this) now.

(** [Self.prototype._getPoolNetworkInfo]; its [_set] call passes no data, so
    what it stores is [undefined]. *)
Definition pool_hit (uri : string) (now : Z) (st : state)
    : option (promise obj) :=
  match _get (PStr "pool") (PStr uri) "networkInfo" now st with
  | Some cache => Some (Resolve (<["cached" := VBool true]> cache))
  | None => None
  end.

Definition pool_miss (uri : string) (now : Z) (st : state)
    : promise obj * state :=
  let st := log (CallPool uri) st in
  match pool_request now uri with
  | Ok (Some network) =>
      (Resolve network, _set (PStr "pool") (PStr uri) "networkInfo" None None now st)
  | Ok None =>
      (Resolve {[ "error" := VStr "Invalid data returned by remote host" ]}, st)
  | Fail err => (Resolve {[ "error" := VErr err ]}, st)
  end.

Definition _getPoolNetworkInfo (uri : string) (now : Z) (st : state)
    : promise obj * state :=
  match pool_hit uri now st with
  | Some p => (p, st)
  | None => pool_miss uri now st
  end.

Definition _getGlobalPoolHeight (now : Z) : state -> promise obj * state :=
  aggregate "pool" "globalpoolheight" "height"
    (fun pl => pool_hit (url pl) now) (fun pl => pool_miss (url pl) now)
    pool_summary (pools this) now.

Definition _getGlobalPoolDifficulty (now : Z) : state -> promise obj * state :=
  aggregate "pool" "globalpooldifficulty" "difficulty"
    (fun pl => pool_hit (url pl) now) (fun pl => pool_miss (url pl) now)
    pool_summary (pools this) now.

(** *** Block count: mirror first, checked against the network height *)

(** [Math.abs(networkHeight - block.count) > this.maxDeviance].  A member
    that is missing or not a number makes the difference [NaN], and the
    comparison false. *)
Definition deviates (networkHeight count : option jsval) : bool :=
  match networkHeight, count with
  | Some (VNum h), Some (VNum c) => maxDeviance this <? Z.abs (h - c)
  | _, _ => false
  end.

(** The [.catch] branch of [getBlockCount]: ask the node of [opts]. *)
Definition live_count (opts : node) (now : Z) (st : state)
    : promise obj * state :=
  let st := log (CallDaemon (host opts) (port opts) "getBlockCount") st in
  match daemon_count now (host opts) (port opts) with
  | Ok data =>
      (Resolve (<["count" := data]> {[ "status" := VStr "OK" ]}), st)
  | Fail _ => (Reject "Failure encountered", st)
  end.

(** [Self.prototype.getBlockCount]. *)
Definition getBlockCount (opts : node) (now : Z) (st : state)
    : promise obj * state :=
  let r := _getHeight PUndef PUndef now st in
  match r.1 with
  | Resolve data =>
      let networkHeight := data !! "network_height" in
      let st := log (CallMirror "getBlockCount") r.2 in
      match mirror_count now with
      | Ok block =>
          if deviates networkHeight (block !! "count")
          then live_count opts now st
          else (Resolve block, st)
      | Fail _ => live_count opts now st
      end
  | Reject _ => live_count opts now r.2
  end.

End Proxy.

(** ** The route handlers *)

(** The operations a handler can start. *)
Inductive operation :=
| Call_getInfo (nd pt : prim)
| Call_feeInfo (nd pt : prim)
| Call_getHeight (nd pt : prim)
| Call_getPeers (nd pt : prim)
| Call_getTransactions (nd pt : prim)
| Call_processJsonRPC (nd pt : prim)
| Call_getGlobalHeight
| Call_getGlobalDifficulty
| Call_getGlobalPoolHeight
| Call_getGlobalPoolDifficulty
| Call_getBlockCount (opts : node)
| Call_getBlocks (opts : node) (height : string)
| Call_getLastBlockHeader (opts : node)
| Call_getBlockHeaderByHash (opts : node) (hash : string)
| Call_getBlockHeaderByHeight (opts : node) (height : jsval)
| Call_getBlock (opts : node) (hash : string)
| Call_getBlockHash (opts : node) (height : jsval)
| Call_getTransactionPool (opts : node)
| Call_getTransaction (opts : node) (hash : string)
| Call_getTransactionHashesByPaymentId (opts : node) (paymentId : string)
| Call_getCurrencyId (opts : node).

(** What a handler does before any promise settles: answer at once with a
    status and an empty body, answer at once with a configured list, or start
    an operation (no collaborator is called in the first two cases). *)
Inductive action :=
| Status (code : Z)
| Json_pools
| Json_seeds
| Invoke (op : operation).

(** The five single-node commands.  Each has a short and a legacy spelling
    ([info]/[getinfo], ...) with identical handlers, except [Transactions],
    which only has [gettransactions]. *)
Inductive node_op := Info | Fee | Height | Peers | Transactions.

Inductive route :=
| GET_root
| GET_globalHeight
| GET_globalDifficulty
| GET_globalPoolHeight
| GET_globalPoolDifficulty
| GET_pools
| GET_trustedNodes
| GET_node_op (op : node_op)
| GET_node_port_op (op : node_op)
| GET_op (op : node_op)
| GET_node_json_rpc
| GET_node_port_json_rpc
| GET_json_rpc
| POST_node_json_rpc
| POST_node_port_json_rpc
| POST_json_rpc
| GET_blocks_count
| GET_blocks_height
| GET_block_header_top
| GET_block_header_idx
| GET_block_idx
| GET_transaction_pool
| GET_transaction_hash
| GET_transactions_paymentid
| GET_currency.

(** The path parameters that the route pattern names and its handler uses. *)
Definition path_params (r : route) : list string :=
  match r with
  | GET_node_op _ | POST_node_json_rpc => ["node"]
  | GET_node_port_op _ | POST_node_port_json_rpc => ["node"; "port"]
  | GET_blocks_height => ["height"]
  | GET_block_header_idx | GET_block_idx => ["idx"]
  | GET_transaction_hash => ["hash"]
  | GET_transactions_paymentid => ["paymentid"]
  | _ => []
  end.

(** [request.params.x]. *)
Definition param (params : gmap string string) (x : string) : prim :=
  match params !! x with
  | Some s => PStr s
  | None => PUndef
  end.

(** [request.params.x] when it is truthy. *)
Definition present (params : gmap string string) (x : string) : option string :=
  match params !! x with
  | Some s => if String.eqb s "" then None else Some s
  | None => None
  end.

Definition start (op : node_op) (nd pt : prim) : operation :=
  match op with
  | Info => Call_getInfo nd pt
  | Fee => Call_feeInfo nd pt
  | Height => Call_getHeight nd pt
  | Peers => Call_getPeers nd pt
  | Transactions => Call_getTransactions nd pt
  end.

Section Routes.

Variable this : config.

Definition default_node : node :=
  {| host := defaultHost this; port := defaultPort this |}.

(** The callbacks registered with [this.app.get] and [this.app.post], up to
    the point where they answer or start an operation. *)
Definition handler (r : route) (params : gmap string string) : action :=
  match r with
  | GET_root => Status 404
  | GET_globalHeight => Invoke Call_getGlobalHeight
  | GET_globalDifficulty => Invoke Call_getGlobalDifficulty
  | GET_globalPoolHeight => Invoke Call_getGlobalPoolHeight
  | GET_globalPoolDifficulty => Invoke Call_getGlobalPoolDifficulty
  | GET_pools => Json_pools
  | GET_trustedNodes => Json_seeds
  | GET_node_op op =>
      match present params "node" with
      | None => Status 400
      | Some nd => Invoke (start op (PStr nd) PUndef)
      end
  | GET_node_port_op op =>
      match present params "node", present params "port" with
      | Some nd, Some pt => Invoke (start op (PStr nd) (PStr pt))
      | _, _ => Status 400
      end
  | GET_op op => Invoke (start op PUndef PUndef)
  | GET_node_json_rpc | GET_node_port_json_rpc | GET_json_rpc => Status 400
  | POST_node_json_rpc =>
      Invoke (Call_processJsonRPC (param params "node") PUndef)
  | POST_node_port_json_rpc =>
      match present params "node", present params "port" with
      | Some nd, Some pt => Invoke (Call_processJsonRPC (PStr nd) (PStr pt))
      | _, _ => Status 400
      end
  | POST_json_rpc => Invoke (Call_processJsonRPC PUndef PUndef)
  | GET_blocks_count => Invoke (Call_getBlockCount default_node)
  | GET_blocks_height =>
      match present params "height" with
      | None => Status 400
      | Some h => Invoke (Call_getBlocks default_node h)
      end
  | GET_block_header_top => Invoke (Call_getLastBlockHeader default_node)
  | GET_block_header_idx =>
      match present params "idx" with
      | None => Status 400
      | Some s =>
          let idx := parseInteger s in
          if negb (truthy idx)
          then Invoke (Call_getBlockHeaderByHash default_node s)
          else Invoke (Call_getBlockHeaderByHeight default_node idx)
      end
  | GET_block_idx =>
      match present params "idx" with
      | None => Status 400
      | Some s =>
          let idx := parseInteger s in
          if negb (truthy idx)
          then Invoke (Call_getBlock default_node s)
          else Invoke (Call_getBlockHash default_node idx)
      end
  | GET_transaction_pool => Invoke (Call_getTransactionPool default_node)
  | GET_transaction_hash =>
      match present params "hash" with
      | None => Status 400
      | Some h => Invoke (Call_getTransaction default_node h)
      end
  | GET_transactions_paymentid =>
      match present params "paymentid" with
      | None => Status 500
      | Some pid => Invoke (Call_getTransactionHashesByPaymentId default_node pid)
      end
  | GET_currency => Invoke (Call_getCurrencyId default_node)
  end.

End Routes.


(** ** Block explorer functions, JSON RPC dispatch and responses *)

(** [content.params] of a JSON RPC request: missing ([undefined] or [null]),
    an object (named parameters) or an array (positional parameters), the
    forms JSON-RPC 2.0 allows. *)
Inductive rpc_params :=
| NoParams
| Named (o : obj)
| Positional (l : list jsval).

(** The members of [request.body] that [_processJsonRPC] reads. *)
Record request_body := { body_method : jsval; body_params : rpc_params }.

(** [content.params.k]: reading a member of [undefined] throws ([None]); an
    object or an array without the member gives [undefined]. *)
Definition member (p : rpc_params) (k : string) : option jsval :=
  match p with
  | NoParams => None
  | Named o => Some (default VUndef (o !! k))
  | Positional _ => Some VUndef
  end.

(** [content.params[0]]. *)
Definition first_param (p : rpc_params) : option jsval :=
  match p with
  | NoParams => None
  | Named o => Some (default VUndef (o !! "0"))
  | Positional l => Some (nth 0 l VUndef)
  end.

(** The function a JSON RPC request is handed to, with its [opts]. *)
Inductive rpc_target :=
| To_getBlocks (opts : node) (height : jsval)
| To_getBlock (opts : node) (hash : jsval)
| To_getTransaction (opts : node) (hash : jsval)
| To_getBlockCount (opts : node)
| To_getBlockHash (opts : node) (height : jsval)
| To_getLastBlockHeader (opts : node)
| To_getBlockHeaderByHash (opts : node) (hash : jsval)
| To_getBlockHeaderByHeight (opts : node) (height : jsval)
| To_getTransactionPool (opts : node)
| To_getBlockTemplate (opts : node) (reserveSize walletAddress : jsval)
| To_submitBlock (opts : node) (blockBlob : jsval)
| To_getCurrencyId (opts : node)
| To_getTransactionHashesByPaymentId (opts : node) (paymentId : jsval)
| To_jsonRpc (opts : node) (method : jsval) (params : rpc_params).

(** The [switch (content.method)] of [_processJsonRPC]; [None] when the
    evaluation of an argument throws.  The cases compare with [===], so a
    method that is not a string falls to [default]. *)
Definition select (content : request_body) (opts : node) : option rpc_target :=
  let p := body_params content in
  match body_method content with
  | VStr m =>
      if String.eqb m "f_blocks_list_json" then
        height ← member p "height"; Some (To_getBlocks opts height)
      else if String.eqb m "f_block_json" then
        hash ← member p "hash"; Some (To_getBlock opts hash)
      else if String.eqb m "f_transaction_json" then
        hash ← member p "hash"; Some (To_getTransaction opts hash)
      else if String.eqb m "getblockcount" then
        Some (To_getBlockCount opts)
      else if String.eqb m "on_getblockhash" then
        height ← first_param p; Some (To_getBlockHash opts height)
      else if String.eqb m "getlastblockheader" then
        Some (To_getLastBlockHeader opts)
      else if String.eqb m "getblockheaderbyhash" then
        hash ← member p "hash"; Some (To_getBlockHeaderByHash opts hash)
      else if String.eqb m "getblockheaderbyheight" then
        height ← member p "height"; Some (To_getBlockHeaderByHeight opts height)
      else if String.eqb m "f_on_transactions_pool_json" then
        Some (To_getTransactionPool opts)
      else if String.eqb m "getblocktemplate" then
        reserveSize ← member p "reserve_size";
        walletAddress ← member p "wallet_address";
        Some (To_getBlockTemplate opts reserveSize walletAddress)
      else if String.eqb m "submitblock" then
        blockBlob ← first_param p; Some (To_submitBlock opts blockBlob)
      else if String.eqb m "getcurrencyid" then
        Some (To_getCurrencyId opts)
      else if String.eqb m "f_gettransactionsbypaymentid" then
        paymentId ← member p "paymentId";
        Some (To_getTransactionHashesByPaymentId opts paymentId)
      else Some (To_jsonRpc opts (VStr m) p)
  | other => Some (To_jsonRpc opts other p)
  end.

(** [Object.keys(data).forEach(...)] of [_getPoolList]: one pool per key of
    the directory, in the order of the keys, with [stats] appended to the
    [url] member of its entry.  The directory is the list of its keys with
    those members. *)
Definition pools_of (directory : list (string * prim)) : list pool :=
  map (fun elem => {| name := elem.1; url := format_s elem.2 +:+ "stats" |})
    directory.

(** [Self.prototype._getPoolList]: the pools of the directory, or the error
    of the request. *)
Definition _getPoolList (directory : reply (list (string * prim)))
    : promise (list pool) :=
  match directory with
  | Ok data => Resolve (pools_of data)
  | Fail err => Reject err
  end.

(** [function getPools ()] of the constructor: [that.pools = pools] once
    the list resolves; a rejection is emitted and changes nothing. *)
Definition getPools (this : config)
    (directory : reply (list (string * prim))) : config :=
  match _getPoolList directory with
  | Resolve pools =>
      {| cacheTimeout := cacheTimeout this; defaultHost := defaultHost this;
         defaultPort := defaultPort this; seeds := seeds this;
         pools := pools; maxDeviance := maxDeviance this |}
  | Reject _ => this
  end.

Section Explorer.

Variable this : config.

(** What the mirror and the daemon answer to explorer queries (blocks,
    headers, transactions, templates): the program hands these answers on
    without looking into them. *)
Variable payload : Type.

Variable daemon : Z -> prim -> prim -> string -> reply obj.

Variable daemon_count : Z -> prim -> prim -> reply jsval.

Variable mirror_count : Z -> reply obj.

(** [this.blockCache.<method>(args)]. *)
Variable mirror : Z -> string -> list jsval -> reply payload.

(** [rpc.<method>(args)] for the explorer methods. *)
Variable daemon_data : Z -> prim -> prim -> string -> list jsval -> reply payload.

(** [rpc.getTransactionPool()] and [rpc.getCurrencyId()], whose answers the
    program stores as members of an object. *)
Variable daemon_value : Z -> prim -> prim -> string -> reply jsval.

(** [rpc._post(method, params)]. *)
Variable daemon_post : Z -> prim -> prim -> jsval -> rpc_params -> reply payload.

(** [Request({uri: url, ...})] to a pool. *)
Variable pool_request : Z -> string -> reply (option obj).

(** The body that [getBlocks], [getBlock], [getTransaction], [getBlockHash],
    [getLastBlockHeader], [getBlockHeaderByHash] and
    [getBlockHeaderByHeight] share: the mirror first, then the daemon of
    [opts], then [Error('Failure encountered')]. *)
Definition mirror_first (method : string) (opts : node) (args : list jsval)
    (now : Z) (st : state) : promise payload * state :=
  let st := log (CallMirror method) st in
  match mirror now method args with
  | Ok data => (Resolve data, st)
  | Fail _ =>
      let st := log (CallDaemon (host opts) (port opts) method) st in
      match daemon_data now (host opts) (port opts) method args with
      | Ok data => (Resolve data, st)
      | Fail _ => (Reject "Failure encountered", st)
      end
  end.

Definition getBlocks (opts : node) (height : jsval) :=
  mirror_first "getBlocks" opts [height].

Definition getBlock (opts : node) (hash : jsval) :=
  mirror_first "getBlock" opts [hash].

Definition getTransaction (opts : node) (hash : jsval) :=
  mirror_first "getTransaction" opts [hash].

Definition getBlockHash (opts : node) (height : jsval) :=
  mirror_first "getBlockHash" opts [height].

Definition getLastBlockHeader (opts : node) :=
  mirror_first "getLastBlockHeader" opts [].

Definition getBlockHeaderByHash (opts : node) (hash : jsval) :=
  mirror_first "getBlockHeaderByHash" opts [hash].

Definition getBlockHeaderByHeight (opts : node) (height : jsval) :=
  mirror_first "getBlockHeaderByHeight" opts [height].

(** [Self.prototype.getTransactionHashesByPaymentId]: the daemon does not
    support the call, only the mirror is asked. *)
Definition getTransactionHashesByPaymentId (opts : node) (paymentId : jsval)
    (now : Z) (st : state) : promise payload * state :=
  let st := log (CallMirror "getTransactionHashesByPaymentId") st in
  match mirror now "getTransactionHashesByPaymentId" [paymentId] with
  | Ok data => (Resolve data, st)
  | Fail _ => (Reject "Failure encountered", st)
  end.

(** The body that [getTransactionPool] and [getCurrencyId] share: the cached
    object as it is, or the answer of the daemon wrapped in an object and
    stored; a failure of the daemon rejects with its error.  The client keeps
    the host and the port of [opts]. *)
Definition cached_value (key_method rpc_method : string) (wrap : jsval -> obj)
    (opts : node) (now : Z) (st : state) : promise obj * state :=
  match _get (host opts) (port opts) key_method now st with
  | Some cache => (Resolve cache, st)
  | None =>
      let st := log (CallDaemon (host opts) (port opts) rpc_method) st in
      match daemon_value now (host opts) (port opts) rpc_method with
      | Ok v =>
          let data := wrap v in
          (Resolve data,
           _set this (host opts) (port opts) key_method (Some data) None now st)
      | Fail err => (Reject err, st)
      end
  end.

Definition getTransactionPool :=
  cached_value "f_on_transactions_pool_json" "getTransactionPool"
    (fun pool => <["status" := VStr "OK"]> {[ "transactions" := pool ]}).

Definition getCurrencyId :=
  cached_value "getcurrencyid" "getCurrencyId"
    (fun currency => {[ "currency_id_blob" := currency ]}).

(** The body of [getBlockTemplate] and [submitBlock]: the promise of the
    daemon, as it is. *)
Definition pass_through (method : string) (opts : node) (args : list jsval)
    (now : Z) (st : state) : promise payload * state :=
  let st := log (CallDaemon (host opts) (port opts) method) st in
  match daemon_data now (host opts) (port opts) method args with
  | Ok data => (Resolve data, st)
  | Fail err => (Reject err, st)
  end.

Definition getBlockTemplate (opts : node) (reserveSize walletAddress : jsval) :=
  pass_through "getBlockTemplate" opts [reserveSize; walletAddress].

Definition submitBlock (opts : node) (blockBlob : jsval) :=
  pass_through "submitBlock" opts [blockBlob].

(** [Self.prototype._jsonRpc]. *)
Definition _jsonRpc (opts : node) (method : jsval) (params : rpc_params)
    (now : Z) (st : state) : promise payload * state :=
  let st := log (CallDaemon (host opts) (port opts) "_post") st in
  match daemon_post now (host opts) (port opts) method params with
  | Ok data => (Resolve data, st)
  | Fail err => (Reject err, st)
  end.

(** What a JSON RPC request or an explorer route resolves: an object the
    program built, or an answer it handed on. *)
Inductive answer :=
| Object (o : obj)
| Data (d : payload).

Definition lift {A} (f : A -> answer) (r : promise A * state)
    : promise answer * state :=
  match r.1 with
  | Resolve v => (Resolve (f v), r.2)
  | Reject e => (Reject e, r.2)
  end.

(** The call that [_processJsonRPC] returns the promise of. *)
Definition perform (t : rpc_target) (now : Z) (st : state)
    : promise answer * state :=
  match t with
  | To_getBlocks opts height => lift Data (getBlocks opts height now st)
  | To_getBlock opts hash => lift Data (getBlock opts hash now st)
  | To_getTransaction opts hash => lift Data (getTransaction opts hash now st)
  | To_getBlockCount opts =>
      lift Object (getBlockCount this daemon daemon_count mirror_count opts now st)
  | To_getBlockHash opts height => lift Data (getBlockHash opts height now st)
  | To_getLastBlockHeader opts => lift Data (getLastBlockHeader opts now st)
  | To_getBlockHeaderByHash opts hash =>
      lift Data (getBlockHeaderByHash opts hash now st)
  | To_getBlockHeaderByHeight opts height =>
      lift Data (getBlockHeaderByHeight opts height now st)
  | To_getTransactionPool opts => lift Object (getTransactionPool opts now st)
  | To_getBlockTemplate opts reserveSize walletAddress =>
      lift Data (getBlockTemplate opts reserveSize walletAddress now st)
  | To_submitBlock opts blockBlob => lift Data (submitBlock opts blockBlob now st)
  | To_getCurrencyId opts => lift Object (getCurrencyId opts now st)
  | To_getTransactionHashesByPaymentId opts paymentId =>
      lift Data (getTransactionHashesByPaymentId opts paymentId now st)
  | To_jsonRpc opts method params => lift Data (_jsonRpc opts method params now st)
  end.

(** [Self.prototype._processJsonRPC]. *)
Definition _processJsonRPC (content : request_body) (nd pt : prim)
    (now : Z) (st : state) : promise answer * state :=
  let opts := {| host := or_prim nd (defaultHost this);
                 port := or_prim pt (defaultPort this) |} in
  if negb (truthy (body_method content)) then (Reject "No method defined", st)
  else
    match select content opts with
    | Some t => perform t now st
    | None => (Reject "TypeError", st)
    end.

(** What a handler sends. *)
Inductive response :=
| Send (status : Z)
| Json (body : obj)
| Json_pool_list (l : list pool)
| Json_seed_list (l : list node)
| Json_rpc (result : answer).

(** [.then((data) => response.json(data))
     .catch((err) => response.status(500).send())]. *)
Definition plain (r : promise obj * state) : response * state :=
  match r.1 with
  | Resolve data => (Json data, r.2)
  | Reject _ => (Send 500, r.2)
  end.

(** [.then((data) => response.json({ jsonrpc: '2.0', result: data }))
     .catch((err) => response.status(500).send())]. *)
Definition wrapped (r : promise answer * state) : response * state :=
  match r.1 with
  | Resolve data => (Json_rpc data, r.2)
  | Reject _ => (Send 500, r.2)
  end.

(** The operation a handler starts. *)
Definition operate (op : operation) (content : request_body)
    (now : Z) (st : state) : response * state :=
  match op with
  | Call_getInfo nd pt => plain (_getInfo this daemon nd pt now st)
  | Call_feeInfo nd pt => plain (_feeInfo this daemon nd pt now st)
  | Call_getHeight nd pt => plain (_getHeight this daemon nd pt now st)
  | Call_getPeers nd pt => plain (_getPeers this daemon nd pt now st)
  | Call_getTransactions nd pt => plain (_getTransactions this daemon nd pt now st)
  | Call_processJsonRPC nd pt => wrapped (_processJsonRPC content nd pt now st)
  | Call_getGlobalHeight => plain (_getGlobalHeight this daemon now st)
  | Call_getGlobalDifficulty => plain (_getGlobalDifficulty this daemon now st)
  | Call_getGlobalPoolHeight => plain (_getGlobalPoolHeight this pool_request now st)
  | Call_getGlobalPoolDifficulty =>
      plain (_getGlobalPoolDifficulty this pool_request now st)
  | Call_getBlockCount opts =>
      wrapped (lift Object
        (getBlockCount this daemon daemon_count mirror_count opts now st))
  | Call_getBlocks opts height =>
      wrapped (lift Data (getBlocks opts (VStr height) now st))
  | Call_getLastBlockHeader opts =>
      wrapped (lift Data (getLastBlockHeader opts now st))
  | Call_getBlockHeaderByHash opts hash =>
      wrapped (lift Data (getBlockHeaderByHash opts (VStr hash) now st))
  | Call_getBlockHeaderByHeight opts height =>
      wrapped (lift Data (getBlockHeaderByHeight opts height now st))
  | Call_getBlock opts hash => wrapped (lift Data (getBlock opts (VStr hash) now st))
  | Call_getBlockHash opts height =>
      wrapped (lift Data (getBlockHash opts height now st))
  | Call_getTransactionPool opts =>
      wrapped (lift Object (getTransactionPool opts now st))
  | Call_getTransaction opts hash =>
      wrapped (lift Data (getTransaction opts (VStr hash) now st))
  | Call_getTransactionHashesByPaymentId opts paymentId =>
      wrapped (lift Data
        (getTransactionHashesByPaymentId opts (VStr paymentId) now st))
  | Call_getCurrencyId opts => wrapped (lift Object (getCurrencyId opts now st))
  end.

(** A request from the route to the response: the handler, then the
    operation it starts. *)
Definition serve (r : route) (params : gmap string string)
    (content : request_body) (now : Z) (st : state) : response * state :=
  match handler this r params with
  | Status code => (Send code, st)
  | Json_pools => (Json_pool_list (pools this), st)
  | Json_seeds => (Json_seed_list (seeds this), st)
  | Invoke op => operate op content now st
  end.

End Explorer.

Arguments Object {payload} o.
Arguments Data {payload} d.
Arguments lift {payload A} f r.
Arguments Send {payload} status.
Arguments Json {payload} body.
Arguments Json_pool_list {payload} l.
Arguments Json_seed_list {payload} l.
Arguments Json_rpc {payload} result.
Arguments plain {payload} r.
Arguments wrapped {payload} r.
(** ** Notions used to state the properties *)

(** The string of a list of digit values. *)
Definition chars (ds : list Z) : string :=
  fold_right (fun d s => String (digit_char d) s) "" ds.

Definition is_digit (d : Z) : Prop := 0 <= d < 10.

(** Parsing [s] as an integer and converting the result back to a string
    reproduces [s] exactly. *)
Definition round_trips (s : string) (n : Z) : Prop :=
  parseInt s = VNum n /\ toString (VNum n) = s.

(** [s] carries, after white space and sign, a [0x] or [0X] prefix. *)
Definition hex_literal (s : string) : Prop :=
  (strip_radix (strip_sign (skip_ws s)).2).1 = 16.

(** A parsed value that is a number lies below 2^53 in absolute value, where
    every integer is a number. *)
Definition safe (v : jsval) : Prop :=
  match v with
  | VNum n => Z.abs n < 2 ^ 53
  | _ => True
  end.

(** The sum of the absolute values of the samples. *)
Definition magnitude (arr : list Z) : Z := sum (map Z.abs arr).

(** The field of an answer is an integer, falsy or missing. *)
Definition integral (field : string) (result : obj) : Prop :=
  match result !! field with
  | Some (VNum _) | None => True
  | Some v => truthy v = false
  end.

(** The answers of a round whose field is truthy: those that the program
    takes a sample from. *)
Definition usable (field : string) (results : list obj) : list obj :=
  List.filter (fun r => truthy (default VUndef (r !! field))) results.

(** The options object [{}]. *)
Definition no_options : options :=
  {| opt_cacheTimeout := None; opt_defaultHost := None; opt_defaultPort := None;
     opt_seeds := None; opt_pools := None; opt_maxDeviance := None |}.

(** The five single-node commands by name: the method part of the cache
    key, the daemon method, the extra annotation and the function itself. *)
Definition key_method (op : node_op) : string :=
  match op with
  | Info => "getinfo"
  | Fee => "feeinfo"
  | Height => "getheight"
  | Peers => "getpeers"
  | Transactions => "gettransactions"
  end.

Definition rpc_method (op : node_op) : string :=
  match op with
  | Info => "getInfo"
  | Fee => "feeInfo"
  | Height => "getHeight"
  | Peers => "getPeers"
  | Transactions => "getTransactions"
  end.

Definition run (this : config) (daemon : Z -> prim -> prim -> string -> reply obj)
    (op : node_op) : prim -> prim -> Z -> state -> promise obj * state :=
  match op with
  | Info => _getInfo this daemon
  | Fee => _feeInfo this daemon
  | Height => _getHeight this daemon
  | Peers => _getPeers this daemon
  | Transactions => _getTransactions this daemon
  end.

(** The answer of the daemon as the command resolves and stores it. *)
Definition annotated (op : node_op) (rpc : node) (data : obj) : obj :=
  let data := <["node" := node_id rpc]> (<["cached" := VBool false]> data) in
  match op with
  | Info => with_hash_rate data
  | _ => data
  end.

(** The error payload [{ error: err, node: { host, port } }]. *)
Definition error_payload (err : string) (rpc : node) : obj :=
  <["error" := VErr err]> {[ "node" := node_id rpc ]}.

(** *** Sample worlds *)

Definition fresh_state : state := {| cache := ∅; calls := [] |}.

(** A daemon that answers every method with the same height report. *)
Definition steady_daemon (h nh : Z) : Z -> prim -> prim -> string -> reply obj :=
  fun _ _ _ _ => Ok (<["height" := VNum h]> {[ "network_height" := VNum nh ]}).

(** A daemon that cannot be reached. *)
Definition dead_daemon : Z -> prim -> prim -> string -> reply obj :=
  fun _ _ _ _ => Fail "ECONNREFUSED".

(** Two pools, of which only the first answers. *)
Definition two_pools : options :=
  {| opt_cacheTimeout := None; opt_defaultHost := None; opt_defaultPort := None;
     opt_seeds := None;
     opt_pools := Some [ {| name := "p1"; url := "http://p1/stats" |};
                         {| name := "p2"; url := "http://p2/stats" |} ];
     opt_maxDeviance := None |}.

Definition one_pool_up : Z -> string -> reply (option obj) :=
  fun _ uri =>
    if String.eqb uri "http://p1/stats"
    then Ok (Some (<["height" := VNum 100]> {[ "difficulty" := VNum 7 ]}))
    else Fail "ETIMEDOUT".


(** A mirror that holds [c] blocks, and a daemon that counts [c]. *)
Definition mirror_at (c : Z) : Z -> reply obj :=
  fun _ => Ok (<["count" := VNum c]> {[ "status" := VStr "OK" ]}).

Definition count_at (c : Z) : Z -> prim -> prim -> reply jsval :=
  fun _ _ _ => Ok (VNum c).

(** The order of [votes] after the sort: greater values first. *)
Definition above (a b : vote) : Prop := value b <= value a.

(** The tally that [tallies[v]] holds. *)
Definition tally_of (tallies : list vote) (v : Z) : nat :=
  match find (fun t => value t =? v) tallies with
  | Some t => tally t
  | None => O
  end.

(** *** Names for the explorer functions *)

(** The seven functions that ask the mirror first and then the daemon. *)
Inductive explorer_query :=
| Blocks
| Block
| Transaction
| BlockHash
| LastBlockHeader
| BlockHeaderByHash
| BlockHeaderByHeight.

Definition query_name (q : explorer_query) : string :=
  match q with
  | Blocks => "getBlocks"
  | Block => "getBlock"
  | Transaction => "getTransaction"
  | BlockHash => "getBlockHash"
  | LastBlockHeader => "getLastBlockHeader"
  | BlockHeaderByHash => "getBlockHeaderByHash"
  | BlockHeaderByHeight => "getBlockHeaderByHeight"
  end.

Definition query_args (q : explorer_query) (arg : jsval) : list jsval :=
  match q with
  | LastBlockHeader => []
  | _ => [arg]
  end.

Definition explore {payload : Type}
    (mirror : Z -> string -> list jsval -> reply payload)
    (daemon_data : Z -> prim -> prim -> string -> list jsval -> reply payload)
    (q : explorer_query) (opts : node) (arg : jsval)
    : Z -> state -> promise payload * state :=
  match q with
  | Blocks => getBlocks payload mirror daemon_data opts arg
  | Block => getBlock payload mirror daemon_data opts arg
  | Transaction => getTransaction payload mirror daemon_data opts arg
  | BlockHash => getBlockHash payload mirror daemon_data opts arg
  | LastBlockHeader => getLastBlockHeader payload mirror daemon_data opts
  | BlockHeaderByHash => getBlockHeaderByHash payload mirror daemon_data opts arg
  | BlockHeaderByHeight => getBlockHeaderByHeight payload mirror daemon_data opts arg
  end.

(** The two functions that cache the wrapped answer of the daemon. *)
Inductive value_query := TransactionPool | CurrencyId.

Definition value_key (q : value_query) : string :=
  match q with
  | TransactionPool => "f_on_transactions_pool_json"
  | CurrencyId => "getcurrencyid"
  end.

Definition value_method (q : value_query) : string :=
  match q with
  | TransactionPool => "getTransactionPool"
  | CurrencyId => "getCurrencyId"
  end.

Definition value_object (q : value_query) (v : jsval) : obj :=
  match q with
  | TransactionPool => <["status" := VStr "OK"]> {[ "transactions" := v ]}
  | CurrencyId => {[ "currency_id_blob" := v ]}
  end.

Definition fetch_value (this : config)
    (daemon_value : Z -> prim -> prim -> string -> reply jsval)
    (q : value_query) : node -> Z -> state -> promise obj * state :=
  match q with
  | TransactionPool => getTransactionPool this daemon_value
  | CurrencyId => getCurrencyId this daemon_value
  end.

(** The JSON RPC methods whose case reads a member of [content.params]. *)
Definition reads_params (method : jsval) : bool :=
  match method with
  | VStr m =>
      existsb (String.eqb m)
        [ "f_blocks_list_json"; "f_block_json"; "f_transaction_json";
          "on_getblockhash"; "getblockheaderbyhash"; "getblockheaderbyheight";
          "getblocktemplate"; "submitblock"; "f_gettransactionsbypaymentid" ]
  | _ => false
  end.

(** The JSON RPC methods that have a case of their own. *)
Definition known_method (m : string) : bool :=
  existsb (String.eqb m)
    [ "f_blocks_list_json"; "f_block_json"; "f_transaction_json";
      "getblockcount"; "on_getblockhash"; "getlastblockheader";
      "getblockheaderbyhash"; "getblockheaderbyheight";
      "f_on_transactions_pool_json"; "getblocktemplate"; "submitblock";
      "getcurrencyid"; "f_gettransactionsbypaymentid" ].

(** The node that a dispatched call addresses. *)
Definition target_node (t : rpc_target) : node :=
  match t with
  | To_getBlocks opts _ | To_getBlock opts _ | To_getTransaction opts _
  | To_getBlockCount opts | To_getBlockHash opts _ | To_getLastBlockHeader opts
  | To_getBlockHeaderByHash opts _ | To_getBlockHeaderByHeight opts _
  | To_getTransactionPool opts | To_getBlockTemplate opts _ _
  | To_submitBlock opts _ | To_getCurrencyId opts
  | To_getTransactionHashesByPaymentId opts _ | To_jsonRpc opts _ _ => opts
  end.


(** *** More sample worlds *)

(** An empty request body, as the body parser leaves it. *)
Definition no_content : request_body :=
  {| body_method := VUndef; body_params := NoParams |}.

(** A mirror and a daemon for explorer queries that answer with the name of
    the source, or fail. *)
Definition mirror_up : Z -> string -> list jsval -> reply string :=
  fun _ _ _ => Ok "from the mirror".

Definition mirror_down : Z -> string -> list jsval -> reply string :=
  fun _ _ _ => Fail "not ready".

Definition data_up : Z -> prim -> prim -> string -> list jsval -> reply string :=
  fun _ _ _ _ _ => Ok "from the daemon".

Definition data_down : Z -> prim -> prim -> string -> list jsval -> reply string :=
  fun _ _ _ _ _ => Fail "ETIMEDOUT".

Definition value_up : Z -> prim -> prim -> string -> reply jsval :=
  fun _ _ _ _ => Ok (VStr "blob").

Definition value_down : Z -> prim -> prim -> string -> reply jsval :=
  fun _ _ _ _ => Fail "ETIMEDOUT".

Definition post_up : Z -> prim -> prim -> jsval -> rpc_params -> reply string :=
  fun _ _ _ _ _ => Ok "posted".

Definition pools_down : Z -> string -> reply (option obj) :=
  fun _ _ => Fail "ETIMEDOUT".

Definition mirror_off : Z -> reply obj := fun _ => Fail "not ready".

Definition count_down : Z -> prim -> prim -> reply jsval :=
  fun _ _ _ => Fail "ETIMEDOUT".


(** The daemon call of a single-node command for a seed. *)
Definition seed_call (this : config) (rpc_name : string) (nd : node) : call :=
  CallDaemon (or_prim (host nd) (defaultHost this))
             (or_prim (port nd) (defaultPort this)) rpc_name.

(** The seed has no live entry of its own under the method. *)
Definition uncached (key_name : string) (now : Z) (st : state) (nd : node) : bool :=
  match _get (host nd) (port nd) key_name now st with
  | Some _ => false
  | None => true
  end.

(** The key holds an object that expires [cacheTimeout] after [now]. *)
Definition holds (this : config) (key : string) (now : Z) (st : state) : Prop :=
  exists o, cache st !! key =
            Some {| stored := Some o; expiresAt := now + cacheTimeout this |}.

(** The request that a pool round makes for a directory entry. *)
Definition stats_call (elem : string * prim) : call :=
  CallPool (format_s elem.2 +:+ "stats").

(** A pool that always answers height 100. *)
Definition pool_up : Z -> string -> reply (option obj) :=
  fun _ _ => Ok (Some {[ "height" := VNum 100 ]}).

(** A daemon of which only [us-east] answers. *)
Definition lone_daemon : Z -> prim -> prim -> string -> reply obj :=
  fun _ h _ _ =>
    match h with
    | PStr "us-east.turtlenode.io" => Ok {[ "height" := VNum 100 ]}
    | _ => Fail "ETIMEDOUT"
    end.

(** What the six calls of a height round resolve at time 0, from an empty
    cache, when only [us-east] answers. *)
Definition lone_round : list obj := Eval vm_compute in
    match promise_all
            (round (fun nd => rpc_hit "getheight" (host nd) (port nd) 0)
               (fun nd => rpc_miss (Self no_options) lone_daemon
                            "getheight" "getHeight" id (host nd) (port nd) 0)
               (seeds (Self no_options)) fresh_state).1
    with
    | Resolve results => results
    | Reject _ => []
    end.

(** * Properties *)

(** ** Statistics *)

Section Statistics.

Lemma fold_min_spec (l : list Z) (a : Z) :
  (fold_left Z.min l a = a \/ In (fold_left Z.min l a) l) /\
  fold_left Z.min l a <= a /\ Forall (fun x => fold_left Z.min l a <= x) l.
Proof.
  revert a. induction l as [|x l IH]; intros a; simpl.
  - split; [now left | split; [lia | constructor]].
  - destruct (IH (Z.min a x)) as ([Hm | Hm] & Hle & Hall).
    + split; [| split; [lia | constructor; [lia | exact Hall]]].
      rewrite Hm.
      destruct (Z.min_spec a x) as [[_ E] | [_ E]]; [left; lia | right; left; lia].
    + split; [right; right; exact Hm | split; [lia | constructor; [lia | exact Hall]]].
Qed.

Lemma fold_max_spec (l : list Z) (a : Z) :
  (fold_left Z.max l a = a \/ In (fold_left Z.max l a) l) /\
  a <= fold_left Z.max l a /\ Forall (fun x => x <= fold_left Z.max l a) l.
Proof.
  revert a. induction l as [|x l IH]; intros a; simpl.
  - split; [now left | split; [lia | constructor]].
  - destruct (IH (Z.max a x)) as ([Hm | Hm] & Hle & Hall).
    + split; [| split; [lia | constructor; [lia | exact Hall]]].
      rewrite Hm.
      destruct (Z.max_spec a x) as [[_ E] | [_ E]]; [right; left; lia | left; lia].
    + split; [right; right; exact Hm | split; [lia | constructor; [lia | exact Hall]]].
Qed.

(** [minValue] returns the least sample. *)
Lemma minValue_least (arr : list Z) :
  arr <> [] ->
  exists mn, minValue arr = Some mn /\ In mn arr /\ Forall (fun x => mn <= x) arr.
Proof.
  destruct arr as [|a l]; [congruence | intros _].
  exists (fold_left Z.min l a). simpl.
  destruct (fold_min_spec l a) as (Hin & Hle & Hall).
  split; [reflexivity | split; [| constructor; assumption]].
  destruct Hin as [E | H]; [left; symmetry; exact E | right; exact H].
Qed.

(** [maxValue] returns the greatest sample. *)
Lemma maxValue_greatest (arr : list Z) :
  arr <> [] ->
  exists mx, maxValue arr = Some mx /\ In mx arr /\ Forall (fun x => x <= mx) arr.
Proof.
  destruct arr as [|a l]; [congruence | intros _].
  exists (fold_left Z.max l a). simpl.
  destruct (fold_max_spec l a) as (Hin & Hle & Hall).
  split; [reflexivity | split; [| constructor; assumption]].
  destruct Hin as [E | H]; [left; symmetry; exact E | right; exact H].
Qed.

Lemma fold_add_shift (l : list Z) (a : Z) :
  fold_left Z.add l a = a + fold_left Z.add l 0.
Proof.
  revert a. induction l as [|x l IH]; intros a; simpl; [lia |].
  rewrite (IH (a + x)), (IH (0 + x)). lia.
Qed.

Lemma sum_cons (x : Z) (l : list Z) : sum (x :: l) = x + sum l.
Proof. unfold sum. simpl. apply fold_add_shift. Qed.

Lemma sum_bounds (lo hi : Z) (l : list Z) :
  Forall (fun x => lo <= x <= hi) l ->
  Z.of_nat (length l) * lo <= sum l <= Z.of_nat (length l) * hi.
Proof.
  induction 1 as [|x l Hx _ IH].
  - unfold sum. simpl. lia.
  - rewrite sum_cons. cbn [length]. lia.
Qed.

(** [round_div n d] is the integer nearest to [n / d], halves going up. *)
Lemma round_div_nearest (n d : Z) :
  0 < d -> 2 * d * round_div n d <= 2 * n + d < 2 * d * (round_div n d + 1).
Proof.
  intros Hd. unfold round_div.
  pose proof (Z.div_mod (2 * n + d) (2 * d) ltac:(lia)) as E.
  pose proof (Z.mod_pos_bound (2 * n + d) (2 * d) ltac:(lia)) as B.
  lia.
Qed.

Lemma round_div_bounds (lo hi n d : Z) :
  0 < d -> d * lo <= n <= d * hi -> lo <= round_div n d <= hi.
Proof.
  intros Hd Hn. pose proof (round_div_nearest n d Hd) as R. nia.
Qed.

Lemma insert_asc_perm (x : Z) (l : list Z) : Permutation (x :: l) (insert_asc x l).
Proof.
  induction l as [|y l IH]; simpl; [reflexivity |].
  destruct (x <=? y); [reflexivity |].
  rewrite perm_swap. now constructor.
Qed.

(** The sort rearranges the samples ... *)
Lemma sort_asc_perm (l : list Z) : Permutation l (sort_asc l).
Proof.
  induction l as [|x l IH]; simpl; [constructor |].
  rewrite <- insert_asc_perm. now constructor.
Qed.

Lemma insert_asc_sorted (x : Z) (l : list Z) :
  Sorted Z.le l -> Sorted Z.le (insert_asc x l).
Proof.
  induction 1 as [|y l Hs IH Hhd]; simpl.
  - repeat constructor.
  - destruct (x <=? y) eqn:E.
    + apply Z.leb_le in E. repeat constructor; assumption.
    + apply Z.leb_gt in E. constructor; [exact IH |].
      destruct l as [|z l]; simpl.
      * constructor. lia.
      * inversion Hhd; subst. destruct (x <=? z); constructor; lia.
Qed.

(** ... into ascending order. *)
Lemma sort_asc_sorted (l : list Z) : Sorted Z.le (sort_asc l).
Proof.
  induction l as [|x l IH]; simpl; [constructor | now apply insert_asc_sorted].
Qed.

Lemma sort_asc_length (l : list Z) : length (sort_asc l) = length l.
Proof. symmetry. apply Permutation_length, sort_asc_perm. Qed.

Lemma div2_lt (n : nat) : (0 < n)%nat -> (Nat.div2 n < n)%nat.
Proof. intros H. apply Nat.lt_div2. exact H. Qed.

Lemma div2_pred_le (n : nat) : (Nat.div2 (n - 1) <= Nat.div2 n)%nat.
Proof.
  rewrite !Nat.div2_div.
  apply Nat.Div0.div_le_mono. lia.
Qed.

End Statistics.

Lemma nth_error_in_range {A} (l : list A) (i : nat) :
  (i < length l)%nat -> exists x, nth_error l i = Some x.
Proof.
  intros H. destruct (nth_error l i) eqn:E; [eauto |].
  apply nth_error_None in E. lia.
Qed.


(** ** Binary64 rounding where it is exact *)

Section Binary64.

Lemma div_even_ge (x d a : Z) : 0 < d -> a * d <= x -> a <= div_even x d.
Proof.
  intros Hd H. unfold div_even.
  pose proof (Z.div_mod x d ltac:(lia)) as E.
  pose proof (Z.mod_pos_bound x d Hd) as B.
  assert (a <= x / d) by nia.
  destruct (2 * (x mod d) ?= d); [destruct (Z.even (x / d)) |..]; lia.
Qed.

Lemma div_even_le (x d b : Z) : 0 < d -> x <= b * d -> div_even x d <= b.
Proof.
  intros Hd H. unfold div_even.
  pose proof (Z.div_mod x d ltac:(lia)) as E.
  pose proof (Z.mod_pos_bound x d Hd) as B.
  destruct (Z.compare_spec (2 * (x mod d)) d) as [C | C | C];
    [destruct (Z.even (x / d)) |..]; nia.
Qed.

Lemma div_even_lt (x d b : Z) :
  0 < d -> 2 * x < (2 * b - 1) * d -> div_even x d < b.
Proof.
  intros Hd H. unfold div_even.
  pose proof (Z.div_mod x d ltac:(lia)) as E.
  pose proof (Z.mod_pos_bound x d Hd) as B.
  destruct (Z.compare_spec (2 * (x mod d)) d) as [C | C | C];
    [destruct (Z.even (x / d)) |..]; nia.
Qed.

Lemma div_even_exact (x : Z) : div_even x 1 = x.
Proof.
  unfold div_even. rewrite Z.mod_1_r, Z.div_1_r. reflexivity.
Qed.

Lemma pow2_pos (k : Z) : 0 < 2 ^ k \/ k < 0.
Proof. destruct (Z_lt_le_dec k 0); [now right | left; now apply Z.pow_pos_nonneg]. Qed.

(** [floor_log2] from above: a quotient below [2 ^ b] has a logarithm below
    [b]. *)
Lemma floor_log2_lt (n d b : Z) :
  0 < n -> 0 < d -> 0 <= b -> n < 2 ^ b * d -> floor_log2 n d < b.
Proof.
  intros Hn Hd Hb H. unfold floor_log2.
  set (l := Z.log2 n - Z.log2 d).
  assert (Hl : l <= b).
  { pose proof (Z.log2_nonneg d) as Hd0.
    destruct (Z.log2_spec d Hd) as [_ Hd2].
    assert (Hlt : n < 2 ^ (b + Z.succ (Z.log2 d))).
    { rewrite Z.pow_add_r by lia.
      pose proof (Z.pow_pos_nonneg 2 b ltac:(lia) Hb). nia. }
    apply Z.log2_lt_pow2 in Hlt; [unfold l; lia | exact Hn]. }
  destruct (n * 2 ^ Z.max 0 (- l) <? d * 2 ^ Z.max 0 l) eqn:E; [lia |].
  apply Z.ltb_ge in E. destruct (Z.eq_dec l b) as [Hlb | Hne]; [rewrite Hlb in * | lia].
  rewrite (Z.max_l 0 (- b)), (Z.max_r 0 b), Z.pow_0_r in E by lia. lia.
Qed.

(** [floor_log2] from below. *)
Lemma floor_log2_ge (n d : Z) :
  0 < n -> 0 < d ->
  d * 2 ^ Z.max 0 (floor_log2 n d) <= n * 2 ^ Z.max 0 (- floor_log2 n d).
Proof.
  intros Hn Hd. unfold floor_log2.
  set (a := Z.log2 n). set (b := Z.log2 d). set (l := a - b).
  destruct (n * 2 ^ Z.max 0 (- l) <? d * 2 ^ Z.max 0 l) eqn:E;
    [| now apply Z.ltb_ge in E].
  pose proof (Z.log2_nonneg n) as Ha. pose proof (Z.log2_nonneg d) as Hb.
  fold a in Ha. fold b in Hb.
  destruct (Z.log2_spec n Hn) as [Hn1 _]. destruct (Z.log2_spec d Hd) as [_ Hd2].
  fold a in Hn1. fold b in Hd2. rewrite Z.pow_succ_r in Hd2 by exact Hb.
  (* d < 2 * 2^b and 2^a <= n, so d * 2^(l-1) < n when l >= 1, and
     d < n * 2^(1 - l) otherwise *)
  destruct (Z_lt_le_dec (l - 1) 0) as [Hneg | Hpos].
  - rewrite (Z.max_l 0 (l - 1)), Z.pow_0_r by lia.
    rewrite (Z.max_r 0 (- (l - 1))) by lia.
    replace (- (l - 1)) with (b + 1 - a) by (unfold l; lia).
    assert (E2 : 2 ^ (b + 1) = 2 ^ a * 2 ^ (b + 1 - a))
      by (rewrite <- Z.pow_add_r by lia; f_equal; lia).
    rewrite Z.pow_add_r, Z.pow_1_r in E2 by lia.
    pose proof (Z.pow_pos_nonneg 2 (b + 1 - a) ltac:(lia) ltac:(lia)). nia.
  - rewrite (Z.max_r 0 (l - 1)) by lia.
    rewrite (Z.max_l 0 (- (l - 1))), Z.pow_0_r by lia.
    assert (E2 : 2 ^ a = 2 ^ (b + 1) * 2 ^ (l - 1))
      by (rewrite <- Z.pow_add_r by lia; f_equal; unfold l; lia).
    rewrite Z.pow_add_r, Z.pow_1_r in E2 by lia.
    pose proof (Z.pow_pos_nonneg 2 (l - 1) ltac:(lia) ltac:(lia)). nia.
Qed.

Lemma Qred_integer (z : Z) : Qred (inject_Z z) = inject_Z z.
Proof.
  pose proof (Qred_correct (inject_Z z)) as E.
  pose proof (gcd_Qred (inject_Z z)) as G.
  destruct (Qred (inject_Z z)) as [a b]. unfold Qeq, inject_Z in *. simpl in *.
  rewrite Z.mul_1_r in E. subst a.
  rewrite (Z.mul_comm z), Z.gcd_comm, Z.gcd_mul_diag_l in G by lia.
  injection G as ->. now rewrite Z.mul_1_r.
Qed.

Lemma Qred_scaled (z c : Z) : 0 < c -> Qred (z * c # Z.to_pos c) = inject_Z z.
Proof.
  intros Hc. rewrite <- Qred_integer. apply Qred_complete.
  unfold Qeq, inject_Z. simpl. rewrite Z2Pos.id by exact Hc. lia.
Qed.

(** An integer below 2^53 in absolute value is a binary64 number. *)
Lemma rn_integer_exact (q : Q) :
  Qden q = 1%positive -> Z.abs (Qnum q) < 2 ^ 53 ->
  rn q = Fin (inject_Z (Qnum q)).
Proof.
  destruct q as [z d]. simpl. intros -> Hz.
  change (z # 1) with (inject_Z z). unfold rn. rewrite Qred_integer.
  cbn [Qnum Qden inject_Z].
  destruct (z =? 0) eqn:E0; [apply Z.eqb_eq in E0; now subst |].
  apply Z.eqb_neq in E0. cbv zeta.
  assert (Hfl : floor_log2 (Z.abs z) 1 < 53)
    by (apply floor_log2_lt; lia).
  set (e := Z.max (-1074) (floor_log2 (Z.abs z) 1 - 52)).
  assert (He : -1074 <= e <= 0) by (unfold e; lia).
  rewrite (Z.max_l 0 e), Z.pow_0_r, (Z.max_r 0 (- e)) by lia.
  rewrite !Z.mul_1_r, div_even_exact.
  pose proof (Z.pow_pos_nonneg 2 (- e) ltac:(lia) ltac:(lia)) as Hp.
  destruct (2 ^ 1024 * 2 ^ (- e) <=? Z.abs (z * 2 ^ (- e))) eqn:Eo.
  - apply Z.leb_le in Eo. rewrite Z.abs_mul, (Z.abs_eq (2 ^ (- e))) in Eo by lia.
    assert (2 ^ 53 < 2 ^ 1024) by (apply Z.pow_lt_mono_r; lia). nia.
  - now rewrite Qred_scaled.
Qed.

Lemma to_jsval_integer (z : Z) : to_jsval (Fin (inject_Z z)) = VNum z.
Proof. unfold to_jsval. now rewrite Qred_integer. Qed.

(** The accumulation of [avgValue] is exact while the running sum stays
    below 2^53 in absolute value. *)
Lemma accumulate_exact (arr : list Z) (a : Z) :
  Z.abs a + magnitude arr < 2 ^ 53 ->
  fold_left (fun sum x => add64 sum (Fin x)) (map inject_Z arr) (Fin (inject_Z a))
  = Fin (inject_Z (a + sum arr)).
Proof.
  revert a. induction arr as [|x arr IH]; intros a H.
  - unfold sum. simpl. now rewrite Z.add_0_r.
  - unfold magnitude in *. cbn [map] in *. rewrite sum_cons in *.
    assert (Hm : 0 <= sum (map Z.abs arr)).
    { clear. induction arr as [|y l IHl]; [unfold sum; simpl; lia |].
      cbn [map]. rewrite sum_cons. lia. }
    cbn [fold_left add64].
    rewrite rn_integer_exact; cbn [Qplus Qnum Qden inject_Z];
      [| reflexivity | rewrite !Z.mul_1_r; lia].
    rewrite !Z.mul_1_r. rewrite IH by lia. f_equal. f_equal. lia.
Qed.

Lemma magnitude_nonneg (arr : list Z) : 0 <= magnitude arr.
Proof.
  unfold magnitude. induction arr as [|y l IHl]; [unfold sum; simpl; lia |].
  cbn [map]. rewrite sum_cons. lia.
Qed.

Lemma sum_le_magnitude (arr : list Z) : Z.abs (sum arr) <= magnitude arr.
Proof.
  unfold magnitude. induction arr as [|y l IHl]; [unfold sum; simpl; lia |].
  cbn [map]. rewrite !sum_cons. lia.
Qed.

Lemma round_div_unique (n d k : Z) :
  0 < d -> 2 * d * k <= 2 * n + d < 2 * d * (k + 1) -> round_div n d = k.
Proof.
  intros Hd H. pose proof (round_div_nearest n d Hd) as R. nia.
Qed.

Lemma round_div_same (a d a' d' : Z) :
  0 < d -> 0 < d' -> a * d' = a' * d -> round_div a d = round_div a' d'.
Proof.
  intros Hd Hd' E. apply round_div_unique; [exact Hd |].
  pose proof (round_div_nearest a' d' Hd') as R. nia.
Qed.

(** What [Qred] divides by. *)
Lemma Qred_divisors (q : Q) :
  exists g, 0 < g /\ Qnum q = g * Qnum (Qred q) /\
            Zpos (Qden q) = g * Zpos (Qden (Qred q)).
Proof.
  destruct q as [a b]. unfold Qred.
  pose proof (Z.ggcd_correct_divisors a (Zpos b)) as H.
  pose proof (Z.ggcd_gcd a (Zpos b)) as G.
  destruct (Z.ggcd a (Zpos b)) as [g [aa bb]]. simpl in *. destruct H as [Ha Hb].
  assert (Hg : 0 <= g) by (subst g; apply Z.gcd_nonneg).
  assert (Hbb : 0 < bb) by nia.
  exists g. split; [nia |]. split; [exact Ha |].
  rewrite Z2Pos.id by exact Hbb. exact Hb.
Qed.

(** Rounding a quotient of integers to binary64 and then to the nearest
    integer gives the nearest integer of the quotient, as long as the
    numerator is below 2^52 in absolute value: the binary64 grid is then
    finer than the distance of the quotient from the next half. *)
Lemma nearest_survives (N D : Z) :
  0 < D -> N <> 0 -> Z.abs N < 2 ^ 52 ->
  let e := Z.max (-1074) (floor_log2 (Z.abs N) D - 52) in
  let m := div_even (N * 2 ^ (- e)) D in
  e < 0 /\ Z.abs m < 2 ^ 1024 * 2 ^ (- e) /\
  round_div m (2 ^ (- e)) = round_div N D.
Proof.
  intros HD HN Hb e m.
  assert (Hfl : floor_log2 (Z.abs N) D < 52)
    by (apply floor_log2_lt; nia).
  assert (He : -1074 <= e < 0) by (unfold e; lia).
  split; [lia |].
  pose proof (round_div_nearest N D HD) as R.
  set (K := round_div N D) in *.
  set (k := - e) in *.
  assert (Hk : 1 <= k <= 1074) by (unfold k; lia).
  assert (EP : 2 ^ k = 2 * 2 ^ (k - 1)).
  { rewrite <- (Z.pow_succ_r 2 (k - 1)) by lia. f_equal. lia. }
  pose proof (Z.pow_pos_nonneg 2 (k - 1) ltac:(lia) ltac:(lia)) as HH.
  set (H := 2 ^ (k - 1)) in *. set (P := 2 ^ k) in *.
  assert (Hbig : 2 ^ 54 < 2 ^ 1024) by (apply Z.pow_lt_mono_r; lia).
  (* the grid is finer than 1/D *)
  assert (HDP : D < P \/ (k = 1074 /\ P <= D)).
  { destruct (Z_lt_le_dec D P) as [Hlt | Hge]; [now left | right].
    split; [| exact Hge].
    destruct (Z.eq_dec k 1074) as [Ek | Nk]; [exact Ek | exfalso].
    assert (Ee : e = floor_log2 (Z.abs N) D - 52) by (unfold e, k in *; lia).
    pose proof (floor_log2_ge (Z.abs N) D ltac:(lia) HD) as G.
    set (fl := floor_log2 (Z.abs N) D) in *.
    assert (Ek : k = 52 - fl) by (unfold k; lia).
    destruct (Z_lt_le_dec fl 0) as [Hneg | Hpos].
    - rewrite (Z.max_l 0 fl), Z.pow_0_r, (Z.max_r 0 (- fl)) in G by lia.
      assert (E2 : P = 2 ^ 52 * 2 ^ (- fl))
        by (unfold P; rewrite <- Z.pow_add_r by lia; f_equal; lia).
      pose proof (Z.pow_pos_nonneg 2 (- fl) ltac:(lia) ltac:(lia)). nia.
    - rewrite (Z.max_r 0 fl), (Z.max_l 0 (- fl)), Z.pow_0_r in G by lia.
      assert (E2 : 2 ^ 52 = 2 ^ fl * P)
        by (unfold P; rewrite <- Z.pow_add_r by lia; f_equal; lia).
      pose proof (Z.pow_pos_nonneg 2 fl ltac:(lia) Hpos). nia. }
  assert (Hlo : (2 * K - 1) * H <= m)
    by (apply div_even_ge; [exact HD | nia]).
  assert (Hhi : m < (2 * K + 1) * H).
  { apply div_even_lt; [exact HD |].
    destruct HDP as [Hlt | [Ek Hge]]; [nia |].
    assert (HP : 2 ^ 54 < P)
      by (unfold P; rewrite Ek; apply Z.pow_lt_mono_r; lia).
    assert (EK : K = 0) by (unfold K; apply round_div_unique; lia).
    rewrite EK. nia. }
  split.
  - assert (HK : Z.abs K <= 2 ^ 52) by nia. nia.
  - apply round_div_unique; [unfold P; lia | nia].
Qed.

(** [Math.round(s / n)] on integers below 2^52. *)
Lemma round_quotient (s n : Z) :
  0 < n -> Z.abs s < 2 ^ 52 ->
  to_jsval (math_round (div64 (Fin (inject_Z s)) (Fin (inject_Z n))))
  = VNum (round_div s n).
Proof.
  intros Hn Hs. unfold div64.
  destruct (Qeq_bool (inject_Z n) 0) eqn:E0.
  { apply Qeq_bool_eq in E0. unfold Qeq, inject_Z in E0. simpl in E0. lia. }
  clear E0. set (q := (inject_Z s / inject_Z n)%Q).
  assert (Eq : (q == s # Z.to_pos n)%Q).
  { unfold q, Qdiv, Qmult, Qinv, inject_Z, Qeq.
    destruct n as [|p|p]; [lia | simpl; lia | lia]. }
  destruct (Qred_divisors (s # Z.to_pos n)) as (g & Hg & En & Ed).
  rewrite <- (Qred_complete _ _ Eq) in En, Ed.
  cbn [Qnum Qden] in En, Ed. rewrite Z2Pos.id in Ed by exact Hn.
  unfold rn. set (N := Qnum (Qred q)) in *. set (D := Zpos (Qden (Qred q))) in *.
  assert (HD : 0 < D) by (unfold D; lia).
  assert (Esame : round_div N D = round_div s n)
    by (apply round_div_same; [exact HD | exact Hn | nia]).
  destruct (N =? 0) eqn:E0.
  - apply Z.eqb_eq in E0. rewrite <- Esame, E0.
    unfold math_round. change (Qred 0) with 0%Q. cbn [Qnum Qden].
    rewrite to_jsval_integer. f_equal.
    unfold round_div. rewrite Z.div_small by lia.
    symmetry. apply Z.div_small. lia.
  - apply Z.eqb_neq in E0. cbv zeta.
    assert (HN : Z.abs N < 2 ^ 52) by nia.
    destruct (nearest_survives N D HD E0 HN) as (He & Hm & Hr).
    set (e := Z.max (-1074) (floor_log2 (Z.abs N) D - 52)) in *.
    rewrite (Z.max_l 0 e), Z.pow_0_r, (Z.max_r 0 (- e)), !Z.mul_1_r by lia.
    set (m := div_even (N * 2 ^ (- e)) D) in *.
    pose proof (Z.pow_pos_nonneg 2 (- e) ltac:(lia) ltac:(lia)) as HP.
    destruct (2 ^ 1024 * 2 ^ (- e) <=? Z.abs m) eqn:Eo;
      [apply Z.leb_le in Eo; lia |].
    unfold math_round.
    rewrite (Qred_complete _ _ (Qred_correct (m # Z.to_pos (2 ^ (- e))))).
    rewrite to_jsval_integer. f_equal. rewrite <- Esame, <- Hr.
    pose proof (Qred_correct (m # Z.to_pos (2 ^ (- e)))) as C.
    unfold Qeq in C. cbn [Qnum Qden] in C. rewrite Z2Pos.id in C by exact HP.
    apply round_div_same; [lia | exact HP | exact C].
Qed.

(** [avgValue] on integers whose absolute values sum to less than 2^52 is
    the nearest integer of the exact mean. *)
Lemma avgValue_exact (arr : list Z) :
  arr <> [] -> magnitude arr < 2 ^ 52 ->
  avgValue (map inject_Z arr) = VNum (round_div (sum arr) (Z.of_nat (length arr))).
Proof.
  intros Hne Hm. unfold avgValue.
  change (Fin 0) with (Fin (inject_Z 0)).
  rewrite accumulate_exact by (simpl; lia). rewrite length_map, Z.add_0_l.
  apply round_quotient.
  - destruct arr; [congruence | simpl; lia].
  - pose proof (sum_le_magnitude arr). lia.
Qed.

(** While the absolute values sum to less than 2^53, [avgValue] depends on
    the sum and the number of the samples only. *)
Lemma avgValue_of_sum (arr : list Z) :
  magnitude arr < 2 ^ 53 ->
  avgValue (map inject_Z arr) =
  to_jsval (math_round (div64 (Fin (inject_Z (sum arr)))
                          (Fin (inject_Z (Z.of_nat (length arr)))))).
Proof.
  intros Hm. unfold avgValue.
  change (Fin 0) with (Fin (inject_Z 0)).
  rewrite accumulate_exact by (simpl; lia). now rewrite length_map, Z.add_0_l.
Qed.

Lemma floor_log2_one (n : Z) : 0 < n -> floor_log2 n 1 = Z.log2 n.
Proof.
  intros Hn. unfold floor_log2. change (Z.log2 1) with 0. rewrite Z.sub_0_r.
  pose proof (Z.log2_nonneg n) as Hl.
  destruct (Z.log2_spec n Hn) as [Hlo _].
  rewrite (Z.max_l 0 (- Z.log2 n)), (Z.max_r 0 (Z.log2 n)) by lia.
  rewrite Z.pow_0_r, Z.mul_1_r, Z.mul_1_l.
  destruct (n <? 2 ^ Z.log2 n) eqn:E; [apply Z.ltb_lt in E; lia | reflexivity].
Qed.

(** From 2^53 on, an integer rounds to an integer that is no smaller than
    2^53, or overflows. *)
Lemma rn_large (z : Z) :
  2 ^ 53 <= Z.abs z ->
  (exists b, rn (inject_Z z) = Inf b) \/
  (exists n, rn (inject_Z z) = Fin (inject_Z n) /\ 2 ^ 53 <= Z.abs n).
Proof.
  intros Hz. unfold rn. rewrite Qred_integer. cbn [Qnum Qden inject_Z].
  destruct (z =? 0) eqn:E0; [apply Z.eqb_eq in E0; subst; simpl in Hz; lia |].
  cbv zeta. rewrite floor_log2_one by lia.
  assert (Hl : 53 <= Z.log2 (Z.abs z)) by (apply Z.log2_le_pow2; lia).
  destruct (Z.log2_spec (Z.abs z) ltac:(lia)) as [Hlo _].
  set (l := Z.log2 (Z.abs z)) in *.
  rewrite (Z.max_r (-1074) (l - 52)) by lia.
  rewrite (Z.max_r 0 (l - 52)), (Z.max_l 0 (- (l - 52))) by lia.
  rewrite Z.pow_0_r, !Z.mul_1_r, Z.mul_1_l.
  set (up := 2 ^ (l - 52)).
  assert (Hup : 0 < up) by (apply Z.pow_pos_nonneg; lia).
  assert (Hsplit : 2 ^ l = 2 ^ 52 * up)
    by (unfold up; rewrite <- Z.pow_add_r by lia; f_equal; lia).
  assert (H1 : 2 <= up).
  { unfold up. change 2 with (2 ^ 1) at 1. apply Z.pow_le_mono_r; lia. }
  set (m := div_even z up).
  destruct (2 ^ 1024 <=? Z.abs m * up); [left; eexists; reflexivity | right].
  exists (m * up). split.
  - f_equal. change (Z.to_pos 1) with 1%positive.
    change (m * up # 1) with (inject_Z (m * up)). apply Qred_integer.
  - assert (Hm : 2 ^ 52 <= Z.abs m).
    { destruct (Z_lt_le_dec z 0) as [Hneg | Hpos].
      - assert (m <= - 2 ^ 52) by (apply div_even_le; lia). lia.
      - assert (2 ^ 52 <= m) by (apply div_even_ge; lia). lia. }
    rewrite Z.abs_mul, (Z.abs_eq up) by lia.
    change (2 ^ 53) with (2 ^ 52 * 2). nia.
Qed.

End Binary64.

(** C9 (as amended): for a non-empty list of integer samples whose absolute
    values sum to less than 2^52, [avgValue] is the arithmetic mean rounded
    to the nearest integer, [medValue] is the standard median of the
    ascending sort (the middle element for an odd length, the mean of the two
    middle elements for an even one), and both lie between the least sample
    ([minValue]) and the greatest one ([maxValue]). *)
Theorem statistics_between_min_and_max (arr : list Z) :
  arr <> [] -> magnitude arr < 2 ^ 52 ->
  exists mn mx avg med sorted,
    minValue arr = Some mn /\ maxValue arr = Some mx /\
    avgValue (map inject_Z arr) = VNum avg /\ medValue arr = VQ med /\
    (In mn arr /\ Forall (fun x => mn <= x) arr) /\
    (In mx arr /\ Forall (fun x => x <= mx) arr) /\
    mn <= avg <= mx /\
    (inject_Z mn <= med <= inject_Z mx)%Q /\
    (2 * Z.of_nat (length arr) * avg <= 2 * sum arr + Z.of_nat (length arr)
       < 2 * Z.of_nat (length arr) * (avg + 1)) /\
    Permutation arr sorted /\ Sorted Z.le sorted /\
    (Nat.Odd (length arr) ->
       exists m, nth_error sorted (length arr / 2)%nat = Some m /\
                 (med == inject_Z m)%Q) /\
    (Nat.Even (length arr) ->
       exists a b, nth_error sorted (length arr / 2 - 1)%nat = Some a /\
                   nth_error sorted (length arr / 2)%nat = Some b /\
                   (med == (inject_Z a + inject_Z b) / 2)%Q).
Proof.
  intros Hne Hsafe.
  destruct (minValue_least arr Hne) as (mn & Emn & Hmn_in & Hmn).
  destruct (maxValue_greatest arr Hne) as (mx & Emx & Hmx_in & Hmx).
  assert (Hn : (0 < length arr)%nat) by (destruct arr; [congruence | simpl; lia]).
  assert (Hboth : Forall (fun x => mn <= x <= mx) arr).
  { apply List.Forall_forall. intros x Hx. split;
      [apply (proj1 (List.Forall_forall _ _) Hmn) | apply (proj1 (List.Forall_forall _ _) Hmx)];
      exact Hx. }
  pose proof (sum_bounds mn mx arr Hboth) as Hsum.
  set (n := length arr) in *.
  pose proof (sort_asc_perm arr) as Hperm.
  pose proof (sort_asc_length arr) as Hlen. fold n in Hlen.
  destruct (nth_error_in_range (sort_asc arr) (Nat.div2 (n - 1))) as [a Ea].
  { rewrite Hlen. pose proof (div2_pred_le n). pose proof (div2_lt n Hn). lia. }
  destruct (nth_error_in_range (sort_asc arr) (Nat.div2 n)) as [b Eb].
  { rewrite Hlen. apply div2_lt, Hn. }
  assert (Hab : forall i x, nth_error (sort_asc arr) i = Some x -> mn <= x <= mx).
  { intros i x Hx. apply nth_error_In in Hx.
    apply (Permutation_in _ (Permutation_sym Hperm)) in Hx.
    apply (proj1 (List.Forall_forall _ _) Hboth), Hx. }
  pose proof (Hab _ _ Ea) as Ha. pose proof (Hab _ _ Eb) as Hb.
  exists mn, mx, (round_div (sum arr) (Z.of_nat n)), ((a + b) # 2)%Q, (sort_asc arr).
  split; [exact Emn |]. split; [exact Emx |].
  split. { now apply avgValue_exact. }
  split. { unfold medValue. cbv zeta. rewrite Hlen. fold n. rewrite Ea, Eb. reflexivity. }
  split; [split; assumption |]. split; [split; assumption |].
  split. { apply round_div_bounds; lia. }
  split. { unfold Qle. simpl. lia. }
  split. { apply round_div_nearest. lia. }
  split; [exact Hperm |]. split; [apply sort_asc_sorted |].
  rewrite !Nat.div2_div in *.
  split.
  - intros [k Hk]. exists b. split; [exact Eb |].
    assert (E : ((n - 1) / 2 = n / 2)%nat).
    { rewrite Hk. replace (2 * k + 1 - 1)%nat with (k * 2)%nat by lia.
      rewrite Nat.div_mul by lia.
      replace (2 * k + 1)%nat with (1 + k * 2)%nat by lia.
      rewrite Nat.div_add by lia. reflexivity. }
    rewrite E in Ea. assert (a = b) by congruence. subst a.
    unfold Qeq. simpl. lia.
  - intros [k Hk]. exists a, b.
    assert (E : ((n - 1) / 2 = n / 2 - 1)%nat).
    { rewrite Hk. replace (2 * k)%nat with (k * 2)%nat by lia.
      rewrite Nat.div_mul by lia.
      destruct k as [|k]; [lia |].
      replace (S k * 2 - 1)%nat with (1 + k * 2)%nat by lia.
      rewrite Nat.div_add by lia. simpl. lia. }
    rewrite E in Ea. split; [exact Ea |]. split; [exact Eb |].
    unfold Qeq, Qdiv, Qmult, Qplus, Qinv. simpl. lia.
Qed.

(** The least, greatest, mean and median of the samples 3, 9, 2, 4. *)
Lemma statistics_between_min_and_max_witness :
  [3; 9; 2; 4] <> [] /\ magnitude [3; 9; 2; 4] < 2 ^ 52 /\
  exists mn mx avg med,
    minValue [3; 9; 2; 4] = Some mn /\ maxValue [3; 9; 2; 4] = Some mx /\
    avgValue (map inject_Z [3; 9; 2; 4]) = VNum avg /\
    medValue [3; 9; 2; 4] = VQ med /\
    mn <= avg <= mx /\ (inject_Z mn <= med <= inject_Z mx)%Q.
Proof.
  split; [discriminate |]. split; [vm_compute; reflexivity |].
  destruct (statistics_between_min_and_max [3; 9; 2; 4] ltac:(discriminate)
              ltac:(vm_compute; reflexivity))
    as (mn & mx & avg & med & sorted & H1 & H2 & H3 & H4 & _ & _ & H5 & H6 & _).
  exists mn, mx, avg, med. repeat split; try assumption; tauto.
Defined.

(** C9 (as stated) fails.  Three samples of 9007199254740990: the running
    sum leaves the integers that binary64 holds, and the mean comes out
    below the least sample.  The samples 2^51, 2^51 and 2^51 + 1, with a sum
    between 2^52 and 2^53: the quotient is rounded to the half above it, and
    [avgValue] is not the nearest integer of the mean.  Two samples of 1.5:
    the mean is rounded to the integer 2, above both. *)
Lemma statistics_counterexample :
  (minValue [9007199254740990; 9007199254740990; 9007199254740990]
     = Some 9007199254740990 /\
   avgValue (map inject_Z [9007199254740990; 9007199254740990; 9007199254740990])
     = VNum 9007199254740989) /\
  (avgValue (map inject_Z [2251799813685248; 2251799813685248; 2251799813685249])
     = VNum 2251799813685249 /\
   round_div (sum [2251799813685248; 2251799813685248; 2251799813685249]) 3
     = 2251799813685248) /\
  (avgValue [3 # 2; 3 # 2]%Q = VNum 2 /\
   Forall (fun x => x < 2)%Q [3 # 2; 3 # 2]%Q).
Proof.
  split; [split; vm_compute; reflexivity |].
  split; [split; vm_compute; reflexivity |].
  split; [vm_compute; reflexivity |].
  repeat constructor.
Qed.

(** ** The vote *)

Section Vote.

Lemma tally_of_add (x v : Z) (ts : list vote) :
  tally_of (tally_add x ts) v =
  if v =? x then S (tally_of ts v) else tally_of ts v.
Proof.
  unfold tally_of. induction ts as [|t ts IH]; simpl.
  - rewrite (Z.eqb_sym x v). destruct (v =? x); reflexivity.
  - destruct (value t =? x) eqn:Ex; simpl.
    + apply Z.eqb_eq in Ex. rewrite Ex, (Z.eqb_sym x v).
      destruct (v =? x); reflexivity.
    + destruct (value t =? v) eqn:Ev; [| exact IH].
      apply Z.eqb_eq in Ev. apply Z.eqb_neq in Ex.
      destruct (v =? x) eqn:E; [apply Z.eqb_eq in E; congruence | reflexivity].
Qed.

(** [tallies[v].tally] is the number of occurrences of [v]. *)
Lemma tally_of_all (arr : list Z) (v : Z) :
  tally_of (tally_all arr) v = count_occ Z.eq_dec arr v.
Proof.
  unfold tally_all.
  assert (G : forall ts,
            tally_of (fold_left (fun tallies val => tally_add val tallies) arr ts) v
            = (tally_of ts v + count_occ Z.eq_dec arr v)%nat).
  { induction arr as [|x arr IH]; intros ts; simpl; [lia |].
    rewrite IH, tally_of_add.
    destruct (Z.eq_dec x v) as [-> | Hne].
    - rewrite Z.eqb_refl. lia.
    - destruct (v =? x) eqn:E; [apply Z.eqb_eq in E; congruence | lia]. }
  rewrite G. reflexivity.
Qed.

Lemma values_add (x : Z) (ts : list vote) :
  (In x (map value ts) /\ map value (tally_add x ts) = map value ts) \/
  (~ In x (map value ts) /\ map value (tally_add x ts) = map value ts ++ [x]).
Proof.
  induction ts as [|t ts IH]; simpl.
  - right. split; [tauto | reflexivity].
  - destruct (value t =? x) eqn:E; simpl.
    + apply Z.eqb_eq in E. left. split; [now left | now rewrite E].
    + apply Z.eqb_neq in E. destruct IH as [[Hin IH] | [Hn IH]].
      * left. split; [now right | now rewrite IH].
      * right. split; [intros [H | H]; [congruence | tauto] | now rewrite IH].
Qed.

(** The entries of [tallies] are the distinct samples. *)
Lemma values_all (arr : list Z) :
  List.NoDup (map value (tally_all arr)) /\
  forall v, In v (map value (tally_all arr)) <-> In v arr.
Proof.
  unfold tally_all.
  assert (G : forall ts, List.NoDup (map value ts) ->
            let ts' := fold_left (fun tallies val => tally_add val tallies) arr ts in
            List.NoDup (map value ts') /\
            forall v, In v (map value ts') <-> In v (map value ts) \/ In v arr).
  { induction arr as [|x arr IH]; intros ts Hts; simpl.
    - split; [exact Hts | intros v; tauto].
    - assert (Hadd : List.NoDup (map value (tally_add x ts)) /\
                     forall v, In v (map value (tally_add x ts)) <->
                               In v (map value ts) \/ x = v).
      { destruct (values_add x ts) as [[Hx E] | [Hn E]]; rewrite E.
        - split; [exact Hts |]. intros v. split; [tauto |].
          intros [H | <-]; [exact H | exact Hx].
        - split.
          + apply (Permutation_NoDup (Permutation_cons_append (map value ts) x)).
            now constructor.
          + intros v. rewrite in_app_iff. simpl. tauto. }
      destruct Hadd as [Hnd Hin]. destruct (IH _ Hnd) as [Hnd' Hin'].
      split; [exact Hnd' |]. intros v. rewrite Hin', Hin. tauto. }
  destruct (G [] (List.NoDup_nil _)) as [Hnd Hin].
  split; [exact Hnd |]. intros v. rewrite Hin. simpl. tauto.
Qed.

Lemma tally_of_entry (ts : list vote) (t : vote) :
  List.NoDup (map value ts) -> In t ts -> tally_of ts (value t) = tally t.
Proof.
  unfold tally_of. induction ts as [|u ts IH]; simpl; [tauto |].
  intros Hnd [-> | Hin].
  - now rewrite Z.eqb_refl.
  - inversion Hnd as [|? ? Hnotin Hnd']; subst.
    destruct (value u =? value t) eqn:E; [| now apply IH].
    apply Z.eqb_eq in E. exfalso. apply Hnotin. rewrite E. now apply in_map.
Qed.

Lemma insert_desc_perm (v : vote) (l : list vote) :
  Permutation (v :: l) (insert_desc v l).
Proof.
  induction l as [|w l IH]; simpl; [reflexivity |].
  destruct (value w <=? value v); [reflexivity |].
  rewrite perm_swap. now constructor.
Qed.

Lemma sort_desc_perm (l : list vote) : Permutation l (sort_desc l).
Proof.
  induction l as [|v l IH]; simpl; [constructor |].
  rewrite <- insert_desc_perm. now constructor.
Qed.

Lemma insert_desc_sorted (v : vote) (l : list vote) :
  StronglySorted above l -> StronglySorted above (insert_desc v l).
Proof.
  induction 1 as [|w l Hs IH Hall]; simpl.
  - repeat constructor.
  - destruct (value w <=? value v) eqn:E.
    + apply Z.leb_le in E. constructor; [now constructor |].
      constructor; [exact E |].
      apply (proj2 (List.Forall_forall _ _)). intros u Hu.
      apply (proj1 (List.Forall_forall _ _) Hall) in Hu. unfold above in *. lia.
    + apply Z.leb_gt in E. constructor; [exact IH |].
      apply (proj2 (List.Forall_forall _ _)). intros u Hu.
      apply (Permutation_in _ (Permutation_sym (insert_desc_perm v l))) in Hu.
      destruct Hu as [<- | Hu]; [unfold above; lia |].
      exact (proj1 (List.Forall_forall _ _) Hall u Hu).
Qed.

Lemma sort_desc_sorted (l : list vote) : StronglySorted above (sort_desc l).
Proof.
  induction l as [|v l IH]; simpl; [constructor | now apply insert_desc_sorted].
Qed.

(** What [voteValue] computes: the winner is the GREATEST sample, whatever
    the tallies, and the confidence is the share of the samples equal to it. *)
Lemma voteValue_takes_greatest (arr : list Z) :
  arr <> [] ->
  exists mx,
    maxValue arr = Some mx /\
    voteValue arr =
      Some {| vvalue := mx;
              confidence := Z.of_nat (count_occ Z.eq_dec arr mx)
                            # Pos.of_nat (length arr) |}.
Proof.
  intros Hne. destruct (maxValue_greatest arr Hne) as (mx & Emx & Hin & Hall).
  exists mx. split; [exact Emx |].
  destruct (values_all arr) as [Hnd Hvals].
  pose proof (sort_desc_perm (tally_all arr)) as Hperm.
  pose proof (sort_desc_sorted (tally_all arr)) as Hsorted.
  unfold voteValue. destruct arr as [|a arr']; [congruence |].
  set (arr := a :: arr') in *.
  destruct (sort_desc (tally_all arr)) as [|winner rest] eqn:Es.
  - exfalso. apply Permutation_sym, Permutation_nil in Hperm.
    assert (H : In mx (map value (tally_all arr))) by (now apply Hvals).
    rewrite Hperm in H. exact H.
  - assert (Hw : In winner (tally_all arr))
      by (apply (Permutation_in _ (Permutation_sym Hperm)); now left).
    assert (Hmax : value winner = mx).
    { apply Z.le_antisymm.
      - apply (proj1 (List.Forall_forall _ _) Hall), Hvals. now apply in_map.
      - apply Hvals, in_map_iff in Hin as (t & <- & Ht).
        apply (Permutation_in _ Hperm) in Ht. destruct Ht as [-> | Ht]; [lia |].
        inversion Hsorted as [|? ? _ Hrest]; subst.
        exact (proj1 (List.Forall_forall _ _) Hrest t Ht). }
    rewrite <- (tally_of_all arr mx), <- Hmax, (tally_of_entry _ _ Hnd Hw).
    reflexivity.
Qed.

End Vote.

(** C1 (the code departs from it): on [5, 5, 7] the value 5 has the highest
    tally, two votes of three, but [voteValue] returns the value 7 with
    confidence 1/3; on the tie [5, 5, 7, 7] it returns 7 with confidence
    2/4. *)
Theorem voteValue_ignores_tallies :
  tally_of (tally_all [5; 5; 7]) 5 = 2%nat /\
  tally_of (tally_all [5; 5; 7]) 7 = 1%nat /\
  voteValue [5; 5; 7] = Some {| vvalue := 7; confidence := 1 # 3 |} /\
  voteValue [5; 5; 7; 7] = Some {| vvalue := 7; confidence := 2 # 4 |}.
Proof. repeat split. Qed.

(** ** Decimal strings and [parseInt] *)

Section Digits.

Lemma append_cons (x : ascii) (a b : string) :
  String x a +:+ b = String x (a +:+ b).
Proof. reflexivity. Qed.

Lemma append_assoc (a b c : string) : (a +:+ b) +:+ c = a +:+ (b +:+ c).
Proof.
  induction a as [|x a IH]; [reflexivity |].
  rewrite !append_cons. f_equal. exact IH.
Qed.

Lemma append_empty_r (a : string) : a +:+ "" = a.
Proof.
  induction a as [|x a IH]; [reflexivity |].
  rewrite append_cons. f_equal. exact IH.
Qed.

Lemma length_append (a b : string) :
  String.length (a +:+ b) = (String.length a + String.length b)%nat.
Proof.
  induction a as [|x a IH]; [reflexivity |].
  rewrite append_cons. simpl. now rewrite IH.
Qed.

Lemma digits_go_acc (f : nat) (n : Z) (acc : string) :
  digits_go f n acc = digits_go f n "" +:+ acc.
Proof.
  revert n acc. induction f as [|f IH]; intros n acc; simpl; [reflexivity |].
  destruct (n <? 10); [reflexivity |].
  rewrite (IH _ (String _ acc)), (IH _ (String _ "")), append_assoc. reflexivity.
Qed.

(** Any sufficient amount of fuel gives the same digits. *)
Lemma digits_go_fuel (f g : nat) (n : Z) (acc : string) :
  0 <= n < 2 ^ Z.of_nat f -> 0 <= n < 2 ^ Z.of_nat g ->
  (0 < f)%nat -> (0 < g)%nat ->
  digits_go f n acc = digits_go g n acc.
Proof.
  revert g n acc. induction f as [|f IH]; intros g n acc Hf Hg Pf Pg; [lia |].
  destruct g as [|g]; [lia |]. simpl.
  destruct (n <? 10) eqn:E; [reflexivity |]. apply Z.ltb_ge in E.
  rewrite Nat2Z.inj_succ, Z.pow_succ_r in Hf, Hg by lia.
  assert (Hq : 1 <= n / 10) by (apply Z.div_le_lower_bound; lia).
  assert (Hqf : n / 10 < 2 ^ Z.of_nat f) by (apply Z.div_lt_upper_bound; lia).
  assert (Hqg : n / 10 < 2 ^ Z.of_nat g) by (apply Z.div_lt_upper_bound; lia).
  apply IH; try lia.
  - destruct f; [simpl in Hqf; lia | lia].
  - destruct g; [simpl in Hqg; lia | lia].
Qed.

Lemma digits_fuel_enough (n : Z) :
  0 <= n -> 0 <= n < 2 ^ Z.of_nat (S (Z.to_nat (Z.log2 n))).
Proof.
  intros Hn. rewrite Nat2Z.inj_succ, Z2Nat.id by apply Z.log2_nonneg.
  destruct (Z.eq_dec n 0) as [-> | Hnz]; [simpl; lia |].
  pose proof (Z.log2_spec n ltac:(lia)). lia.
Qed.

(** The recursion behind [digits], without fuel. *)
Lemma digits_unfold (n : Z) :
  0 <= n ->
  digits n =
    if n <? 10 then String (digit_char (n mod 10)) ""
    else digits (n / 10) +:+ String (digit_char (n mod 10)) "".
Proof.
  intros Hn. unfold digits at 1. simpl.
  destruct (n <? 10) eqn:E; [reflexivity |]. apply Z.ltb_ge in E.
  rewrite digits_go_acc. f_equal. unfold digits.
  assert (Hq : 1 <= n / 10) by (apply Z.div_le_lower_bound; lia).
  pose proof (digits_fuel_enough n Hn) as Hf.
  rewrite Nat2Z.inj_succ, Z.pow_succ_r in Hf by lia.
  assert (Hqf : n / 10 < 2 ^ Z.of_nat (Z.to_nat (Z.log2 n)))
    by (apply Z.div_lt_upper_bound; lia).
  apply digits_go_fuel.
  - lia.
  - apply digits_fuel_enough. lia.
  - destruct (Z.to_nat (Z.log2 n)); [simpl in Hqf; lia | lia].
  - lia.
Qed.

Lemma digits_small (r : Z) : 0 <= r < 10 -> digits r = String (digit_char r) "".
Proof.
  intros Hr. rewrite digits_unfold by lia.
  destruct (r <? 10) eqn:E; [| apply Z.ltb_ge in E; lia].
  now rewrite Z.mod_small by lia.
Qed.

Lemma digits_snoc (m r : Z) :
  0 < m -> 0 <= r < 10 ->
  digits (m * 10 + r) = digits m +:+ String (digit_char r) "".
Proof.
  intros Hm Hr. rewrite digits_unfold by lia.
  destruct (m * 10 + r <? 10) eqn:E; [apply Z.ltb_lt in E; lia |].
  rewrite Z.div_add_l, Z.div_small, Z.add_0_r by lia.
  rewrite Z.add_comm, Z.mod_add, Z.mod_small by lia. reflexivity.
Qed.

Lemma chars_snoc (ds : list Z) (r : Z) :
  chars (ds ++ [r]) = chars ds +:+ String (digit_char r) "".
Proof.
  induction ds as [|d ds IH]; simpl; [reflexivity |].
  rewrite append_cons. f_equal. exact IH.
Qed.

Lemma length_chars (ds : list Z) : String.length (chars ds) = length ds.
Proof. induction ds as [|d ds IH]; simpl; [reflexivity | now rewrite IH]. Qed.

Lemma digit_val_inv (c : ascii) (d : Z) :
  digit_val 10 c = Some d -> 0 <= d < 10 /\ c = digit_char d.
Proof.
  unfold digit_val, digit_char, code.
  pose proof (ascii_N_embedding c) as Emb.
  set (n := Z.of_N (N_of_ascii c)) in *.
  assert (Hn : Z.to_N n = N_of_ascii c) by (unfold n; apply N2Z.id).
  destruct ((48 <=? n) && (n <=? 57)) eqn:E1.
  - apply andb_prop in E1 as [H1 H2]. apply Z.leb_le in H1, H2.
    destruct (n - 48 <? 10) eqn:E; [| discriminate].
    intros [= <-]. split; [lia |].
    replace (48 + (n - 48)) with n by lia. now rewrite Hn, Emb.
  - destruct ((97 <=? n) && (n <=? 122)) eqn:E2.
    + apply andb_prop in E2 as [H1 H2]. apply Z.leb_le in H1, H2.
      destruct (n - 87 <? 10) eqn:E; [apply Z.ltb_lt in E; lia | discriminate].
    + destruct ((65 <=? n) && (n <=? 90)) eqn:E3; [| discriminate].
      apply andb_prop in E3 as [H1 H2]. apply Z.leb_le in H1, H2.
      destruct (n - 55 <? 10) eqn:E; [apply Z.ltb_lt in E; lia | discriminate].
Qed.

(** A string is the run of decimal digits [parseInt] reads, then a rest. *)
Lemma take_digits_split (s : string) :
  Forall is_digit (take_digits 10 s) /\
  exists rest, s = chars (take_digits 10 s) +:+ rest.
Proof.
  induction s as [|c s [IHd [rest IHr]]]; simpl.
  - split; [constructor | now exists ""].
  - destruct (digit_val 10 c) as [d|] eqn:E.
    + apply digit_val_inv in E as [Hd ->]. split; [now constructor |].
      exists rest. simpl. rewrite append_cons. now rewrite <- IHr.
    + split; [constructor | now exists (String c s)].
Qed.

Lemma horner_snoc (radix : Z) (ds : list Z) (d : Z) :
  horner radix (ds ++ [d]) = horner radix ds * radix + d.
Proof. unfold horner. now rewrite fold_left_app. Qed.

Lemma horner_zero_head (ds : list Z) : horner 10 (0 :: ds) = horner 10 ds.
Proof. reflexivity. Qed.

(** Without a leading zero, printing the value gives the digits back. *)
Lemma digits_canonical (d0 : Z) (tl : list Z) :
  1 <= d0 < 10 -> Forall is_digit tl ->
  0 < horner 10 (d0 :: tl) /\ digits (horner 10 (d0 :: tl)) = chars (d0 :: tl).
Proof.
  intros Hd0. induction tl as [|r tl IH] using rev_ind; intros Htl.
  - unfold horner. simpl. split; [lia | apply digits_small; lia].
  - apply Forall_app in Htl as [Htl Hr]. inversion Hr as [|? ? Hr' _]; subst.
    destruct (IH Htl) as [Hpos Hdig].
    rewrite app_comm_cons, horner_snoc. unfold is_digit in Hr'.
    split; [lia |].
    rewrite digits_snoc by lia. rewrite Hdig, <- chars_snoc. reflexivity.
Qed.

(** The printed value of a run of digits is never longer than the run, and
    is the run itself when it is as long. *)
Lemma digits_horner_length (ds : list Z) :
  ds <> [] -> Forall is_digit ds ->
  0 <= horner 10 ds /\
  (String.length (digits (horner 10 ds)) <= length ds)%nat /\
  (String.length (digits (horner 10 ds)) = length ds ->
   digits (horner 10 ds) = chars ds).
Proof.
  induction ds as [|d ds IH]; [congruence | intros _ Hall].
  inversion Hall as [|? ? Hd Hds]; subst. unfold is_digit in Hd.
  destruct (Z.eq_dec d 0) as [-> | Hnz].
  - rewrite horner_zero_head. destruct ds as [|d' ds'].
    + unfold horner. simpl. repeat split; try lia. 
    + destruct (IH ltac:(discriminate) Hds) as (Hpos & Hle & _).
      cbn [length] in *. repeat split; try lia.
  - destruct (digits_canonical d ds ltac:(lia) Hds) as [Hpos Hdig].
    rewrite Hdig, length_chars. repeat split; try lia.
Qed.

Lemma code_bound (c : ascii) : 0 <= code c < 256.
Proof.
  unfold code. pose proof (N_ascii_bounded c). lia.
Qed.

(** The first step of [js_length]. *)
Lemma js_length_cons (c : ascii) (r : string) :
  js_length (String c r) =
  if code c <? 192 then S (js_length r)
  else
    match r with
    | String c1 r1 =>
        if negb (continues c1) then S (js_length r)
        else if code c <? 224 then S (js_length r1)
        else
          match r1 with
          | String c2 r2 =>
              if negb (continues c2) then S (js_length r)
              else if code c <? 240 then S (js_length r2)
              else
                match r2 with
                | String c3 r3 =>
                    if continues c3 && (code c <? 248)
                    then S (S (js_length r3))
                    else S (js_length r)
                | EmptyString => S (js_length r)
                end
          | EmptyString => S (js_length r)
          end
    | EmptyString => 1%nat
    end.
Proof. reflexivity. Qed.

Lemma js_length_ascii (c : ascii) (r : string) :
  code c < 192 -> js_length (String c r) = S (js_length r).
Proof.
  intros H. rewrite js_length_cons.
  destruct (code c <? 192) eqn:E; [reflexivity | apply Z.ltb_ge in E; lia].
Qed.

(** Every character counts. *)
Lemma js_length_pos (s : string) : s <> "" -> (1 <= js_length s)%nat.
Proof.
  destruct s as [|c r]; [congruence | intros _]. rewrite js_length_cons.
  destruct r as [|c1 [|c2 [|c3 r3]]];
    repeat match goal with
           | |- context [if ?b then _ else _] => destruct b
           end; lia.
Qed.

Ltac decide_tests :=
  repeat match goal with
         | |- context [?a <? ?b] =>
             first [ replace (a <? b) with true by (symmetry; apply Z.ltb_lt; lia)
                   | replace (a <? b) with false by (symmetry; apply Z.ltb_ge; lia) ]
         | |- context [?a <=? ?b] =>
             first [ replace (a <=? b) with true by (symmetry; apply Z.leb_le; lia)
                   | replace (a <=? b) with false by (symmetry; apply Z.leb_gt; lia) ]
         end.

Lemma ws1_ascii (c : ascii) : ws1 (code c) = true -> code c < 192.
Proof.
  unfold ws1. rewrite orb_true_iff, andb_true_iff, Z.eqb_eq, !Z.leb_le. lia.
Qed.

(** A white-space character of two bytes is one character. *)
Lemma ws2_one (c c1 : ascii) (r1 : string) :
  ws2 (code c) (code c1) = true ->
  js_length (String c (String c1 r1)) = S (js_length r1).
Proof.
  unfold ws2. rewrite andb_true_iff, !Z.eqb_eq. intros [H H1].
  rewrite js_length_cons. unfold continues. rewrite H, H1. reflexivity.
Qed.

(** A white-space character of three bytes is one character. *)
Lemma ws3_one (c c1 c2 : ascii) (r2 : string) :
  ws3 (code c) (code c1) (code c2) = true ->
  js_length (String c (String c1 (String c2 r2))) = S (js_length r2).
Proof.
  unfold ws3.
  rewrite !orb_true_iff, !andb_true_iff, !orb_true_iff, !andb_true_iff,
    !Z.eqb_eq, !Z.leb_le.
  intros H.
  assert (B : 224 <= code c < 240 /\ 128 <= code c1 < 192 /\ 128 <= code c2 < 192)
    by lia.
  clear H. destruct B as (B & B1 & B2).
  rewrite js_length_cons. unfold continues. decide_tests. reflexivity.
Qed.

(** Skipping white space removes characters, unless there is none to skip. *)
Lemma skip_ws_length (s : string) :
  (js_length (skip_ws s) <= js_length s)%nat /\
  (js_length (skip_ws s) = js_length s -> skip_ws s = s).
Proof.
  assert (G : forall n s, (String.length s <= n)%nat ->
            (js_length (skip_ws s) <= js_length s)%nat /\
            (js_length (skip_ws s) = js_length s -> skip_ws s = s)).
  { clear s. induction n as [|n IH]; intros s Hn.
    - destruct s; [split; [simpl; lia | reflexivity] | simpl in Hn; lia].
    - destruct s as [|c r]; [split; [simpl; lia | reflexivity] |].
      cbn [String.length] in Hn. cbn [skip_ws].
      destruct (ws1 (code c)) eqn:W1.
      { rewrite (js_length_ascii c r (ws1_ascii c W1)).
        destruct (IH r ltac:(lia)) as [IH1 _]. split; lia. }
      destruct r as [|c1 r1]; [split; [lia | reflexivity] |].
      cbn [String.length] in Hn.
      destruct (ws2 (code c) (code c1)) eqn:W2.
      { rewrite (ws2_one c c1 r1 W2).
        destruct (IH r1 ltac:(lia)) as [IH1 _]. split; lia. }
      destruct r1 as [|c2 r2]; [split; [lia | reflexivity] |].
      cbn [String.length] in Hn.
      destruct (ws3 (code c) (code c1) (code c2)) eqn:W3;
        [| split; [lia | reflexivity]].
      rewrite (ws3_one c c1 c2 r2 W3).
      destruct (IH r2 ltac:(lia)) as [IH1 _]. split; lia. }
  exact (G (String.length s) s (Nat.le_refl _)).
Qed.

(** The characters of a digit string count one each. *)
Lemma js_length_chars (ds : list Z) (rest : string) :
  Forall is_digit ds ->
  js_length (chars ds +:+ rest) = (length ds + js_length rest)%nat.
Proof.
  induction 1 as [|d ds Hd _ IH]; [reflexivity |].
  cbn [chars fold_right]. rewrite append_cons.
  fold (chars ds). rewrite js_length_ascii, IH; [reflexivity |].
  unfold is_digit in Hd. unfold digit_char, code.
  rewrite N_ascii_embedding; lia.
Qed.

Lemma js_length_digits (ds : list Z) :
  Forall is_digit ds -> js_length (chars ds) = length ds.
Proof.
  intros H. rewrite <- (append_empty_r (chars ds)), js_length_chars by exact H.
  simpl. lia.
Qed.

(** A run of [n] digits writes an integer below [10 ^ n]. *)
Lemma horner_bound (ds : list Z) :
  Forall is_digit ds -> 0 <= horner 10 ds < 10 ^ Z.of_nat (length ds).
Proof.
  induction ds as [|d ds IH] using rev_ind; intros H.
  - unfold horner. simpl. lia.
  - apply Forall_app in H as [Hds Hd]. inversion Hd as [|? ? Hd' _]; subst.
    unfold is_digit in Hd'. specialize (IH Hds).
    rewrite horner_snoc, length_app, Nat2Z.inj_add. simpl length.
    rewrite Z.pow_add_r, Z.pow_1_r by lia. lia.
Qed.

(** Below 2^53 the string of a number has all its digits. *)
Lemma number_string_small (z : Z) :
  Z.abs z < 2 ^ 53 -> toString (VNum z) = decimal z.
Proof.
  intros H. unfold toString, number_string, decimal, magnitude_string.
  destruct (z <? 0) eqn:E.
  - apply Z.ltb_lt in E.
    destruct (- z <? 2 ^ 53) eqn:E1; [reflexivity | apply Z.ltb_ge in E1; lia].
  - apply Z.ltb_ge in E.
    destruct (z <? 2 ^ 53) eqn:E1; [reflexivity | apply Z.ltb_ge in E1; lia].
Qed.

(** An integer below 2^53 is parsed as it is written. *)
Lemma parsed_exact (z : Z) :
  Z.abs z < 2 ^ 53 -> to_jsval (rn (inject_Z z)) = VNum z.
Proof.
  intros H. rewrite (rn_integer_exact (inject_Z z) eq_refl H).
  apply to_jsval_integer.
Qed.

End Digits.

Section RoundTrip.

Lemma digit_cases (d : Z) :
  is_digit d ->
  d = 0 \/ d = 1 \/ d = 2 \/ d = 3 \/ d = 4 \/ d = 5 \/ d = 6 \/ d = 7 \/
  d = 8 \/ d = 9.
Proof. unfold is_digit. lia. Qed.

Ltac each_digit H :=
  apply digit_cases in H;
  repeat (destruct H as [-> | H]; [reflexivity |]); subst; reflexivity.

Lemma digit_val_char (d : Z) : is_digit d -> digit_val 10 (digit_char d) = Some d.
Proof. intros H. each_digit H. Qed.

Lemma digit_char_plain (d : Z) :
  is_digit d ->
  (ws1 (code (digit_char d)) = false /\ code (digit_char d) < 192) /\
  Ascii.eqb (digit_char d) "-" = false /\
  Ascii.eqb (digit_char d) "+" = false /\
  Ascii.eqb (digit_char d) "x" = false /\
  Ascii.eqb (digit_char d) "X" = false.
Proof. intros H. repeat split; each_digit H. Qed.

Lemma take_digits_chars (ds : list Z) :
  Forall is_digit ds -> take_digits 10 (chars ds) = ds.
Proof.
  induction 1 as [|d ds Hd _ IH]; simpl; [reflexivity |].
  now rewrite (digit_val_char d Hd), IH.
Qed.

(** The digits of a non-negative integer, read by Horner's rule, give the
    integer back. *)
Lemma digits_horner (n : Z) :
  0 <= n ->
  exists ds, ds <> [] /\ Forall is_digit ds /\
             digits n = chars ds /\ horner 10 ds = n.
Proof.
  intros Hn. revert n Hn.
  apply (Zlt_0_ind (fun n => exists ds, ds <> [] /\ Forall is_digit ds /\
                                 digits n = chars ds /\ horner 10 ds = n)).
  intros n IH Hn. rewrite digits_unfold by exact Hn.
  pose proof (Z.mod_pos_bound n 10 ltac:(lia)) as Hm.
  destruct (n <? 10) eqn:E.
  - apply Z.ltb_lt in E. exists [n mod 10].
    split; [discriminate |]. split; [constructor; [exact Hm | constructor] |].
    split; [reflexivity |]. unfold horner. simpl. rewrite Z.mod_small; lia.
  - apply Z.ltb_ge in E.
    assert (Hq : 0 <= n / 10 < n)
      by (split; [apply Z.div_pos; lia | apply Z.div_lt; lia]).
    destruct (IH (n / 10) Hq) as (ds & Hne & Hall & Hd & Hh).
    exists (ds ++ [n mod 10]).
    split; [destruct ds; discriminate |].
    split; [apply Forall_app; split; [exact Hall | constructor; [exact Hm | constructor]] |].
    split; [now rewrite chars_snoc, Hd |].
    rewrite horner_snoc, Hh. pose proof (Z.div_mod n 10 ltac:(lia)). lia.
Qed.

(** A character of one byte that is no white space stops [skip_ws]. *)
Lemma skip_ws_ascii (c : ascii) (r : string) :
  ws1 (code c) = false -> code c < 192 -> skip_ws (String c r) = String c r.
Proof.
  intros W1 Hc. cbn [skip_ws]. rewrite W1.
  destruct r as [|c1 [|c2 r2]]; [reflexivity | |].
  - unfold ws2. replace (code c =? 194) with false
      by (symmetry; apply Z.eqb_neq; lia). reflexivity.
  - unfold ws2, ws3.
    replace (code c =? 194) with false by (symmetry; apply Z.eqb_neq; lia).
    replace (code c =? 225) with false by (symmetry; apply Z.eqb_neq; lia).
    replace (code c =? 226) with false by (symmetry; apply Z.eqb_neq; lia).
    replace (code c =? 227) with false by (symmetry; apply Z.eqb_neq; lia).
    replace (code c =? 239) with false by (symmetry; apply Z.eqb_neq; lia).
    reflexivity.
Qed.

(** Parsing the decimal string of an integer below 2^53 gives the integer
    back. *)
Lemma parseInt_decimal (z : Z) :
  Z.abs z < 2 ^ 53 -> parseInt (decimal z) = VNum z.
Proof.
  intros Hz.
  assert (G : forall (neg : bool) (ds : list Z), ds <> [] -> Forall is_digit ds ->
            parseInt (if neg then String "-" (chars ds) else chars ds) =
            to_jsval (rn (inject_Z ((if neg then -1 else 1) * horner 10 ds)))).
  { intros neg [|d ds] Hne Hall; [congruence |].
    inversion Hall as [|? ? Hd Hds]; subst.
    destruct (digit_char_plain d Hd) as ((Hws & Hcode) & Hminus & Hplus & _).
    assert (Hrad : strip_radix (chars (d :: ds)) = (10, chars (d :: ds))).
    { destruct ds as [|d' ds']; [reflexivity |].
      inversion Hds as [|? ? Hd' _]; subst.
      destruct (digit_char_plain d' Hd') as (_ & _ & _ & Hx & HX).
      simpl. rewrite Hx, HX, andb_false_r. reflexivity. }
    unfold parseInt. destruct neg.
    - rewrite (skip_ws_ascii "-" _ eq_refl eq_refl).
      change (strip_sign (String "-" (chars (d :: ds))))
        with (true, chars (d :: ds)).
      cbv iota beta. rewrite Hrad, (take_digits_chars _ Hall). reflexivity.
    - assert (Hskip : skip_ws (chars (d :: ds)) = chars (d :: ds))
        by (apply skip_ws_ascii; assumption).
      assert (Hsign : strip_sign (chars (d :: ds)) = (false, chars (d :: ds)))
        by (simpl; now rewrite Hminus, Hplus).
      rewrite Hskip, Hsign. cbv iota beta.
      rewrite Hrad, (take_digits_chars _ Hall). reflexivity. }
  unfold decimal. destruct (z <? 0) eqn:E.
  - apply Z.ltb_lt in E.
    destruct (digits_horner (- z) ltac:(lia)) as (ds & Hne & Hall & Hd & Hh).
    rewrite Hd. rewrite (G true ds Hne Hall), Hh.
    replace (-1 * - z) with z by lia. now apply parsed_exact.
  - apply Z.ltb_ge in E.
    destruct (digits_horner z E) as (ds & Hne & Hall & Hd & Hh).
    rewrite Hd. rewrite (G false ds Hne Hall), Hh.
    replace (1 * z) with z by lia. now apply parsed_exact.
Qed.

End RoundTrip.

(** ** Identifier dispatch of [/block/header/:idx] and [/block/:idx] *)

Section Dispatch.

Lemma length_zero (s : string) : String.length s = 0%nat -> s = "".
Proof. destruct s; [reflexivity | discriminate]. Qed.

Lemma strip_sign_cases (s1 s2 : string) (neg : bool) :
  strip_sign s1 = (neg, s2) ->
  (s1 = String "-" s2 /\ neg = true) \/
  (s1 = String "+" s2 /\ neg = false) \/
  (s1 = s2 /\ neg = false).
Proof.
  destruct s1 as [|c r]; simpl.
  - intros [= <- <-]. right; right. split; reflexivity.
  - destruct (Ascii.eqb_spec c "-") as [-> |_].
    + intros [= <- <-]. left. split; reflexivity.
    + destruct (Ascii.eqb_spec c "+") as [-> |_]; intros [= <- <-].
      * right; left. split; reflexivity.
      * right; right. split; reflexivity.
Qed.

Lemma strip_radix_decimal (s : string) :
  (strip_radix s).1 <> 16 -> strip_radix s = (10, s).
Proof.
  destruct s as [|c0 [|c1 r]]; simpl; try reflexivity.
  destruct (Ascii.eqb c0 "0" && (Ascii.eqb c1 "x" || Ascii.eqb c1 "X"));
    simpl; [congruence | reflexivity].
Qed.

Lemma js_length_zero (s : string) : js_length s = 0%nat -> s = "".
Proof.
  intros H. destruct s as [|c r]; [reflexivity |].
  pose proof (js_length_pos (String c r) ltac:(discriminate)). lia.
Qed.

Lemma digits_zero : digits 0 = "0".
Proof. reflexivity. Qed.

(** What [parseInt] reads in an identifier that is not a hexadecimal
    literal: nothing; or a sign and a run of decimal digits, whose integer is
    a number as it is below 2^53; or at least 16 digits, which overflow or
    round to a number from 2^53 on. *)
Lemma parse_shape (s : string) :
  ~ hex_literal s ->
  parseInt s = VNaN \/
  (exists neg s2 ds rest,
     strip_sign (skip_ws s) = (neg, s2) /\
     ds <> [] /\ Forall is_digit ds /\ s2 = chars ds +:+ rest /\
     Z.abs ((if neg then -1 else 1) * horner 10 ds) < 2 ^ 53 /\
     parseInt s = VNum ((if neg then -1 else 1) * horner 10 ds)) \/
  ((16 <= js_length s)%nat /\
   ((exists b, parseInt s = VInf b) \/
    (exists n, parseInt s = VNum n /\ 2 ^ 53 <= Z.abs n))).
Proof.
  unfold hex_literal, parseInt. intros Hhex.
  destruct (strip_sign (skip_ws s)) as [neg s2] eqn:Es. simpl in Hhex.
  rewrite (strip_radix_decimal s2 Hhex).
  destruct (take_digits 10 s2) as [|d ds] eqn:Ed; [now left | right].
  destruct (take_digits_split s2) as [Hall [rest Hs2]]. rewrite Ed in Hall, Hs2.
  set (h := (if neg then -1 else 1) * horner 10 (d :: ds)).
  pose proof (horner_bound (d :: ds) Hall) as Hh.
  destruct (Z_lt_le_dec (Z.abs h) (2 ^ 53)) as [Hz | Hz].
  - left. exists neg, s2, (d :: ds), rest.
    split; [reflexivity |]. split; [discriminate |]. split; [exact Hall |].
    split; [exact Hs2 |]. split; [exact Hz |]. now apply parsed_exact.
  - right. split.
    + assert (Hl2 : js_length s2 = (length (d :: ds) + js_length rest)%nat)
        by (rewrite Hs2 at 1; now apply js_length_chars).
      destruct (skip_ws_length s) as [Hws _].
      assert (Hsign : (js_length s2 <= js_length (skip_ws s))%nat).
      { apply strip_sign_cases in Es as [[E1 _] | [[E1 _] | [E1 _]]];
          rewrite E1; [| | lia]; rewrite js_length_ascii by reflexivity; lia. }
      assert (Hdigits : (16 <= length (d :: ds))%nat).
      { destruct (le_lt_dec 16 (length (d :: ds))) as [H16 | H16]; [exact H16 |].
        assert (horner 10 (d :: ds) < 10 ^ 15).
        { eapply Z.lt_le_trans; [apply Hh |]. apply Z.pow_le_mono_r; lia. }
        assert (Z.abs h < 2 ^ 53) by (unfold h; destruct neg; lia). lia. }
      lia.
    + destruct (rn_large h Hz) as [[b ->] | (n & -> & Hn)].
      * left. now exists b.
      * right. exists n. split; [apply to_jsval_integer | exact Hn].
Qed.

(** For such an identifier, a parsed value below 2^53 whose string is as
    long as the identifier prints as the identifier. *)
Lemma same_length_round_trips (s : string) (n : Z) :
  ~ hex_literal s -> Z.abs n < 2 ^ 53 -> parseInt s = VNum n ->
  String.length (toString (VNum n)) = js_length s -> toString (VNum n) = s.
Proof.
  intros Hhex Hsafe Hparse.
  destruct (parse_shape s Hhex)
    as [E | [(neg & s2 & ds & rest & Es & Hne & Hall & Hs2 & Hz & E)
            | (_ & [[b E] | (n' & E & Hn')])]];
    [congruence | | congruence |];
    [| rewrite E in Hparse; injection Hparse as ->; lia].
  rewrite E in Hparse. injection Hparse as <-.
  rewrite (number_string_small _ Hz). intros Hl.
  destruct (digits_horner_length ds Hne Hall) as (Hpos & Hle & Heq).
  destruct (skip_ws_length s) as [Hws_le Hws_eq].
  assert (Hl2 : js_length s2 = (length ds + js_length rest)%nat)
    by (rewrite Hs2 at 1; now apply js_length_chars).
  set (h := horner 10 ds) in *.
  apply strip_sign_cases in Es as [[E1 ->] | [[E1 ->] | [E1 ->]]].
  - assert (Hl1 : js_length (skip_ws s) = S (js_length s2))
      by (rewrite E1; now apply js_length_ascii).
    unfold decimal in *. destruct (-1 * h <? 0) eqn:En.
    + apply Z.ltb_lt in En. replace (- (-1 * h)) with h in * by lia.
      simpl in Hl.
      assert (Hr : js_length rest = 0%nat) by lia.
      apply js_length_zero in Hr. subst rest. rewrite append_empty_r in Hs2.
      rewrite Heq by lia. rewrite <- Hs2, <- E1. apply Hws_eq. lia.
    + apply Z.ltb_ge in En. replace (-1 * h) with 0 in * by lia.
      rewrite digits_zero in Hl. simpl in Hl.
      destruct ds; [congruence | cbn [length] in Hl2; lia].
  - assert (Hl1 : js_length (skip_ws s) = S (js_length s2))
      by (rewrite E1; now apply js_length_ascii).
    unfold decimal in *. replace (1 * h) with h in * by lia.
    destruct (h <? 0) eqn:En; [apply Z.ltb_lt in En; lia |]. lia.
  - unfold decimal in *. replace (1 * h) with h in * by lia.
    destruct (h <? 0) eqn:En; [apply Z.ltb_lt in En; lia |].
    assert (Hr : js_length rest = 0%nat) by (rewrite E1 in *; lia).
    apply js_length_zero in Hr. subst rest. rewrite append_empty_r in Hs2.
    rewrite Heq by (rewrite E1 in *; lia).
    rewrite <- Hs2, <- E1. apply Hws_eq. rewrite E1 in *. lia.
Qed.

(** The string of a number below 2^53 is made of one-byte characters. *)
Lemma js_length_decimal (z : Z) : js_length (decimal z) = String.length (decimal z).
Proof.
  assert (G : forall n, 0 <= n -> js_length (digits n) = String.length (digits n)).
  { intros n Hn. destruct (digits_horner n Hn) as (ds & _ & Hall & Hd & _).
    now rewrite Hd, js_length_digits, length_chars. }
  unfold decimal. destruct (z <? 0) eqn:E.
  - apply Z.ltb_lt in E. rewrite js_length_ascii by reflexivity.
    simpl. now rewrite G by lia.
  - apply Z.ltb_ge in E. now apply G.
Qed.

Lemma present_some (params : gmap string string) (x s : string) :
  params !! x = Some s -> s <> "" -> present params x = Some s.
Proof.
  intros E Hs. unfold present. rewrite E.
  destruct (String.eqb_spec s ""); [contradiction | reflexivity].
Qed.

End Dispatch.

(** C3 (as amended): for an identifier that is not a hexadecimal literal and
    that parses neither to zero nor to a number from 2^53 on, the two generic
    lookup routes dispatch a height lookup exactly when parsing it as an
    integer and printing the result reproduces it, and a hash lookup
    otherwise. *)
Theorem idx_dispatch_round_trip (this : config) (params : gmap string string)
    (s : string) :
  params !! "idx" = Some s -> s <> "" ->
  ~ hex_literal s -> safe (parseInt s) -> parseInt s <> VNum 0 ->
  (forall n, round_trips s n ->
     handler this GET_block_header_idx params =
       Invoke (Call_getBlockHeaderByHeight (default_node this) (VNum n)) /\
     handler this GET_block_idx params =
       Invoke (Call_getBlockHash (default_node this) (VNum n))) /\
  ((forall n, ~ round_trips s n) ->
     handler this GET_block_header_idx params =
       Invoke (Call_getBlockHeaderByHash (default_node this) s) /\
     handler this GET_block_idx params =
       Invoke (Call_getBlock (default_node this) s)).
Proof.
  intros Hp Hs Hhex Hsafe Hnz. unfold handler. rewrite (present_some _ _ _ Hp Hs).
  split.
  - intros n [Hparse Hprint]. unfold parseInteger. rewrite Hparse.
    assert (Hz : Z.abs n < 2 ^ 53) by (rewrite Hparse in Hsafe; exact Hsafe).
    assert (El : String.length (toString (VNum n)) = js_length s).
    { rewrite <- Hprint. rewrite (number_string_small n Hz).
      symmetry. apply js_length_decimal. }
    rewrite El, Nat.eqb_refl. simpl truthy.
    destruct (n =? 0) eqn:E; [apply Z.eqb_eq in E; congruence |].
    split; reflexivity.
  - intros Hnone. unfold parseInteger.
    destruct (parse_shape s Hhex)
      as [-> | [(neg & s2 & ds & rest & _ & _ & _ & _ & Hz & Hparse)
               | (Hlong & [[b Hparse] | (n & Hparse & Hn)])]].
    + destruct (String.length (toString VNaN) =? js_length s)%nat;
        split; reflexivity.
    + rewrite Hparse. set (n := (if neg then -1 else 1) * horner 10 ds) in *.
      destruct (String.length (toString (VNum n)) =? js_length s)%nat eqn:E.
      * apply Nat.eqb_eq in E. exfalso. apply (Hnone n). split; [exact Hparse |].
        now apply same_length_round_trips.
      * split; reflexivity.
    + rewrite Hparse.
      destruct (String.length (toString (VInf b)) =? js_length s)%nat eqn:E;
        [| split; reflexivity].
      apply Nat.eqb_eq in E. destruct b; simpl in E; lia.
    + rewrite Hparse in Hsafe. simpl in Hsafe. lia.
Qed.

(** "12345" is looked up as height 12345, and "00012345" as a hash. *)
Lemma idx_dispatch_round_trip_witness :
  handler (Self no_options) GET_block_header_idx {[ "idx" := "12345" ]} =
    Invoke (Call_getBlockHeaderByHeight (default_node (Self no_options)) (VNum 12345)) /\
  handler (Self no_options) GET_block_idx {[ "idx" := "00012345" ]} =
    Invoke (Call_getBlock (default_node (Self no_options)) "00012345").
Proof.
  split.
  - refine (proj1 (proj1 (idx_dispatch_round_trip (Self no_options)
        {[ "idx" := "12345" ]} "12345" _ _ _ _ _) 12345 _)).
    + reflexivity.
    + discriminate.
    + unfold hex_literal. simpl. discriminate.
    + vm_compute. reflexivity.
    + vm_compute. discriminate.
    + split; vm_compute; reflexivity.
  - refine (proj2 (proj2 (idx_dispatch_round_trip (Self no_options)
        {[ "idx" := "00012345" ]} "00012345" _ _ _ _ _) _)).
    + reflexivity.
    + discriminate.
    + unfold hex_literal. simpl. discriminate.
    + vm_compute. reflexivity.
    + vm_compute. discriminate.
    + intros n [Hparse Hprint]. vm_compute in Hparse.
      injection Hparse as <-. vm_compute in Hprint. discriminate.
Defined.

(** C3 (as stated) fails, in two ways.  "0xFFFFFFFFF" parses to 68719476735,
    whose string "68719476735" differs from the input but is as long, and
    the identifier is looked up as a height.  "9007199254740993" is no
    hexadecimal literal and parses to the number 9007199254740992, which is
    2^53 and the nearest one that binary64 holds: its string differs from the
    input in the last digit, is as long, and the identifier is looked up as
    height 9007199254740992. *)
Lemma idx_dispatch_counterexample :
  (parseInt "0xFFFFFFFFF" = VNum 68719476735 /\
   toString (VNum 68719476735) <> "0xFFFFFFFFF" /\
   safe (parseInt "0xFFFFFFFFF") /\
   handler (Self no_options) GET_block_header_idx {[ "idx" := "0xFFFFFFFFF" ]} =
     Invoke (Call_getBlockHeaderByHeight (default_node (Self no_options))
               (VNum 68719476735)) /\
   handler (Self no_options) GET_block_idx {[ "idx" := "0xFFFFFFFFF" ]} =
     Invoke (Call_getBlockHash (default_node (Self no_options)) (VNum 68719476735))) /\
  (parseInt "9007199254740993" = VNum 9007199254740992 /\
   toString (VNum 9007199254740992) <> "9007199254740993" /\
   ~ hex_literal "9007199254740993" /\
   handler (Self no_options) GET_block_header_idx {[ "idx" := "9007199254740993" ]} =
     Invoke (Call_getBlockHeaderByHeight (default_node (Self no_options))
               (VNum 9007199254740992)) /\
   handler (Self no_options) GET_block_idx {[ "idx" := "9007199254740993" ]} =
     Invoke (Call_getBlockHash (default_node (Self no_options))
               (VNum 9007199254740992))).
Proof.
  split.
  - split; [vm_compute; reflexivity |]. split; [vm_compute; discriminate |].
    split; [vm_compute; reflexivity |].
    split; vm_compute; reflexivity.
  - split; [vm_compute; reflexivity |]. split; [vm_compute; discriminate |].
    split; [unfold hex_literal; vm_compute; discriminate |].
    split; vm_compute; reflexivity.
Qed.

(** The identifier "0" reproduces itself, yet it is looked up as a hash:
    [parseInteger] returns the number 0, which [!idx] takes for a miss. *)
Lemma idx_zero_is_hash :
  round_trips "0" 0 /\
  handler (Self no_options) GET_block_header_idx {[ "idx" := "0" ]} =
    Invoke (Call_getBlockHeaderByHash (default_node (Self no_options)) "0").
Proof. split; [split; vm_compute; reflexivity | vm_compute; reflexivity]. Qed.

(** ** Decimal identifiers *)

(** Every integer other than zero and below 2^53 in absolute value, written
    in decimal, is looked up as a height. *)
Lemma decimal_is_height (this : config) (params : gmap string string) (n : Z) :
  n <> 0 -> Z.abs n < 2 ^ 53 -> params !! "idx" = Some (decimal n) ->
  handler this GET_block_header_idx params =
    Invoke (Call_getBlockHeaderByHeight (default_node this) (VNum n)) /\
  handler this GET_block_idx params =
    Invoke (Call_getBlockHash (default_node this) (VNum n)).
Proof.
  intros Hn Hsafe Hp.
  assert (Hs : decimal n <> "").
  { unfold decimal. destruct (n <? 0) eqn:E; [discriminate |].
    apply Z.ltb_ge in E. rewrite digits_unfold by lia. destruct (n <? 10); [discriminate |].
    destruct (digits (n / 10)); discriminate. }
  unfold handler. rewrite (present_some _ _ _ Hp Hs).
  unfold parseInteger. rewrite (parseInt_decimal n Hsafe).
  rewrite (number_string_small n Hsafe), js_length_decimal, Nat.eqb_refl.
  simpl truthy.
  destruct (n =? 0) eqn:E; [apply Z.eqb_eq in E; contradiction |].
  split; reflexivity.
Qed.

(** ** The cache adapter and the cache-orchestrated commands *)

Section Cache.

Variable this : config.

Lemma _get_log (nd pt : prim) (method : string) (now : Z) (c : call) (st : state) :
  _get nd pt method now (log c st) = _get nd pt method now st.
Proof. reflexivity. Qed.

(** What [_set] stores is what [_get] returns until the entry expires. *)
Lemma _get_set (nd pt : prim) (method : string) (data : obj) (ttl : option Z)
    (now now' : Z) (st : state) :
  now' <= now + num_or ttl (cacheTimeout this) ->
  _get nd pt method now' (_set this nd pt method (Some data) ttl now st) = Some data.
Proof.
  intros H. unfold _get, _set, cache_get, cache_set. simpl.
  rewrite lookup_insert_eq. simpl.
  destruct (now' <=? now + num_or ttl (cacheTimeout this)) eqn:E;
    [reflexivity | apply Z.leb_gt in E; lia].
Qed.

(** A miss stays a miss as time passes. *)
Lemma _get_none_later (nd pt : prim) (method : string) (now now' : Z) (st : state) :
  _get nd pt method now st = None -> now <= now' ->
  _get nd pt method now' st = None.
Proof.
  unfold _get, cache_get. intros H Hle.
  destruct (cache st !! cache_key nd pt method) as [e|]; [| reflexivity].
  destruct (now' <=? expiresAt e) eqn:E'; [| reflexivity].
  apply Z.leb_le in E'.
  destruct (now <=? expiresAt e) eqn:E; [exact H | apply Z.leb_gt in E; lia].
Qed.


Variable daemon : Z -> prim -> prim -> string -> reply obj.

Lemma run_unfold (op : node_op) :
  run this daemon op =
  cached_rpc this daemon (key_method op) (rpc_method op)
    (match op with Info => with_hash_rate | _ => id end).
Proof. destruct op; reflexivity. Qed.

Lemma run_hit (op : node_op) (nd pt : prim) (now : Z) (st : state) (cached : obj) :
  _get nd pt (key_method op) now st = Some cached ->
  run this daemon op nd pt now st = (Resolve (<["cached" := VBool true]> cached), st).
Proof.
  intros H. rewrite run_unfold. unfold cached_rpc, rpc_hit. now rewrite H.
Qed.

Lemma run_miss (op : node_op) (nd pt : prim) (now : Z) (st : state) :
  _get nd pt (key_method op) now st = None ->
  run this daemon op nd pt now st =
    let rpc := rpc_of this nd pt in
    let st1 := log (CallDaemon (host rpc) (port rpc) (rpc_method op)) st in
    match daemon now (host rpc) (port rpc) (rpc_method op) with
    | Ok data =>
        (Resolve (annotated op rpc data),
         _set this nd pt (key_method op) (Some (annotated op rpc data)) None now st1)
    | Fail err => (Resolve (error_payload err rpc), st1)
    end.
Proof.
  intros H. rewrite run_unfold. unfold cached_rpc, rpc_hit, rpc_miss. rewrite H.
  cbv zeta. destruct (daemon now _ _ _); [| reflexivity].
  destruct op; reflexivity.
Qed.




(** The five commands always resolve. *)
Lemma producer_never_rejects (op : node_op) (nd pt : prim) (now : Z) (st : state) :
  exists v, (run this daemon op nd pt now st).1 = Resolve v.
Proof.
  destruct (_get nd pt (key_method op) now st) as [cached|] eqn:H.
  - rewrite (run_hit op nd pt now st cached H). eauto.
  - rewrite run_miss by exact H. cbv zeta.
    destruct (daemon now _ _ _); simpl; eauto.
Qed.

End Cache.


(** C6 (as amended): each of the five single-node commands never rejects;
    when the daemon fails it resolves [{ error, node }] with the host and
    port it tried, leaves the cache as it was, and the next call for the key
    invokes the daemon again. *)
Theorem producer_failure_not_cached (this : config)
    (daemon : Z -> prim -> prim -> string -> reply obj)
    (op : node_op) (nd pt : prim) (now : Z) (st : state) :
  let rpc := rpc_of this nd pt in
  let invocation := CallDaemon (host rpc) (port rpc) (rpc_method op) in
  (exists v, (run this daemon op nd pt now st).1 = Resolve v) /\
  (forall err,
     _get nd pt (key_method op) now st = None ->
     daemon now (host rpc) (port rpc) (rpc_method op) = Fail err ->
     let st' := (run this daemon op nd pt now st).2 in
     (run this daemon op nd pt now st).1 =
       Resolve (<["error" := VErr err]>
                  {[ "node" := VNode (or_prim nd (defaultHost this))
                                    (or_prim pt (defaultPort this)) ]}) /\
     cache st' = cache st /\
     calls st' = calls st ++ [invocation] /\
     (forall daemon' now',
        now <= now' ->
        calls (run this daemon' op nd pt now' st').2 =
          calls st ++ [invocation; invocation])).
Proof.
  intros rpc invocation. split.
  - apply producer_never_rejects.
  - intros err Hmiss Hfail st'.
    assert (E : run this daemon op nd pt now st =
                (Resolve (error_payload err rpc), log invocation st)).
    { rewrite run_miss by exact Hmiss. cbv zeta. fold rpc. now rewrite Hfail. }
    subst st'. rewrite E. simpl.
    split; [reflexivity |]. split; [reflexivity |]. split; [reflexivity |].
    intros daemon' now' Hnow.
    rewrite run_miss
      by (rewrite _get_log; now apply (_get_none_later nd pt _ now now')).
    cbv zeta. fold rpc. fold invocation.
    destruct (daemon' now' _ _ _); simpl; now rewrite <- app_assoc.
Qed.

(** C10: the cache key is the bare concatenation of node, port and method,
    so node "a" with port "12" and node "a1" with port "2" share their keys,
    and what [_set] stores for the first [_get] returns for the second. *)
Theorem cache_key_collision (this : config) (method : string) (data : obj)
    (ttl : option Z) (now : Z) (st : state) :
  0 <= num_or ttl (cacheTimeout this) ->
  (PStr "a", PStr "12") <> (PStr "a1", PStr "2") /\
  cache_key (PStr "a") (PStr "12") method = "a12" +:+ method /\
  cache_key (PStr "a1") (PStr "2") method = "a12" +:+ method /\
  _get (PStr "a1") (PStr "2") method now
    (_set this (PStr "a") (PStr "12") method (Some data) ttl now st) = Some data.
Proof.
  intros Httl. split; [discriminate |]. split; [reflexivity |].
  split; [reflexivity |].
  change (cache_key (PStr "a1") (PStr "2") method)
    with (cache_key (PStr "a") (PStr "12") method).
  unfold _get, _set, cache_get, cache_set. simpl cache.
  rewrite lookup_insert_eq. simpl.
  destruct (now <=? now + num_or ttl (cacheTimeout this)) eqn:E;
    [reflexivity | apply Z.leb_gt in E; lia].
Qed.



(** With the daemon down, [_getHeight("n1")] resolves the error payload for
    n1:11898, stores nothing, and the next call asks the daemon again. *)
Lemma producer_failure_not_cached_witness :
  let this := Self no_options in
  let first := run this dead_daemon Height (PStr "n1") PUndef 0 fresh_state in
  first.1 = Resolve (<["error" := VErr "ECONNREFUSED"]>
                       {[ "node" := VNode (PStr "n1") (PNum 11898) ]}) /\
  cache first.2 = ∅ /\
  calls (run this (steady_daemon 100 103) Height (PStr "n1") PUndef 1 first.2).2 =
    [CallDaemon (PStr "n1") (PNum 11898) "getHeight";
     CallDaemon (PStr "n1") (PNum 11898) "getHeight"].
Proof.
  intros this first.
  destruct (producer_failure_not_cached this dead_daemon Height (PStr "n1")
              PUndef 0 fresh_state) as [_ Hfail].
  destruct (Hfail "ECONNREFUSED" eq_refl eq_refl) as (H1 & H2 & H3 & H4).
  split; [exact H1 |]. split; [exact H2 |].
  exact (H4 (steady_daemon 100 103) 1 ltac:(lia)).
Defined.

(** C6 (as stated) fails: [getCurrencyId] and [getTransactionPool], which
    ask one node through the same cache, reject with the error of the daemon
    when it fails. *)
Lemma producer_failure_not_cached_counterexample :
  let this := Self no_options in
  (getCurrencyId this value_down (default_node this) 0 fresh_state).1
    = Reject "ETIMEDOUT" /\
  (getTransactionPool this value_down (default_node this) 0 fresh_state).1
    = Reject "ETIMEDOUT".
Proof. split; reflexivity. Qed.

(** With the default time-to-live of 30, a value stored for node "a", port
    "12" is read back for node "a1", port "2". *)
Lemma cache_key_collision_witness :
  0 <= num_or None (cacheTimeout (Self no_options)) /\
  _get (PStr "a1") (PStr "2") "getinfo" 0
    (_set (Self no_options) (PStr "a") (PStr "12") "getinfo"
       (Some {[ "height" := VNum 1 ]}) None 0 fresh_state)
  = Some {[ "height" := VNum 1 ]}.
Proof.
  split; [simpl; lia |].
  apply (cache_key_collision (Self no_options) "getinfo" {[ "height" := VNum 1 ]}
           None 0 fresh_state).
  simpl. lia.
Defined.

(** ** The aggregators *)

Section Aggregation.

Lemma round_length {X} (hit : X -> state -> option (promise obj))
    (miss : X -> state -> promise obj * state) (xs : list X) (st : state) :
  length (round hit miss xs st).1 = length xs.
Proof.
  unfold round.
  assert (G : forall acc : list (promise obj) * state,
            length (fold_left
              (fun acc x =>
                 match hit x st with
                 | Some p => (acc.1 ++ [p], acc.2)
                 | None => let r := miss x acc.2 in (acc.1 ++ [r.1], r.2)
                 end) xs acc).1 = (length acc.1 + length xs)%nat).
  { induction xs as [|x xs IH]; intros acc; simpl; [lia |].
    rewrite IH. destruct (hit x st); simpl; rewrite length_app; simpl; lia. }
  now rewrite G.
Qed.

Lemma promise_all_length {A} (ps : list (promise A)) (vs : list A) :
  promise_all ps = Resolve vs -> length vs = length ps.
Proof.
  revert vs. induction ps as [|p ps IH]; intros vs; simpl.
  - now intros [= <-].
  - destruct p; [| discriminate].
    destruct (promise_all ps); [| discriminate].
    intros [= <-]. simpl. now rewrite (IH _ eq_refl).
Qed.

Lemma samples_length (field : string) (results : list obj) :
  (length (samples field results) <= length results)%nat.
Proof.
  unfold samples. induction results as [|r rs IH]; csimpl; [lia |].
  destruct (sample field r); simpl; lia.
Qed.

(** Where the field of every answer is an integer, falsy or missing, the
    samples are taken from the answers whose field is truthy. *)
Lemma samples_usable (field : string) (results : list obj) :
  Forall (integral field) results ->
  length (samples field results) = length (usable field results).
Proof.
  unfold samples, usable.
  induction 1 as [|r rs Hr _ IH]; [reflexivity |].
  csimpl. unfold sample, integral in *.
  destruct (r !! field) as [[| | |z| | | | |]|]; simpl in *;
    try (rewrite Hr; exact IH); try exact IH; try discriminate.
  destruct (z =? 0); simpl; [exact IH | now rewrite IH].
Qed.

(** With no usable sample the reduction throws: [voteValue] has an answer
    for the empty array, [maxValue] has not. *)
Lemma summary_of_nothing (results : list obj) :
  voteValue [] = Some {| vvalue := 0; confidence := 1 |} /\
  maxValue [] = None /\
  seed_summary results [] = None /\ pool_summary results [] = None.
Proof. repeat split. Qed.

Variable this : config.

(** The summary of a seed round counts the responses and the usable ones. *)
Lemma seed_summary_counts (results : list obj) (values : list Z) (data : obj) :
  seed_summary results values = Some data ->
  data !! "cnt" = Some (len results) /\ data !! "ans" = Some (len values).
Proof.
  unfold seed_summary.
  destruct (voteValue values); [| discriminate].
  destruct (maxValue values); [| discriminate].
  destruct (minValue values); [| discriminate].
  simpl. intros [= <-]. split; reflexivity.
Qed.

(** The summary of a pool round counts the usable ones only. *)
Lemma pool_summary_counts (results : list obj) (values : list Z) (data : obj) :
  pool_summary results values = Some data ->
  data !! "cnt" = Some (len values) /\ data !! "ans" = None.
Proof.
  unfold pool_summary.
  destruct (voteValue values); [| discriminate].
  destruct (maxValue values); [| discriminate].
  destruct (minValue values); [| discriminate].
  simpl. intros [= <-]. split; reflexivity.
Qed.

(** What a round that misses the cache resolves, other than [{error}]. *)
Lemma aggregate_summary {X} (scope key field : string)
    (hit : X -> state -> option (promise obj))
    (miss : X -> state -> promise obj * state)
    (summary : list obj -> list Z -> option obj)
    (xs : list X) (now : Z) (st : state) (data : obj) :
  _get (PStr scope) (PStr scope) key now st = None ->
  (aggregate this scope key field hit miss summary xs now st).1 = Resolve data ->
  data !! "error" = None ->
  exists results,
    promise_all (round hit miss xs st).1 = Resolve results /\
    length results = length xs /\
    summary results (samples field results) = Some data.
Proof.
  intros Hmiss. unfold aggregate. rewrite Hmiss. cbv zeta.
  destruct (promise_all (round hit miss xs st).1) as [results | e] eqn:Eall.
  - destruct (summary results (samples field results)) as [d|] eqn:Es; simpl.
    + intros [= <-] _. exists results. split; [reflexivity |].
      split; [| exact Es].
      rewrite (promise_all_length _ _ Eall). apply round_length.
    + intros [= <-]. rewrite lookup_singleton_eq. discriminate.
  - simpl. intros [= <-]. rewrite lookup_singleton_eq. discriminate.
Qed.

(** An aggregator that finds a live entry under its key resolves it with
    [cached: true] and asks nobody. *)
Lemma aggregate_hit {X} (scope key field : string)
    (hit : X -> state -> option (promise obj))
    (miss : X -> state -> promise obj * state)
    (summary : list obj -> list Z -> option obj)
    (xs : list X) (now : Z) (st : state) (cached : obj) :
  _get (PStr scope) (PStr scope) key now st = Some cached ->
  aggregate this scope key field hit miss summary xs now st =
    (Resolve (<["cached" := VBool true]> cached), st).
Proof. intros H. unfold aggregate. now rewrite H. Qed.

(** A summary is stored for [cacheTimeout], the default of [_set]: the
    [ttl] that the aggregators compute is handed to [_get], which ignores
    it, and not to [_set]. *)
Lemma aggregate_stores_summary {X} (scope key field : string)
    (hit : X -> state -> option (promise obj))
    (miss : X -> state -> promise obj * state)
    (summary : list obj -> list Z -> option obj)
    (xs : list X) (now : Z) (st : state) (results : list obj) (data : obj) :
  _get (PStr scope) (PStr scope) key now st = None ->
  promise_all (round hit miss xs st).1 = Resolve results ->
  summary results (samples field results) = Some data ->
  let r := aggregate this scope key field hit miss summary xs now st in
  r.1 = Resolve data /\
  cache r.2 !! cache_key (PStr scope) (PStr scope) key =
    Some {| stored := Some data; expiresAt := now + cacheTimeout this |}.
Proof.
  intros Hmiss Hall Hsum. unfold aggregate. rewrite Hmiss. cbv zeta.
  rewrite Hall, Hsum. simpl. split; [reflexivity |].
  unfold cache_set. now rewrite lookup_insert_eq.
Qed.

End Aggregation.

(** C4 (the code departs from it): when a round that missed the cache has no
    usable sample, the aggregation resolves [{ error: TypeError }] and stores
    nothing, for the seed summary and for the pool summary alike; the vote
    [{ value: 0, confidence: 1 }] of the empty array is never delivered. *)
Theorem empty_round_resolves_error (this : config) {X} (scope key field : string)
    (hit : X -> state -> option (promise obj))
    (miss : X -> state -> promise obj * state)
    (xs : list X) (now : Z) (st : state) (results : list obj) :
  _get (PStr scope) (PStr scope) key now st = None ->
  promise_all (round hit miss xs st).1 = Resolve results ->
  samples field results = [] ->
  aggregate this scope key field hit miss seed_summary xs now st =
    (Resolve {[ "error" := VErr "TypeError" ]}, (round hit miss xs st).2) /\
  aggregate this scope key field hit miss pool_summary xs now st =
    (Resolve {[ "error" := VErr "TypeError" ]}, (round hit miss xs st).2).
Proof.
  intros Hmiss Hall Hnone. unfold aggregate.
  rewrite Hmiss. cbv zeta. rewrite Hall, Hnone. split; reflexivity.
Qed.

(** With every seed unreachable, [_getGlobalHeight] asks the six seeds and
    resolves the error payload; the cache stays empty. *)
Lemma empty_round_resolves_error_witness :
  let r := _getGlobalHeight (Self no_options) dead_daemon 0 fresh_state in
  r.1 = Resolve {[ "error" := VErr "TypeError" ]} /\
  cache r.2 = ∅ /\ length (calls r.2) = 6%nat.
Proof.
  intros r.
  edestruct (empty_round_resolves_error (Self no_options)
               "network" "globalheight" "height"
               (fun nd => rpc_hit "getheight" (host nd) (port nd) 0)
               (fun nd => rpc_miss (Self no_options) dead_daemon
                            "getheight" "getHeight" id (host nd) (port nd) 0)
               (seeds (Self no_options)) 0 fresh_state) as [Hseed _].
  - reflexivity.
  - reflexivity.
  - reflexivity.
  - unfold r, _getGlobalHeight. rewrite Hseed.
    split; [reflexivity |]. split; reflexivity.
Defined.

(** C8 (the code departs from it): the summary of a pool round, for heights
    and for difficulties, has [cnt] equal to the number of usable samples,
    whatever the number of pools asked, and has no [ans]. *)
Theorem pool_round_counts_usable_only (this : config)
    (pool_request : Z -> string -> reply (option obj))
    (now : Z) (st : state) (data : obj) :
  let asked :=
    round (fun pl => pool_hit (url pl) now)
          (fun pl => pool_miss this pool_request (url pl) now) (pools this) st in
  (_get (PStr "pool") (PStr "pool") "globalpoolheight" now st = None ->
   (_getGlobalPoolHeight this pool_request now st).1 = Resolve data ->
   data !! "error" = None ->
   exists results,
     promise_all asked.1 = Resolve results /\
     length results = length (pools this) /\
     data !! "cnt" = Some (len (samples "height" results)) /\
     data !! "ans" = None) /\
  (_get (PStr "pool") (PStr "pool") "globalpooldifficulty" now st = None ->
   (_getGlobalPoolDifficulty this pool_request now st).1 = Resolve data ->
   data !! "error" = None ->
   exists results,
     promise_all asked.1 = Resolve results /\
     length results = length (pools this) /\
     data !! "cnt" = Some (len (samples "difficulty" results)) /\
     data !! "ans" = None).
Proof.
  intros asked. split; intros Hmiss Hres Herr.
  - destruct (aggregate_summary this _ _ _ _ _ _ _ _ _ _ Hmiss Hres Herr)
      as (results & Hall & Hlen & Hsum).
    destruct (pool_summary_counts _ _ _ Hsum) as [Hcnt Hans].
    exists results. repeat split; assumption.
  - destruct (aggregate_summary this _ _ _ _ _ _ _ _ _ _ Hmiss Hres Herr)
      as (results & Hall & Hlen & Hsum).
    destruct (pool_summary_counts _ _ _ Hsum) as [Hcnt Hans].
    exists results. repeat split; assumption.
Qed.

(** Two pools are asked and one answers: [cnt] is 1 and [ans] is missing. *)
Lemma pool_round_counts_usable_only_witness :
  let this := Self two_pools in
  let r := _getGlobalPoolHeight this one_pool_up 0 fresh_state in
  length (pools this) = 2%nat /\
  exists data,
    r.1 = Resolve data /\
    data !! "cnt" = Some (VNum 1) /\ data !! "ans" = None.
Proof.
  intros this r. split; [reflexivity |].
  destruct (pool_round_counts_usable_only this one_pool_up 0 fresh_state
              (list_to_map
                 [ ("max", VNum 100); ("min", VNum 100); ("avg", VNum 100);
                   ("med", VQ (200 # 2)); ("cnt", VNum 1); ("con", VQ (1 # 1));
                   ("win", VNum 100); ("cached", VBool false) ]))
    as [Hheight _].
  destruct Hheight as (results & Hall & Hlen & Hcnt & Hans);
    [reflexivity | reflexivity | reflexivity |].
  eexists. split; [reflexivity |]. split; [reflexivity | exact Hans].
Defined.

(** Where the heights that the seeds report are integers, falsy or missing,
    the summary of a seed round has [cnt] equal to the number of seeds asked
    and [ans] equal to the number of answers with a truthy height, at most
    [cnt]. *)
Lemma seed_round_counts (this : config)
    (daemon : Z -> prim -> prim -> string -> reply obj)
    (now : Z) (st : state) (results : list obj) (data : obj) :
  _get (PStr "network") (PStr "network") "globalheight" now st = None ->
  promise_all
    (round (fun nd => rpc_hit "getheight" (host nd) (port nd) now)
       (fun nd => rpc_miss this daemon "getheight" "getHeight" id
                    (host nd) (port nd) now)
       (seeds this) st).1 = Resolve results ->
  Forall (integral "height") results ->
  (_getGlobalHeight this daemon now st).1 = Resolve data ->
  data !! "error" = None ->
  length results = length (seeds this) /\
  data !! "cnt" = Some (len (seeds this)) /\
  data !! "ans" = Some (len (usable "height" results)) /\
  (length (usable "height" results) <= length (seeds this))%nat.
Proof.
  intros Hmiss Hround Hint Hres Herr.
  destruct (aggregate_summary this _ _ _ _ _ _ _ _ _ _ Hmiss Hres Herr)
    as (results' & Hall & Hlen & Hsum).
  rewrite Hround in Hall. injection Hall as <-.
  destruct (seed_summary_counts _ _ _ Hsum) as [Hcnt Hans].
  pose proof (samples_usable "height" results Hint) as Hu.
  split; [exact Hlen |].
  split; [unfold len in *; now rewrite <- Hlen |].
  split; [rewrite Hans; unfold len; now rewrite Hu |].
  rewrite <- Hu, <- Hlen. apply samples_length.
Qed.

(** ** Block count *)

(** The default deviance threshold is 5. *)
Lemma maxDeviance_default : maxDeviance (Self no_options) = 5.
Proof. reflexivity. Qed.

(** When the answer about the default node carries no [network_height] (the
    error payload of an unreachable node carries none), the difference is
    [NaN], the comparison is false, and the mirror's answer is resolved
    unchecked. *)
Lemma block_count_unchecked_without_height (this : config)
    (daemon : Z -> prim -> prim -> string -> reply obj)
    (daemon_count : Z -> prim -> prim -> reply jsval)
    (mirror_count : Z -> reply obj)
    (opts : node) (now : Z) (st : state) (data block : obj) :
  (_getHeight this daemon PUndef PUndef now st).1 = Resolve data ->
  data !! "network_height" = None ->
  mirror_count now = Ok block ->
  (getBlockCount this daemon daemon_count mirror_count opts now st).1 =
    Resolve block.
Proof.
  intros Hh Hnh Hm. unfold getBlockCount. cbv zeta.
  rewrite Hh, Hnh, Hm. reflexivity.
Qed.

(** When the mirror fails, the live node answers. *)
Lemma block_count_without_mirror (this : config)
    (daemon : Z -> prim -> prim -> string -> reply obj)
    (daemon_count : Z -> prim -> prim -> reply jsval)
    (mirror_count : Z -> reply obj)
    (opts : node) (now : Z) (st : state) (e : string) :
  mirror_count now = Fail e ->
  getBlockCount this daemon daemon_count mirror_count opts now st =
    live_count daemon_count opts now
      (log (CallMirror "getBlockCount")
         (_getHeight this daemon PUndef PUndef now st).2).
Proof.
  intros Hm. unfold getBlockCount. cbv zeta.
  destruct (producer_never_rejects this daemon Height PUndef PUndef now st)
    as [v Hv].
  simpl in Hv. rewrite Hv, Hm. reflexivity.
Qed.



(** ** Requests with their path parameters *)




(** ** Instances of the lemmas above *)

(** [/block/-42] asks for the hash of the block at height -42. *)
Lemma decimal_is_height_witness :
  handler (Self no_options) GET_block_idx {[ "idx" := "-42" ]} =
    Invoke (Call_getBlockHash (default_node (Self no_options)) (VNum (-42))).
Proof.
  exact (proj2 (decimal_is_height (Self no_options) {[ "idx" := "-42" ]} (-42)
                  ltac:(discriminate) ltac:(reflexivity) eq_refl)).
Defined.

(** Of the six default seeds one answers, with height 100: the summary
    counts six asked and one sample. *)
Lemma seed_round_counts_witness :
  exists data,
    (_getGlobalHeight (Self no_options) lone_daemon 0 fresh_state).1
      = Resolve data /\
    data !! "cnt" = Some (VNum 6) /\ data !! "ans" = Some (VNum 1).
Proof.
  assert (E : exists data,
             (_getGlobalHeight (Self no_options) lone_daemon 0 fresh_state).1
               = Resolve data /\ data !! "error" = None)
    by (eexists; split; [vm_compute; reflexivity | reflexivity]).
  destruct E as (data & E & Herr).
  assert (Hall : promise_all
                   (round (fun nd => rpc_hit "getheight" (host nd) (port nd) 0)
                      (fun nd => rpc_miss (Self no_options) lone_daemon
                                   "getheight" "getHeight" id (host nd) (port nd) 0)
                      (seeds (Self no_options)) fresh_state).1
                 = Resolve lone_round) by (vm_compute; reflexivity).
  assert (Hi : Forall (integral "height") lone_round) by (repeat constructor).
  destruct (seed_round_counts (Self no_options) lone_daemon 0 fresh_state
              lone_round data eq_refl Hall Hi E Herr) as (_ & Hcnt & Hans & _).
  exists data. split; [exact E |]. split; [exact Hcnt | exact Hans].
Defined.

(** With the default node down and the mirror at 100, the mirror answers. *)
Lemma block_count_unchecked_without_height_witness :
  (getBlockCount (Self no_options) dead_daemon count_down (mirror_at 100)
     (default_node (Self no_options)) 0 fresh_state).1
  = Resolve (<["count" := VNum 100]> {[ "status" := VStr "OK" ]}).
Proof.
  eapply (block_count_unchecked_without_height (Self no_options) dead_daemon
            count_down (mirror_at 100)); reflexivity.
Defined.

(** With the mirror not ready, the live node answers 109. *)
Lemma block_count_without_mirror_witness :
  (getBlockCount (Self no_options) (steady_daemon 110 110) (count_at 109)
     mirror_off (default_node (Self no_options)) 0 fresh_state).1
  = Resolve (<["count" := VNum 109]> {[ "status" := VStr "OK" ]}).
Proof.
  rewrite (block_count_without_mirror (Self no_options) (steady_daemon 110 110)
             (count_at 109) mirror_off (default_node (Self no_options)) 0
             fresh_state "not ready" eq_refl).
  reflexivity.
Defined.

(** ** The vote and the statistics, whatever the order of the samples *)

Section Order.

Lemma pos_of_nat (n : nat) : (0 < n)%nat -> Z.pos (Pos.of_nat n) = Z.of_nat n.
Proof.
  intros H. destruct n as [|n]; [lia |].
  rewrite <- (Nat2Pos.id (S n)) at 2 by discriminate.
  now rewrite positive_nat_Z.
Qed.

Lemma extreme_unique (l l' : list Z) (a b : Z) (le : Z -> Z -> Prop) :
  (forall x y, le x y -> le y x -> x = y) ->
  Permutation l l' ->
  In a l -> Forall (le a) l -> In b l' -> Forall (le b) l' -> a = b.
Proof.
  intros Hanti Hp Ha Hla Hb Hlb. apply Hanti.
  - apply (proj1 (List.Forall_forall _ _) Hla).
    now apply (Permutation_in _ (Permutation_sym Hp)).
  - apply (proj1 (List.Forall_forall _ _) Hlb).
    now apply (Permutation_in _ Hp).
Qed.

Lemma maxValue_perm (l l' : list Z) :
  Permutation l l' -> maxValue l = maxValue l'.
Proof.
  intros Hp. destruct l as [|a l0].
  - now rewrite (Permutation_nil Hp).
  - destruct l' as [|b l0'];
      [apply Permutation_sym, Permutation_nil in Hp; discriminate |].
    destruct (maxValue_greatest (a :: l0) ltac:(discriminate)) as (m & -> & Hin & Hall).
    destruct (maxValue_greatest (b :: l0') ltac:(discriminate)) as (m' & -> & Hin' & Hall').
    f_equal.
    assert (Hanti : forall x y : Z, y <= x -> x <= y -> x = y) by (intros; lia).
    exact (extreme_unique _ _ m m' (fun x y => y <= x) Hanti Hp Hin Hall Hin' Hall').
Qed.

Lemma minValue_perm (l l' : list Z) :
  Permutation l l' -> minValue l = minValue l'.
Proof.
  intros Hp. destruct l as [|a l0].
  - now rewrite (Permutation_nil Hp).
  - destruct l' as [|b l0'];
      [apply Permutation_sym, Permutation_nil in Hp; discriminate |].
    destruct (minValue_least (a :: l0) ltac:(discriminate)) as (m & -> & Hin & Hall).
    destruct (minValue_least (b :: l0') ltac:(discriminate)) as (m' & -> & Hin' & Hall').
    f_equal.
    assert (Hanti : forall x y : Z, x <= y -> y <= x -> x = y) by (intros; lia).
    exact (extreme_unique _ _ m m' Z.le Hanti Hp Hin Hall Hin' Hall').
Qed.

Lemma sum_perm (l l' : list Z) : Permutation l l' -> sum l = sum l'.
Proof.
  induction 1 as [| x l l' _ IH | x y l | l l' l'' _ IH1 _ IH2].
  - reflexivity.
  - rewrite !sum_cons. lia.
  - rewrite !sum_cons. lia.
  - congruence.
Qed.

Lemma sorted_perm_eq (l l' : list Z) :
  Sorted Z.le l -> Sorted Z.le l' -> Permutation l l' -> l = l'.
Proof.
  intros Hs Hs'.
  apply Sorted_StronglySorted in Hs; [| intros x y z; lia].
  apply Sorted_StronglySorted in Hs'; [| intros x y z; lia].
  revert l' Hs'. induction Hs as [|a l Hs IH Ha]; intros l' Hs' Hp.
  - now rewrite (Permutation_nil Hp).
  - destruct Hs' as [|b l' Hs' Hb];
      [apply Permutation_sym, Permutation_nil in Hp; discriminate |].
    assert (a = b).
    { assert (Hanti : forall x y : Z, x <= y -> y <= x -> x = y) by (intros; lia).
      apply (extreme_unique (a :: l) (b :: l') a b Z.le Hanti Hp).
      - now left.
      - constructor; [lia | exact Ha].
      - now left.
      - constructor; [lia | exact Hb]. }
    subst b. f_equal. apply IH; [exact Hs' |].
    exact (Permutation_cons_inv Hp).
Qed.

Lemma sort_asc_perm_eq (l l' : list Z) :
  Permutation l l' -> sort_asc l = sort_asc l'.
Proof.
  intros Hp. apply sorted_perm_eq; try apply sort_asc_sorted.
  rewrite <- (sort_asc_perm l), <- (sort_asc_perm l'). exact Hp.
Qed.

Lemma count_occ_perm (l l' : list Z) (v : Z) :
  Permutation l l' -> count_occ Z.eq_dec l v = count_occ Z.eq_dec l' v.
Proof.
  induction 1 as [| x l l' _ IH | x y l | l l' l'' _ IH1 _ IH2]; simpl.
  - reflexivity.
  - destruct (Z.eq_dec x v); now rewrite IH.
  - destruct (Z.eq_dec x v), (Z.eq_dec y v); reflexivity.
  - congruence.
Qed.

End Order.

(** For a non-empty sample list [voteValue] returns without throwing; its
    value is the greatest sample, the one [maxValue] returns, and its
    confidence is the share of the samples equal to it, above 0 and at most
    1. *)
Theorem vote_is_maximum_with_share (arr : list Z) :
  arr <> [] ->
  exists v,
    voteValue arr = Some v /\
    maxValue arr = Some (vvalue v) /\
    In (vvalue v) arr /\ Forall (fun x => x <= vvalue v) arr /\
    (confidence v ==
       inject_Z (Z.of_nat (count_occ Z.eq_dec arr (vvalue v)))
       / inject_Z (Z.of_nat (length arr)))%Q /\
    (0 < confidence v <= 1)%Q.
Proof.
  intros Hne.
  destruct (voteValue_takes_greatest arr Hne) as (mx & Emx & Ev).
  destruct (maxValue_greatest arr Hne) as (mx' & Emx' & Hin & Hall).
  assert (mx' = mx) by congruence. subst mx'.
  assert (Hlen : (0 < length arr)%nat) by (destruct arr; [congruence | simpl; lia]).
  assert (Hc : (0 < count_occ Z.eq_dec arr mx)%nat)
    by (now apply (count_occ_In Z.eq_dec)).
  pose proof (count_occ_bound Z.eq_dec mx arr) as Hb.
  pose proof (pos_of_nat (length arr) Hlen) as Hp.
  eexists. split; [exact Ev |]. simpl.
  split; [exact Emx |]. split; [exact Hin |]. split; [exact Hall |].
  split.
  - rewrite <- Hp. unfold Qeq, Qdiv, Qmult, Qinv, inject_Z. simpl. lia.
  - unfold Qlt, Qle. simpl. rewrite Hp. lia.
Qed.

(** On [5, 5, 7] the vote is 7 with a third of the samples. *)
Lemma vote_is_maximum_with_share_witness :
  exists v,
    voteValue [5; 5; 7] = Some v /\ vvalue v = 7 /\ (confidence v == 1 # 3)%Q.
Proof.
  destruct (vote_is_maximum_with_share [5; 5; 7] ltac:(discriminate))
    as (v & Ev & Emx & _ & _ & Hc & _).
  exists v. split; [exact Ev |].
  assert (E7 : vvalue v = 7)
    by (change (maxValue [5; 5; 7]) with (Some 7) in Emx; congruence).
  split; [exact E7 |]. rewrite Hc, E7. reflexivity.
Defined.

(** The vote, the extremes and the median of a sample list do not depend on
    the order of the samples, hence not on the order of the seeds or pools;
    nor does the mean, as long as the absolute values of the samples sum to
    less than 2^53, so that the accumulation is exact. *)
Theorem summary_order_independent (arr arr' : list Z) :
  Permutation arr arr' ->
  voteValue arr = voteValue arr' /\
  maxValue arr = maxValue arr' /\ minValue arr = minValue arr' /\
  medValue arr = medValue arr' /\
  (magnitude arr < 2 ^ 53 ->
   avgValue (map inject_Z arr) = avgValue (map inject_Z arr')).
Proof.
  intros Hp. pose proof (Permutation_length Hp) as Hlen.
  split; [| split; [now apply maxValue_perm | split; [now apply minValue_perm |]]].
  - destruct arr as [|a l].
    + now rewrite (Permutation_nil Hp).
    + destruct arr' as [|b l'];
        [apply Permutation_sym, Permutation_nil in Hp; discriminate |].
      destruct (voteValue_takes_greatest (a :: l) ltac:(discriminate))
        as (mx & Emx & ->).
      destruct (voteValue_takes_greatest (b :: l') ltac:(discriminate))
        as (mx' & Emx' & ->).
      rewrite (maxValue_perm _ _ Hp) in Emx. assert (mx' = mx) by congruence.
      subst mx'. now rewrite (count_occ_perm _ _ mx Hp), Hlen.
  - split.
    + unfold medValue. now rewrite (sort_asc_perm_eq _ _ Hp).
    + intros Hm.
      assert (Hm' : magnitude arr' < 2 ^ 53).
      { unfold magnitude in *.
        now rewrite <- (sum_perm _ _ (Permutation_map Z.abs Hp)). }
      rewrite (avgValue_of_sum arr Hm), (avgValue_of_sum arr' Hm').
      now rewrite (sum_perm _ _ Hp), Hlen.
Qed.

(** The samples 7, 5, 5 and 5, 5, 7 have the same vote, median and mean. *)
Lemma summary_order_independent_witness :
  voteValue [7; 5; 5] = voteValue [5; 5; 7] /\
  medValue [7; 5; 5] = medValue [5; 5; 7] /\
  avgValue (map inject_Z [7; 5; 5]) = avgValue (map inject_Z [5; 5; 7]).
Proof.
  assert (Hp : Permutation [7; 5; 5] [5; 5; 7]).
  { apply perm_trans with (l' := [5; 7; 5]); [apply perm_swap |].
    apply perm_skip, perm_swap. }
  destruct (summary_order_independent _ _ Hp) as (Hv & _ & _ & Hm & Ha).
  split; [exact Hv |]. split; [exact Hm |].
  apply Ha. vm_compute. reflexivity.
Defined.

(** Beyond that bound the mean depends on the order in which the samples
    are added. *)
Lemma mean_depends_on_order :
  avgValue (map inject_Z [9007199254740991; 2; 1]) = VNum 3002399751580331 /\
  avgValue (map inject_Z [2; 1; 9007199254740991]) = VNum 3002399751580332.
Proof. split; vm_compute; reflexivity. Qed.

(** ** The cache adapter *)


(** A write under one key does not change what is read under another. *)
Theorem set_leaves_other_keys (this : config) (nd pt nd' pt' : prim)
    (method method' : string) (v : option obj) (ttl : option Z)
    (now now' : Z) (st : state) :
  cache_key nd pt method <> cache_key nd' pt' method' ->
  _get nd' pt' method' now' (_set this nd pt method v ttl now st) =
  _get nd' pt' method' now' st.
Proof.
  intros Hne. unfold _get, _set, cache_get, cache_set. simpl.
  now rewrite lookup_insert_ne.
Qed.

(** Storing the height of node "a" leaves the read of its peers a miss. *)
Lemma set_leaves_other_keys_witness :
  _get (PStr "a") PUndef "getpeers" 0
    (_set (Self no_options) (PStr "a") PUndef "getheight"
       (Some {[ "height" := VNum 1 ]}) None 0 fresh_state) = None.
Proof.
  rewrite (set_leaves_other_keys (Self no_options) (PStr "a") PUndef (PStr "a")
             PUndef "getheight" "getpeers") by discriminate.
  reflexivity.
Defined.

(** ** The configuration *)

Lemma num_or_nonzero (o : option Z) (dflt : Z) : dflt <> 0 -> num_or o dflt <> 0.
Proof.
  intros H. unfold num_or. destruct o as [z|]; [| exact H].
  destruct (z =? 0) eqn:E; [exact H | now apply Z.eqb_neq].
Qed.

Lemma str_or_nonempty (o : option string) (dflt : string) :
  dflt <> "" -> str_or o dflt <> "".
Proof.
  intros H. unfold str_or. destruct o as [s|]; [| exact H].
  destruct (String.eqb_spec s ""); [exact H | assumption].
Qed.

(** Whatever the options, the constructor leaves no falsy setting behind: a
    [cacheTimeout] or [maxDeviance] of 0 is replaced by the default, and
    every single-node command addresses a node with a truthy host and port. *)
Theorem Self_settings_truthy (opts : options) (nd pt : prim) :
  cacheTimeout (Self opts) <> 0 /\ maxDeviance (Self opts) <> 0 /\
  truthy_prim (host (rpc_of (Self opts) nd pt)) = true /\
  truthy_prim (port (rpc_of (Self opts) nd pt)) = true.
Proof.
  split; [now apply num_or_nonzero |]. split; [now apply num_or_nonzero |].
  unfold rpc_of, or_prim. simpl. split.
  - destruct (truthy_prim nd) eqn:E; [exact E |].
    unfold truthy_prim. simpl.
    destruct (String.eqb_spec (str_or (opt_defaultHost opts) "public.turtlenode.io") "")
      as [E' |]; [| reflexivity].
    now apply str_or_nonempty in E'.
  - destruct (truthy_prim pt) eqn:E; [exact E |].
    unfold truthy_prim. simpl.
    destruct (num_or (opt_defaultPort opts) 11898 =? 0) eqn:E'; [| reflexivity].
    apply Z.eqb_eq in E'. now apply num_or_nonzero in E'.
Qed.

(** ** The hash rate of [_getInfo] *)



(** A difficulty that arrives as a string is converted to a number before
    the division, and a missing one gives no number. *)
Lemma hash_rate_converts :
  with_hash_rate {[ "difficulty" := VStr "300" ]} !! "globalHashRate"
    = Some (VNum 10) /\
  with_hash_rate {[ "difficulty" := VStr "0x12c" ]} !! "globalHashRate"
    = Some (VNum 10) /\
  with_hash_rate {[ "difficulty" := VStr "much" ]} !! "globalHashRate"
    = Some VNaN /\
  with_hash_rate {[ "height" := VNum 7 ]} !! "globalHashRate" = Some VNaN.
Proof. repeat split; vm_compute; reflexivity. Qed.

(** ** Rounds of the aggregators *)

Section Rounds.

Variable this : config.

Lemma round_calls {X} (hit : X -> state -> option (promise obj))
    (miss : X -> state -> promise obj * state) (c : X -> call)
    (xs : list X) (st : state) :
  (forall x s, calls (miss x s).2 = calls s ++ [c x]) ->
  calls (round hit miss xs st).2 =
    calls st ++
    map c (List.filter (fun x => match hit x st with Some _ => false | None => true end) xs).
Proof.
  intros Hmiss. unfold round.
  assert (G : forall acc : list (promise obj) * state,
            calls (fold_left
              (fun acc x =>
                 match hit x st with
                 | Some p => (acc.1 ++ [p], acc.2)
                 | None => let r := miss x acc.2 in (acc.1 ++ [r.1], r.2)
                 end) xs acc).2 =
            calls acc.2 ++
            map c (List.filter
                     (fun x => match hit x st with Some _ => false | None => true end) xs)).
  { induction xs as [|x xs IH]; intros acc; simpl; [now rewrite app_nil_r |].
    rewrite IH. destruct (hit x st); simpl; [reflexivity |].
    rewrite Hmiss, <- app_assoc. reflexivity. }
  now rewrite G.
Qed.

Lemma rpc_miss_calls (daemon : Z -> prim -> prim -> string -> reply obj)
    (key_name rpc_name : string) (extra : obj -> obj) (nd pt : prim)
    (now : Z) (s : state) :
  calls (rpc_miss this daemon key_name rpc_name extra nd pt now s).2 =
    calls s ++ [CallDaemon (or_prim nd (defaultHost this))
                           (or_prim pt (defaultPort this)) rpc_name].
Proof.
  unfold rpc_miss. cbv zeta. destruct (daemon now _ _ _); reflexivity.
Qed.

Lemma pool_miss_calls (pool_request : Z -> string -> reply (option obj))
    (uri : string) (now : Z) (s : state) :
  calls (pool_miss this pool_request uri now s).2 = calls s ++ [CallPool uri].
Proof.
  unfold pool_miss. cbv zeta. destruct (pool_request now uri) as [[n|]|]; reflexivity.
Qed.

(** The log of an aggregation that misses the cache is the log of its
    round. *)
Lemma aggregate_calls {X} (scope key field : string)
    (hit : X -> state -> option (promise obj))
    (miss : X -> state -> promise obj * state)
    (summary : list obj -> list Z -> option obj)
    (xs : list X) (now : Z) (st : state) :
  _get (PStr scope) (PStr scope) key now st = None ->
  calls (aggregate this scope key field hit miss summary xs now st).2 =
  calls (round hit miss xs st).2.
Proof.
  intros H. unfold aggregate. rewrite H. cbv zeta.
  destruct (promise_all _); [| reflexivity].
  destruct (summary _ _); reflexivity.
Qed.

(** The aggregators always resolve. *)
Lemma aggregate_resolves {X} (scope key field : string)
    (hit : X -> state -> option (promise obj))
    (miss : X -> state -> promise obj * state)
    (summary : list obj -> list Z -> option obj)
    (xs : list X) (now : Z) (st : state) :
  exists v, (aggregate this scope key field hit miss summary xs now st).1 = Resolve v.
Proof.
  unfold aggregate. destruct (_get _ _ _ _ _); [simpl; eauto |]. cbv zeta.
  destruct (promise_all _); [| simpl; eauto].
  destruct (summary _ _); simpl; eauto.
Qed.

Lemma holds_set (key : string) (nd pt : prim) (method : string) (data : obj)
    (now : Z) (s : state) :
  holds this key now s \/ key = cache_key nd pt method ->
  holds this key now (_set this nd pt method (Some data) None now s).
Proof.
  intros H. unfold holds, _set, cache_set. simpl.
  destruct (decide (cache_key nd pt method = key)) as [<- | Hne].
  - rewrite lookup_insert_eq. eauto.
  - rewrite lookup_insert_ne by exact Hne.
    destruct H as [H | ->]; [exact H | congruence].
Qed.

Lemma holds_get (nd pt : prim) (method : string) (now now' : Z) (s : state) :
  holds this (cache_key nd pt method) now s ->
  now' <= now + cacheTimeout this ->
  exists o, _get nd pt method now' s = Some o.
Proof.
  intros [o Ho] Hle. exists o. unfold _get, cache_get. rewrite Ho. simpl.
  destruct (now' <=? now + cacheTimeout this) eqn:E;
    [reflexivity | apply Z.leb_gt in E; lia].
Qed.

Lemma rpc_miss_holds (daemon : Z -> prim -> prim -> string -> reply obj)
    (key : string) (key_name rpc_name : string) (extra : obj -> obj)
    (nd pt : prim) (now : Z) (s : state) :
  holds this key now s \/
  (key = cache_key nd pt key_name /\
   exists data, daemon now (or_prim nd (defaultHost this))
                  (or_prim pt (defaultPort this)) rpc_name = Ok data) ->
  holds this key now (rpc_miss this daemon key_name rpc_name extra nd pt now s).2.
Proof.
  intros H. unfold rpc_miss. cbv zeta. unfold rpc_of. simpl.
  destruct (daemon now _ _ _) as [data | e] eqn:E; simpl.
  - apply holds_set. destruct H as [H | [-> _]]; [left; exact H | now right].
  - destruct H as [H | [_ [data Hd]]]; [exact H | congruence].
Qed.

(** After a round of single-node commands, every seed that missed the cache
    and was answered has a live entry. *)
Lemma round_holds (daemon : Z -> prim -> prim -> string -> reply obj)
    (key_name rpc_name : string) (extra : obj -> obj)
    (xs : list node) (now : Z) (st : state) (nd : node) :
  In nd xs ->
  _get (host nd) (port nd) key_name now st = None ->
  (exists data, daemon now (or_prim (host nd) (defaultHost this))
                  (or_prim (port nd) (defaultPort this)) rpc_name = Ok data) ->
  holds this (cache_key (host nd) (port nd) key_name) now
    (round (fun x => rpc_hit key_name (host x) (port x) now)
           (fun x => rpc_miss this daemon key_name rpc_name extra (host x) (port x) now)
           xs st).2.
Proof.
  intros Hin Hmiss Hok. unfold round.
  set (key := cache_key (host nd) (port nd) key_name).
  set (step := fun (acc : list (promise obj) * state) (x : node) =>
         match rpc_hit key_name (host x) (port x) now st with
         | Some p => (acc.1 ++ [p], acc.2)
         | None =>
             let r := rpc_miss this daemon key_name rpc_name extra
                        (host x) (port x) now acc.2 in
             (acc.1 ++ [r.1], r.2)
         end).
  assert (Hstep : forall acc y,
            holds this key now acc.2 \/ y = nd ->
            holds this key now (step acc y).2).
  { intros acc y H. unfold step.
    destruct (rpc_hit key_name (host y) (port y) now st) as [p|] eqn:Eh; simpl.
    - destruct H as [H | ->]; [exact H |].
      unfold rpc_hit in Eh. rewrite Hmiss in Eh. discriminate.
    - apply rpc_miss_holds. destruct H as [H | ->]; [now left |].
      right. split; [reflexivity | exact Hok]. }
  clearbody step.
  assert (G : forall ys acc,
            holds this key now acc.2 \/ In nd ys ->
            holds this key now (fold_left step ys acc).2).
  { induction ys as [|y ys IH]; intros acc H; simpl.
    - destruct H as [H | []]. exact H.
    - apply IH. destruct H as [H | [-> | H]].
      + left. apply Hstep. now left.
      + left. apply Hstep. now right.
      + now right. }
  apply G. now right.
Qed.

(** After a round of single-node commands, the entry of a seed that missed
    the cache and was answered holds its own annotated answer, as long as no
    other element of the round writes under the same key. *)
Lemma round_stores (daemon : Z -> prim -> prim -> string -> reply obj)
    (key_name rpc_name : string) (extra : obj -> obj)
    (xs : list node) (now : Z) (st : state) (nd : node) (data : obj) :
  In nd xs ->
  _get (host nd) (port nd) key_name now st = None ->
  (forall nd', In nd' xs ->
     cache_key (host nd') (port nd') key_name
       = cache_key (host nd) (port nd) key_name -> nd' = nd) ->
  daemon now (or_prim (host nd) (defaultHost this))
    (or_prim (port nd) (defaultPort this)) rpc_name = Ok data ->
  cache (round (fun x => rpc_hit key_name (host x) (port x) now)
           (fun x => rpc_miss this daemon key_name rpc_name extra (host x) (port x) now)
           xs st).2 !! cache_key (host nd) (port nd) key_name =
  Some {| stored := Some (extra (<["node" := node_id (rpc_of this (host nd) (port nd))]>
                                   (<["cached" := VBool false]> data)));
          expiresAt := now + cacheTimeout this |}.
Proof.
  intros Hin Hmiss Hkeys Hok. unfold round.
  set (key := cache_key (host nd) (port nd) key_name) in *.
  set (e := {| stored := Some (extra (<["node" := node_id (rpc_of this (host nd) (port nd))]>
                                        (<["cached" := VBool false]> data)));
               expiresAt := now + cacheTimeout this |}).
  set (step := fun (acc : list (promise obj) * state) (x : node) =>
         match rpc_hit key_name (host x) (port x) now st with
         | Some p => (acc.1 ++ [p], acc.2)
         | None =>
             let r := rpc_miss this daemon key_name rpc_name extra
                        (host x) (port x) now acc.2 in
             (acc.1 ++ [r.1], r.2)
         end).
  assert (Hstep : forall acc y,
            In y xs ->
            cache acc.2 !! key = Some e \/ y = nd ->
            cache (step acc y).2 !! key = Some e).
  { intros acc y Hy H. unfold step.
    destruct (rpc_hit key_name (host y) (port y) now st) as [p|] eqn:Eh; simpl.
    - destruct H as [H | ->]; [exact H |].
      unfold rpc_hit in Eh. rewrite Hmiss in Eh. discriminate.
    - unfold rpc_miss. cbv zeta.
      destruct (decide (cache_key (host y) (port y) key_name = key)) as [Hk | Hne].
      + rewrite (Hkeys y Hy Hk). unfold rpc_of at 2 3. simpl. rewrite Hok. simpl.
        unfold cache_set. fold key. now rewrite lookup_insert_eq.
      + destruct H as [H | ->]; [| now contradiction Hne].
        destruct (daemon now (host (rpc_of this (host y) (port y))) _ _)
          as [d | err]; simpl; [| exact H].
        unfold cache_set. now rewrite lookup_insert_ne. }
  clearbody step.
  assert (G : forall ys acc,
            (forall y, In y ys -> In y xs) ->
            cache acc.2 !! key = Some e \/ In nd ys ->
            cache (fold_left step ys acc).2 !! key = Some e).
  { induction ys as [|y ys IH]; intros acc Hsub H; simpl.
    - destruct H as [H | []]. exact H.
    - apply IH; [intros z Hz; apply Hsub; now right |].
      destruct H as [H | [-> | H]].
      + left. apply Hstep; [apply Hsub; now left | now left].
      + left. apply Hstep; [apply Hsub; now left | now right].
      + now right. }
  apply G; [auto | now right].
Qed.

(** No key of a height entry is the key of the summary of the seed heights:
    the one ends in [getheight], the other in [globalheight]. *)
Lemma height_key_not_summary (nd pt : prim) :
  cache_key nd pt "getheight"
    <> cache_key (PStr "network") (PStr "network") "globalheight".
Proof.
  unfold cache_key. rewrite <- append_assoc.
  generalize (format_s nd +:+ format_s pt). intros x.
  change (format_s (PStr "network") +:+ format_s (PStr "network") +:+ "globalheight")
    with "networknetworkglobalheight".
  repeat (destruct x as [|? x];
          [intros E; vm_compute in E; discriminate |
           rewrite append_cons; intros E; injection E as _ E; revert E]).
  destruct x; discriminate.
Qed.

End Rounds.

(** An aggregation of seed heights that misses the cache asks, once each and
    in the order of the list, exactly the seeds that have no live height entry
    of their own, whatever those or the others answer, and nobody else. *)
Theorem global_height_asks_uncached_seeds (this : config)
    (daemon : Z -> prim -> prim -> string -> reply obj) (now : Z) (st : state) :
  _get (PStr "network") (PStr "network") "globalheight" now st = None ->
  calls (_getGlobalHeight this daemon now st).2 =
    calls st ++
    map (seed_call this "getHeight")
        (List.filter (uncached "getheight" now st) (seeds this)).
Proof.
  intros Hmiss. unfold _getGlobalHeight.
  rewrite aggregate_calls by exact Hmiss.
  rewrite (round_calls _ _ (seed_call this "getHeight")).
  - f_equal. f_equal. apply filter_ext. intros nd.
    unfold uncached, rpc_hit.
    now destruct (_get (host nd) (port nd) "getheight" now st).
  - intros x s. apply rpc_miss_calls.
Qed.

(** From an empty cache the six default seeds are asked, the last one being
    down or not. *)
Lemma global_height_asks_uncached_seeds_witness :
  calls (_getGlobalHeight (Self no_options) dead_daemon 0 fresh_state).2 =
    map (seed_call (Self no_options) "getHeight") backupSeeds.
Proof.
  rewrite (global_height_asks_uncached_seeds (Self no_options) dead_daemon 0
             fresh_state eq_refl).
  reflexivity.
Defined.

(** After an aggregation of seed heights that missed the cache, a seed that
    was asked and answered, and whose cache key no other seed shares, is
    served its own answer from the cache, annotated and with [cached: true],
    without a call, until [cacheTimeout] has passed. *)
Theorem global_round_warms_seed_cache (this : config)
    (daemon : Z -> prim -> prim -> string -> reply obj)
    (now : Z) (st : state) (nd : node) (data : obj) :
  _get (PStr "network") (PStr "network") "globalheight" now st = None ->
  In nd (seeds this) ->
  _get (host nd) (port nd) "getheight" now st = None ->
  (forall nd', In nd' (seeds this) ->
     cache_key (host nd') (port nd') "getheight"
       = cache_key (host nd) (port nd) "getheight" -> nd' = nd) ->
  daemon now (or_prim (host nd) (defaultHost this))
    (or_prim (port nd) (defaultPort this)) "getHeight" = Ok data ->
  forall daemon' now',
    now' <= now + cacheTimeout this ->
    _getHeight this daemon' (host nd) (port nd) now'
      (_getGlobalHeight this daemon now st).2 =
    (Resolve (<["cached" := VBool true]>
                (annotated Height (rpc_of this (host nd) (port nd)) data)),
     (_getGlobalHeight this daemon now st).2).
Proof.
  intros Hmiss Hin Hnd Hkeys Hok daemon' now' Hnow.
  pose proof (round_stores this daemon "getheight" "getHeight" id (seeds this)
                now st nd data Hin Hnd Hkeys Hok) as Hround.
  assert (Hfinal : cache (_getGlobalHeight this daemon now st).2
                     !! cache_key (host nd) (port nd) "getheight" =
                   Some {| stored := Some (annotated Height
                                             (rpc_of this (host nd) (port nd)) data);
                           expiresAt := now + cacheTimeout this |}).
  { unfold _getGlobalHeight, aggregate. rewrite Hmiss. cbv zeta.
    destruct (promise_all _); [| exact Hround].
    destruct (seed_summary _ _); [| exact Hround].
    simpl. unfold cache_set. rewrite lookup_insert_ne; [exact Hround |].
    intros E. symmetry in E. revert E. apply height_key_not_summary. }
  apply (run_hit this daemon' Height).
  unfold _get, cache_get. simpl. rewrite Hfinal. simpl.
  destruct (now' <=? now + cacheTimeout this) eqn:E;
    [reflexivity | apply Z.leb_gt in E; lia].
Qed.

(** After a round at time 0 with every seed up, [us-east] is served its
    height of 100 from the cache at time 30 although the daemon is gone. *)
Lemma global_round_warms_seed_cache_witness :
  let after := (_getGlobalHeight (Self no_options) (steady_daemon 100 100) 0
                  fresh_state).2 in
  _getHeight (Self no_options) dead_daemon (PStr "us-east.turtlenode.io")
    (PNum 11898) 30 after
  = (Resolve (<["cached" := VBool true]>
                (annotated Height
                   {| host := PStr "us-east.turtlenode.io"; port := PNum 11898 |}
                   (<["height" := VNum 100]> {[ "network_height" := VNum 100 ]}))),
     after).
Proof.
  intros after.
  apply (global_round_warms_seed_cache (Self no_options) (steady_daemon 100 100)
           0 fresh_state
           {| host := PStr "us-east.turtlenode.io"; port := PNum 11898 |}
           (<["height" := VNum 100]> {[ "network_height" := VNum 100 ]}));
    [reflexivity | now left | reflexivity | | reflexivity | simpl; lia].
  intros nd' Hin Hk. simpl in Hin.
  repeat (destruct Hin as [<- | Hin];
          [first [reflexivity | vm_compute in Hk; discriminate] |]).
  destruct Hin.
Defined.

(** ** Summaries and pools in the cache *)

Section Summaries.

Variable this : config.

Lemma aggregate_second_read {X X'} (scope key field field' : string)
    (hit : X -> state -> option (promise obj))
    (miss : X -> state -> promise obj * state)
    (hit' : X' -> state -> option (promise obj))
    (miss' : X' -> state -> promise obj * state)
    (summary summary' : list obj -> list Z -> option obj)
    (xs : list X) (xs' : list X') (now now' : Z) (st : state) (data : obj) :
  _get (PStr scope) (PStr scope) key now st = None ->
  (aggregate this scope key field hit miss summary xs now st).1 = Resolve data ->
  data !! "error" = None ->
  now' <= now + cacheTimeout this ->
  aggregate this scope key field' hit' miss' summary' xs' now'
    (aggregate this scope key field hit miss summary xs now st).2 =
  (Resolve (<["cached" := VBool true]> data),
   (aggregate this scope key field hit miss summary xs now st).2).
Proof.
  intros Hmiss Hres Herr Hnow.
  destruct (aggregate_summary this _ _ _ _ _ _ _ _ _ _ Hmiss Hres Herr)
    as (results & Hall & _ & Hsum).
  apply aggregate_hit.
  unfold aggregate. rewrite Hmiss. cbv zeta. rewrite Hall, Hsum. simpl.
  apply _get_set. simpl. exact Hnow.
Qed.

Lemma filter_all {A} (f : A -> bool) (l : list A) :
  (forall x, In x l -> f x = true) -> List.filter f l = l.
Proof.
  induction l as [|a l IH]; intros H; simpl; [reflexivity |].
  rewrite (H a (or_introl eq_refl)). f_equal. apply IH.
  intros x Hx. apply H. now right.
Qed.

End Summaries.

(** A summary that an aggregator resolved after a miss is what each later
    call of that aggregator resolves, with [cached: true] and without asking
    anybody, as long as no more than [cacheTimeout] has passed; the shorter
    [ttl] that the aggregators compute plays no part. *)
Theorem summary_read_through (this : config)
    (daemon : Z -> prim -> prim -> string -> reply obj)
    (pool_request : Z -> string -> reply (option obj))
    (now : Z) (st : state) (data : obj) :
  data !! "error" = None ->
  (_get (PStr "network") (PStr "network") "globalheight" now st = None ->
   (_getGlobalHeight this daemon now st).1 = Resolve data ->
   forall daemon' now', now' <= now + cacheTimeout this ->
     _getGlobalHeight this daemon' now' (_getGlobalHeight this daemon now st).2 =
       (Resolve (<["cached" := VBool true]> data),
        (_getGlobalHeight this daemon now st).2)) /\
  (_get (PStr "network") (PStr "network") "globaldifficulty" now st = None ->
   (_getGlobalDifficulty this daemon now st).1 = Resolve data ->
   forall daemon' now', now' <= now + cacheTimeout this ->
     _getGlobalDifficulty this daemon' now' (_getGlobalDifficulty this daemon now st).2 =
       (Resolve (<["cached" := VBool true]> data),
        (_getGlobalDifficulty this daemon now st).2)) /\
  (_get (PStr "pool") (PStr "pool") "globalpoolheight" now st = None ->
   (_getGlobalPoolHeight this pool_request now st).1 = Resolve data ->
   forall pool_request' now', now' <= now + cacheTimeout this ->
     _getGlobalPoolHeight this pool_request' now'
       (_getGlobalPoolHeight this pool_request now st).2 =
       (Resolve (<["cached" := VBool true]> data),
        (_getGlobalPoolHeight this pool_request now st).2)) /\
  (_get (PStr "pool") (PStr "pool") "globalpooldifficulty" now st = None ->
   (_getGlobalPoolDifficulty this pool_request now st).1 = Resolve data ->
   forall pool_request' now', now' <= now + cacheTimeout this ->
     _getGlobalPoolDifficulty this pool_request' now'
       (_getGlobalPoolDifficulty this pool_request now st).2 =
       (Resolve (<["cached" := VBool true]> data),
        (_getGlobalPoolDifficulty this pool_request now st).2)).
Proof.
  intros Herr. repeat split; intros Hmiss Hres d' now' Hnow;
    exact (aggregate_second_read this _ _ _ _ _ _ _ _ _ _ _ _ _ _ _ _
             Hmiss Hres Herr Hnow).
Qed.

(** The height summary of time 0 is still served at time 30, past the 10
    seconds that the aggregator computes, with every seed gone. *)
Lemma summary_read_through_witness :
  let first := _getGlobalHeight (Self no_options) (steady_daemon 100 100) 0
                 fresh_state in
  exists data,
    first.1 = Resolve data /\
    _getGlobalHeight (Self no_options) dead_daemon 30 first.2 =
      (Resolve (<["cached" := VBool true]> data), first.2).
Proof.
  assert (E : exists data,
             (_getGlobalHeight (Self no_options) (steady_daemon 100 100) 0
                fresh_state).1 = Resolve data /\ data !! "error" = None)
    by (eexists; split; [vm_compute; reflexivity | reflexivity]).
  intros first. destruct E as (data & E & Herr).
  exists data. split; [exact E |].
  destruct (summary_read_through (Self no_options) (steady_daemon 100 100)
              pools_down 0 fresh_state data Herr) as (H & _).
  apply (H eq_refl E). simpl. lia.
Defined.

(** [_getPoolNetworkInfo] resolves the [network] member as it is and stores
    [undefined] under its key, so the key reads as a miss at any later time
    and every call asks the pool again. *)
Theorem pool_info_never_cached (this : config)
    (pool_request : Z -> string -> reply (option obj))
    (uri : string) (now : Z) (st : state) (network : obj) :
  _get (PStr "pool") (PStr uri) "networkInfo" now st = None ->
  pool_request now uri = Ok (Some network) ->
  let r := _getPoolNetworkInfo this pool_request uri now st in
  r.1 = Resolve network /\
  (forall now', _get (PStr "pool") (PStr uri) "networkInfo" now' r.2 = None) /\
  (forall pool_request' now',
     calls (_getPoolNetworkInfo this pool_request' uri now' r.2).2 =
       calls st ++ [CallPool uri; CallPool uri]).
Proof.
  intros Hmiss Hok r.
  assert (E : r = (Resolve network,
                   _set this (PStr "pool") (PStr uri) "networkInfo" None None now
                     (log (CallPool uri) st))).
  { unfold r, _getPoolNetworkInfo, pool_hit, pool_miss. rewrite Hmiss.
    cbv zeta. now rewrite Hok. }
  rewrite E. simpl. split; [reflexivity |].
  assert (Hnone : forall now',
            _get (PStr "pool") (PStr uri) "networkInfo" now'
              (_set this (PStr "pool") (PStr uri) "networkInfo" None None now
                 (log (CallPool uri) st)) = None).
  { intros now'. unfold _get, _set, cache_get, cache_set. simpl.
    rewrite lookup_insert_eq. simpl. now destruct (now' <=? _). }
  split; [exact Hnone |].
  intros pool_request' now'.
  unfold _getPoolNetworkInfo, pool_hit. rewrite Hnone.
  rewrite pool_miss_calls. simpl. now rewrite <- app_assoc.
Qed.

(** Two calls in a row ask the pool twice. *)
Lemma pool_info_never_cached_witness :
  let first := _getPoolNetworkInfo (Self no_options) pool_up "http://p1/stats" 0
                 fresh_state in
  calls (_getPoolNetworkInfo (Self no_options) pool_up "http://p1/stats" 0
           first.2).2 =
    [CallPool "http://p1/stats"; CallPool "http://p1/stats"].
Proof.
  intros first.
  destruct (pool_info_never_cached (Self no_options) pool_up "http://p1/stats" 0
              fresh_state {[ "height" := VNum 100 ]} eq_refl eq_refl)
    as (_ & _ & H).
  exact (H pool_up 0).
Defined.

(** A refresh of the pool list that fails leaves the configuration as it
    was.  One that succeeds replaces the list by one pool per entry of the
    directory, and the next pool round that finds nothing cached requests, in
    the order of the directory and once each, the [url] of every entry with
    [stats] appended. *)
Theorem refreshed_pools_are_asked (this : config)
    (directory : list (string * prim))
    (pool_request : Z -> string -> reply (option obj))
    (now : Z) (st : state) :
  (forall err, getPools this (Fail err) = this) /\
  length (pools (getPools this (Ok directory))) = length directory /\
  (_get (PStr "pool") (PStr "pool") "globalpoolheight" now st = None ->
   (forall elem, In elem directory ->
      _get (PStr "pool") (PStr (format_s elem.2 +:+ "stats")) "networkInfo" now st
        = None) ->
   calls (_getGlobalPoolHeight (getPools this (Ok directory)) pool_request now st).2
     = calls st ++ map stats_call directory).
Proof.
  split; [reflexivity |]. split; [apply length_map |].
  intros Hmiss Hcold. unfold _getGlobalPoolHeight.
  rewrite aggregate_calls by exact Hmiss.
  rewrite (round_calls _ _ (fun pl => CallPool (url pl)))
    by (intros x s; apply pool_miss_calls).
  f_equal. simpl pools. unfold pools_of.
  rewrite filter_all.
  - rewrite map_map. reflexivity.
  - intros pl Hpl. apply in_map_iff in Hpl as (elem & <- & Helem).
    unfold pool_hit. simpl. now rewrite (Hcold elem Helem).
Qed.

(** A directory of two pools: both are requested at [<url>stats]. *)
Lemma refreshed_pools_are_asked_witness :
  calls (_getGlobalPoolHeight
           (getPools (Self no_options)
              (Ok [("p1", PStr "http://p1/"); ("p2", PStr "http://p2/")]))
           pools_down 0 fresh_state).2 =
    [CallPool "http://p1/stats"; CallPool "http://p2/stats"].
Proof.
  destruct (refreshed_pools_are_asked (Self no_options)
              [("p1", PStr "http://p1/"); ("p2", PStr "http://p2/")]
              pools_down 0 fresh_state) as (_ & _ & H).
  rewrite H; [reflexivity | reflexivity |].
  intros elem _. reflexivity.
Defined.

(** ** Explorer functions, JSON RPC and responses *)

Section ExplorerFacts.

Variable this : config.
Variable payload : Type.
Variable daemon : Z -> prim -> prim -> string -> reply obj.
Variable daemon_count : Z -> prim -> prim -> reply jsval.
Variable mirror_count : Z -> reply obj.
Variable mirror : Z -> string -> list jsval -> reply payload.
Variable daemon_data : Z -> prim -> prim -> string -> list jsval -> reply payload.
Variable daemon_value : Z -> prim -> prim -> string -> reply jsval.
Variable daemon_post : Z -> prim -> prim -> jsval -> rpc_params -> reply payload.
Variable pool_request : Z -> string -> reply (option obj).

Local Abbreviation process :=
  (_processJsonRPC this payload daemon daemon_count mirror_count mirror
     daemon_data daemon_value daemon_post).
Local Abbreviation do_perform :=
  (perform this payload daemon daemon_count mirror_count mirror
     daemon_data daemon_value daemon_post).
Local Abbreviation do_serve :=
  (serve this payload daemon daemon_count mirror_count mirror
     daemon_data daemon_value daemon_post pool_request).

Lemma explore_unfold (q : explorer_query) (opts : node) (arg : jsval) :
  explore mirror daemon_data q opts arg =
  mirror_first payload mirror daemon_data (query_name q) opts (query_args q arg).
Proof. destruct q; reflexivity. Qed.

(** Each of the seven mirror-first functions resolves the answer of the
    mirror without calling the daemon; when the mirror fails it calls the
    daemon of [opts] once and resolves its answer; it rejects, always with
    'Failure encountered', exactly when both fail; it never writes the
    cache. *)
Theorem explorer_mirror_then_daemon (q : explorer_query) (opts : node)
    (arg : jsval) (now : Z) (st : state) :
  let name := query_name q in
  let args := query_args q arg in
  let r := explore mirror daemon_data q opts arg now st in
  cache r.2 = cache st /\
  (forall d, mirror now name args = Ok d ->
     r = (Resolve d, log (CallMirror name) st)) /\
  (forall e, mirror now name args = Fail e ->
     calls r.2 =
       calls st ++ [CallMirror name; CallDaemon (host opts) (port opts) name] /\
     (forall d, daemon_data now (host opts) (port opts) name args = Ok d ->
        r.1 = Resolve d) /\
     (forall e', daemon_data now (host opts) (port opts) name args = Fail e' ->
        r.1 = Reject "Failure encountered")).
Proof.
  intros name args r. subst r. rewrite explore_unfold. fold name args.
  unfold mirror_first. cbv zeta.
  destruct (mirror now name args) as [d | e].
  - split; [reflexivity |]. split; [now intros d' [= <-] | discriminate].
  - destruct (daemon_data now (host opts) (port opts) name args) as [d | e'];
      simpl; (split; [reflexivity |]); (split; [discriminate |]);
      intros _ _; (split; [now rewrite <- app_assoc |]);
      split; intros; congruence.
Qed.

(** A payment id is looked up in the mirror only: the daemon is never
    called, and a failure of the mirror rejects with 'Failure encountered'. *)
Theorem payment_id_mirror_only (opts : node) (paymentId : jsval)
    (now : Z) (st : state) :
  let r := getTransactionHashesByPaymentId payload mirror opts paymentId now st in
  r.2 = log (CallMirror "getTransactionHashesByPaymentId") st /\
  (forall d, mirror now "getTransactionHashesByPaymentId" [paymentId] = Ok d ->
     r.1 = Resolve d) /\
  (forall e, mirror now "getTransactionHashesByPaymentId" [paymentId] = Fail e ->
     r.1 = Reject "Failure encountered").
Proof.
  intros r. subst r. unfold getTransactionHashesByPaymentId. cbv zeta.
  destruct (mirror now _ _); simpl;
    (split; [reflexivity |]); split; intros; congruence.
Qed.

Lemma fetch_value_unfold (dv : Z -> prim -> prim -> string -> reply jsval)
    (q : value_query) :
  fetch_value this dv q =
  cached_value this dv (value_key q) (value_method q) (value_object q).
Proof. destruct q; reflexivity. Qed.

(** [getTransactionPool] and [getCurrencyId] that find nothing cached call
    the daemon once, resolve its answer wrapped in an object and store that
    object; until [cacheTimeout] has passed, the next call resolves the very
    same object, which carries no [cached] member, without calling the
    daemon. *)
Theorem value_read_through (q : value_query) (opts : node) (now : Z)
    (st : state) (v : jsval) :
  _get (host opts) (port opts) (value_key q) now st = None ->
  daemon_value now (host opts) (port opts) (value_method q) = Ok v ->
  let r := fetch_value this daemon_value q opts now st in
  r.1 = Resolve (value_object q v) /\
  value_object q v !! "cached" = None /\
  calls r.2 = calls st ++ [CallDaemon (host opts) (port opts) (value_method q)] /\
  (forall daemon_value' now',
     now' <= now + cacheTimeout this ->
     fetch_value this daemon_value' q opts now' r.2 =
       (Resolve (value_object q v), r.2)).
Proof.
  intros Hmiss Hok r.
  assert (E : r = (Resolve (value_object q v),
                   _set this (host opts) (port opts) (value_key q)
                     (Some (value_object q v)) None now
                     (log (CallDaemon (host opts) (port opts) (value_method q)) st))).
  { unfold r. rewrite fetch_value_unfold. unfold cached_value.
    rewrite Hmiss. cbv zeta. now rewrite Hok. }
  rewrite E. simpl. split; [reflexivity |].
  split; [destruct q; reflexivity |]. split; [reflexivity |].
  intros daemon_value' now' Hnow. rewrite fetch_value_unfold.
  unfold cached_value. rewrite _get_set by (simpl; exact Hnow). reflexivity.
Qed.

(** When the daemon fails, [getTransactionPool] and [getCurrencyId] reject
    with the error of the daemon, store nothing, and the next call asks the
    daemon again. *)
Theorem value_failure_rejects (q : value_query) (opts : node) (now : Z)
    (st : state) (err : string) :
  _get (host opts) (port opts) (value_key q) now st = None ->
  daemon_value now (host opts) (port opts) (value_method q) = Fail err ->
  let invocation := CallDaemon (host opts) (port opts) (value_method q) in
  let r := fetch_value this daemon_value q opts now st in
  r = (Reject err, log invocation st) /\
  (forall daemon_value' now',
     now <= now' ->
     calls (fetch_value this daemon_value' q opts now' r.2).2 =
       calls st ++ [invocation; invocation]).
Proof.
  intros Hmiss Hfail invocation r.
  assert (E : r = (Reject err, log invocation st)).
  { unfold r. rewrite fetch_value_unfold. unfold cached_value.
    rewrite Hmiss. cbv zeta. now rewrite Hfail. }
  rewrite E. split; [reflexivity |]. intros daemon_value' now' Hnow. simpl.
  rewrite fetch_value_unfold. unfold cached_value.
  rewrite _get_log, (_get_none_later _ _ _ now now' st Hmiss Hnow). cbv zeta.
  fold invocation.
  destruct (daemon_value' now' _ _ _); simpl; now rewrite <- app_assoc.
Qed.

Lemma process_no_method (content : request_body) (nd pt : prim)
    (now : Z) (st : state) :
  truthy (body_method content) = false ->
  process content nd pt now st = (Reject "No method defined", st).
Proof. intros H. unfold _processJsonRPC. now rewrite H. Qed.

Ltac split_method m :=
  repeat match goal with
         | |- context [String.eqb m ?c] =>
             destruct (String.eqb m c) eqn:?; simpl in *
         end.

Ltac method_known :=
  match goal with
  | H : String.eqb ?m _ = true |- _ =>
      apply String.eqb_eq in H; subst m; vm_compute in *
  end.

Lemma select_without_params (content : request_body) (opts : node) :
  body_params content = NoParams ->
  reads_params (body_method content) = true ->
  select content opts = None.
Proof.
  intros Hp Hr. unfold select. rewrite Hp.
  destruct (body_method content) as [| | | | | m | | |]; simpl in Hr;
    try discriminate.
  split_method m; try reflexivity; try method_known; discriminate.
Qed.

Lemma select_some (content : request_body) (opts : node) :
  body_params content <> NoParams \/ reads_params (body_method content) = false ->
  exists t, select content opts = Some t /\ target_node t = opts.
Proof.
  intros H. unfold select.
  destruct (body_method content) as [| | | | | m | | |] eqn:Em; simpl in H;
    try (eexists; split; reflexivity).
  destruct (body_params content) as [| o | l] eqn:Ep.
  - destruct H as [H | H]; [congruence |].
    split_method m; try discriminate; eexists; split; reflexivity.
  - split_method m; eexists; split; reflexivity.
  - split_method m; eexists; split; reflexivity.
Qed.

Lemma process_type_error (content : request_body) (nd pt : prim)
    (now : Z) (st : state) :
  truthy (body_method content) = true ->
  body_params content = NoParams ->
  reads_params (body_method content) = true ->
  process content nd pt now st = (Reject "TypeError", st).
Proof.
  intros Ht Hp Hr. unfold _processJsonRPC. rewrite Ht. simpl.
  now rewrite (select_without_params _ _ Hp Hr).
Qed.

(** [_processJsonRPC] rejects before it calls anybody in two cases only: no
    truthy [method] (with 'No method defined'), and no [params] for a method
    whose case reads them (with the TypeError of the read).  Otherwise it
    returns the promise of one call, addressed to the node and port of the
    request, or to the default ones where those are missing. *)
Theorem json_rpc_rejections (content : request_body) (nd pt : prim)
    (now : Z) (st : state) :
  let opts := {| host := or_prim nd (defaultHost this);
                 port := or_prim pt (defaultPort this) |} in
  let r := process content nd pt now st in
  (truthy (body_method content) = false ->
   r = (Reject "No method defined", st)) /\
  (truthy (body_method content) = true ->
   body_params content = NoParams ->
   reads_params (body_method content) = true ->
   r = (Reject "TypeError", st)) /\
  (truthy (body_method content) = true ->
   body_params content <> NoParams \/ reads_params (body_method content) = false ->
   exists t, select content opts = Some t /\ target_node t = opts /\
             r = do_perform t now st).
Proof.
  intros opts r. split; [apply process_no_method |].
  split; [apply process_type_error |].
  intros Ht H. destruct (select_some content opts H) as (t & Hs & Hn).
  exists t. split; [exact Hs |]. split; [exact Hn |].
  unfold r, _processJsonRPC. rewrite Ht. simpl. fold opts. now rewrite Hs.
Qed.

(** A method that has no case of its own is posted to the daemon as it is,
    with the [params] of the request as they are, missing ones included; the
    answer is handed on and nothing is cached. *)
Theorem unknown_method_passes_through (m : string) (p : rpc_params)
    (nd pt : prim) (now : Z) (st : state) :
  m <> "" -> known_method m = false ->
  let opts := {| host := or_prim nd (defaultHost this);
                 port := or_prim pt (defaultPort this) |} in
  let r := process {| body_method := VStr m; body_params := p |} nd pt now st in
  r = lift Data (_jsonRpc payload daemon_post opts (VStr m) p now st) /\
  cache r.2 = cache st /\
  calls r.2 = calls st ++ [CallDaemon (host opts) (port opts) "_post"].
Proof.
  intros Hm Hk opts r.
  assert (E : r = lift Data
                    (_jsonRpc payload daemon_post opts (VStr m) p now st)).
  { unfold r, _processJsonRPC. simpl.
    destruct (String.eqb_spec m ""); [contradiction |]. simpl. fold opts.
    unfold select. simpl. unfold known_method in Hk. simpl in Hk.
    split_method m; try discriminate. reflexivity. }
  rewrite E. split; [reflexivity |].
  unfold lift, _jsonRpc. cbv zeta.
  destruct (daemon_post now _ _ _ _); simpl; split; reflexivity.
Qed.

Lemma plain_run (op : node_op) (nd pt : prim) (now : Z) (st : state) :
  exists data,
    (plain (payload := payload) (run this daemon op nd pt now st)).1 = Json data.
Proof.
  destruct (producer_never_rejects this daemon op nd pt now st) as [v Hv].
  exists v. unfold plain. now rewrite Hv.
Qed.

Lemma operate_start (op : node_op) (nd pt : prim) (content : request_body)
    (now : Z) (st : state) :
  operate this payload daemon daemon_count mirror_count mirror daemon_data
    daemon_value daemon_post pool_request (start op nd pt) content now st =
  plain (run this daemon op nd pt now st).
Proof. destruct op; reflexivity. Qed.

(** The routes of the five single-node commands and of the four aggregators
    never answer 500: they answer 400 when a path parameter is missing, and a
    JSON body otherwise, which is the error payload when the node or the
    whole round failed. *)
Theorem plain_routes_never_fail (r : route) (params : gmap string string)
    (content : request_body) (now : Z) (st : state) :
  (exists op, r = GET_op op \/ r = GET_node_op op \/ r = GET_node_port_op op) \/
  r = GET_globalHeight \/ r = GET_globalDifficulty \/
  r = GET_globalPoolHeight \/ r = GET_globalPoolDifficulty ->
  ((exists x, In x (path_params r) /\ present params x = None) /\
   do_serve r params content now st = (Send 400, st)) \/
  ((forall x, In x (path_params r) -> present params x <> None) /\
   exists data, (do_serve r params content now st).1 = Json data).
Proof.
  intros [[op [-> | [-> | ->]]] | [-> | [-> | [-> | ->]]]]; unfold serve; simpl.
  - right. split; [tauto |]. rewrite operate_start. apply plain_run.
  - destruct (present params "node") as [nd|] eqn:En.
    + right. split; [intros x [<- | []]; congruence |].
      rewrite operate_start. apply plain_run.
    + left. split; [| reflexivity]. exists "node". split; [now left | exact En].
  - destruct (present params "node") as [nd|] eqn:En.
    + destruct (present params "port") as [pt|] eqn:Ep.
      * right. split; [intros x [<- | [<- | []]]; congruence |].
        rewrite operate_start. apply plain_run.
      * left. split; [| reflexivity].
        exists "port". split; [right; now left | exact Ep].
    + left. split; [| reflexivity]. exists "node". split; [now left | exact En].
  - right. split; [tauto |].
    destruct (aggregate_resolves this "network" "globalheight" "height"
                (fun nd => rpc_hit "getheight" (host nd) (port nd) now)
                (fun nd => rpc_miss this daemon "getheight" "getHeight" id
                             (host nd) (port nd) now)
                seed_summary (seeds this) now st) as [v Hv].
    exists v. unfold plain, _getGlobalHeight. now rewrite Hv.
  - right. split; [tauto |].
    destruct (aggregate_resolves this "network" "globaldifficulty" "difficulty"
                (fun nd => rpc_hit "getinfo" (host nd) (port nd) now)
                (fun nd => rpc_miss this daemon "getinfo" "getInfo" with_hash_rate
                             (host nd) (port nd) now)
                seed_summary (seeds this) now st) as [v Hv].
    exists v. unfold plain, _getGlobalDifficulty. now rewrite Hv.
  - right. split; [tauto |].
    destruct (aggregate_resolves this "pool" "globalpoolheight" "height"
                (fun pl => pool_hit (url pl) now)
                (fun pl => pool_miss this pool_request (url pl) now)
                pool_summary (pools this) now st) as [v Hv].
    exists v. unfold plain, _getGlobalPoolHeight. now rewrite Hv.
  - right. split; [tauto |].
    destruct (aggregate_resolves this "pool" "globalpooldifficulty" "difficulty"
                (fun pl => pool_hit (url pl) now)
                (fun pl => pool_miss this pool_request (url pl) now)
                pool_summary (pools this) now st) as [v Hv].
    exists v. unfold plain, _getGlobalPoolDifficulty. now rewrite Hv.
Qed.




End ExplorerFacts.

(** ** Instances for the explorer functions, JSON RPC and responses *)

(** With the mirror not ready, [getBlock] resolves what the daemon returns;
    with both down it rejects. *)
Lemma explorer_mirror_then_daemon_witness :
  let opts := default_node (Self no_options) in
  (explore mirror_up data_down Block opts (VStr "ab") 0 fresh_state).1
    = Resolve "from the mirror" /\
  (explore mirror_down data_up Block opts (VStr "ab") 0 fresh_state).1
    = Resolve "from the daemon" /\
  (explore mirror_down data_down Block opts (VStr "ab") 0 fresh_state).1
    = Reject "Failure encountered".
Proof.
  intros opts. split; [| split].
  - destruct (explorer_mirror_then_daemon string mirror_up data_down Block opts
                (VStr "ab") 0 fresh_state) as (_ & H & _).
    now rewrite (H "from the mirror" eq_refl).
  - destruct (explorer_mirror_then_daemon string mirror_down data_up Block opts
                (VStr "ab") 0 fresh_state) as (_ & _ & H).
    destruct (H "not ready" eq_refl) as (_ & Hd & _).
    exact (Hd "from the daemon" eq_refl).
  - destruct (explorer_mirror_then_daemon string mirror_down data_down Block opts
                (VStr "ab") 0 fresh_state) as (_ & _ & H).
    destruct (H "not ready" eq_refl) as (_ & _ & Hd).
    exact (Hd "ETIMEDOUT" eq_refl).
Defined.

(** With the mirror not ready, a payment id lookup rejects after asking the
    mirror only. *)
Lemma payment_id_mirror_only_witness :
  getTransactionHashesByPaymentId string mirror_down
    (default_node (Self no_options)) (VStr "id") 0 fresh_state =
  (Reject "Failure encountered",
   {| cache := ∅; calls := [CallMirror "getTransactionHashesByPaymentId"] |}).
Proof.
  destruct (payment_id_mirror_only string mirror_down
              (default_node (Self no_options)) (VStr "id") 0 fresh_state)
    as (Hst & _ & Hfail).
  apply injective_projections; [exact (Hfail "not ready" eq_refl) | exact Hst].
Defined.

(** The currency id is fetched once and read back at time 30 from the
    cache, the daemon being gone. *)
Lemma value_read_through_witness :
  let opts := default_node (Self no_options) in
  let first := getCurrencyId (Self no_options) value_up opts 0 fresh_state in
  first.1 = Resolve {[ "currency_id_blob" := VStr "blob" ]} /\
  getCurrencyId (Self no_options) value_down opts 30 first.2 =
    (Resolve {[ "currency_id_blob" := VStr "blob" ]}, first.2).
Proof.
  intros opts first.
  destruct (value_read_through (Self no_options) value_up CurrencyId opts 0
              fresh_state (VStr "blob") eq_refl eq_refl) as (H1 & _ & _ & H2).
  split; [exact H1 |]. apply (H2 value_down 30). simpl. lia.
Defined.

(** With the daemon down, the transaction pool rejects with its error and
    the next call asks again. *)
Lemma value_failure_rejects_witness :
  let opts := default_node (Self no_options) in
  let first := getTransactionPool (Self no_options) value_down opts 0 fresh_state in
  first.1 = Reject "ETIMEDOUT" /\ cache first.2 = ∅ /\
  length (calls (getTransactionPool (Self no_options) value_up opts 1 first.2).2)
    = 2%nat.
Proof.
  intros opts first.
  destruct (value_failure_rejects (Self no_options) value_down TransactionPool
              opts 0 fresh_state "ETIMEDOUT" eq_refl eq_refl) as (H1 & H2).
  change (fetch_value (Self no_options) value_down TransactionPool opts 0 fresh_state)
    with first in H1, H2.
  rewrite H1. split; [reflexivity |]. split; [reflexivity |].
  change (getTransactionPool (Self no_options) value_up)
    with (fetch_value (Self no_options) value_up TransactionPool).
  rewrite <- H1. now rewrite (H2 value_up 1 ltac:(lia)).
Defined.

(** An empty body is rejected for its missing method, [f_block_json]
    without [params] for the failed read; [getblockcount] without [params]
    is handed on for the default node. *)
Lemma json_rpc_rejections_witness :
  let this := Self no_options in
  let process := _processJsonRPC this string dead_daemon count_down
                   (mirror_at 100) mirror_down data_down value_down post_up in
  process no_content PUndef PUndef 0 fresh_state
    = (Reject "No method defined", fresh_state) /\
  process {| body_method := VStr "f_block_json"; body_params := NoParams |}
    PUndef PUndef 0 fresh_state = (Reject "TypeError", fresh_state) /\
  exists t,
    select {| body_method := VStr "getblockcount"; body_params := NoParams |}
      (default_node this) = Some t /\
    target_node t = default_node this.
Proof.
  intros this process. split; [| split].
  - destruct (json_rpc_rejections this string dead_daemon count_down
                (mirror_at 100) mirror_down data_down value_down post_up
                no_content PUndef PUndef 0 fresh_state) as (H & _).
    exact (H eq_refl).
  - destruct (json_rpc_rejections this string dead_daemon count_down
                (mirror_at 100) mirror_down data_down value_down post_up
                {| body_method := VStr "f_block_json"; body_params := NoParams |}
                PUndef PUndef 0 fresh_state) as (_ & H & _).
    exact (H eq_refl eq_refl eq_refl).
  - destruct (json_rpc_rejections this string dead_daemon count_down
                (mirror_at 100) mirror_down data_down value_down post_up
                {| body_method := VStr "getblockcount"; body_params := NoParams |}
                PUndef PUndef 0 fresh_state) as (_ & _ & H).
    destruct (H eq_refl (or_intror eq_refl)) as (t & Hs & Hn & _).
    exists t. split; [exact Hs | exact Hn].
Defined.

(** [getpeers] has no case: it is posted to the default node. *)
Lemma unknown_method_passes_through_witness :
  _processJsonRPC (Self no_options) string dead_daemon count_down
    (mirror_at 100) mirror_down data_down value_down post_up
    {| body_method := VStr "getpeers"; body_params := NoParams |}
    PUndef PUndef 0 fresh_state
  = (Resolve (Data "posted"),
     {| cache := ∅;
        calls := [CallDaemon (PStr "public.turtlenode.io") (PNum 11898) "_post"] |}).
Proof.
  destruct (unknown_method_passes_through (Self no_options) string dead_daemon
              count_down (mirror_at 100) mirror_down data_down value_down post_up
              "getpeers" NoParams PUndef PUndef 0 fresh_state
              ltac:(discriminate) eq_refl) as (H & _).
  rewrite H. reflexivity.
Defined.

(** With every seed down [/globalHeight] still answers a JSON body, and
    [/:node/height] without a node answers 400. *)
Lemma plain_routes_never_fail_witness :
  let serve' := serve (Self no_options) string dead_daemon count_down
                  (mirror_at 100) mirror_down data_down value_down post_up
                  pools_down in
  (exists data, (serve' GET_globalHeight ∅ no_content 0 fresh_state).1
                = Json data) /\
  serve' (GET_node_op Height) ∅ no_content 0 fresh_state
    = (Send 400, fresh_state).
Proof.
  intros serve'. split.
  - destruct (plain_routes_never_fail (Self no_options) string dead_daemon
                count_down (mirror_at 100) mirror_down data_down value_down
                post_up pools_down GET_globalHeight ∅ no_content 0 fresh_state)
      as [[[x [[] _]] _] | [_ H]]; [right; now left | exact H].
  - destruct (plain_routes_never_fail (Self no_options) string dead_daemon
                count_down (mirror_at 100) mirror_down data_down value_down
                post_up pools_down (GET_node_op Height) ∅ no_content 0 fresh_state)
      as [[_ H] | [H _]]; [left; exists Height; right; now left | exact H |].
    exfalso. apply (H "node"); [now left | reflexivity].
Defined.



(** ** One usable sample is enough *)

Lemma summary_of_samples (values : list Z) :
  values <> [] ->
  exists v mx mn,
    voteValue values = Some v /\ maxValue values = Some mx /\
    minValue values = Some mn /\ vvalue v = mx.
Proof.
  intros Hne.
  destruct (voteValue_takes_greatest values Hne) as (mx & Emx & Ev).
  destruct (minValue_least values Hne) as (mn & Emn & _).
  eexists _, mx, mn. split; [exact Ev |]. repeat split; assumption.
Qed.

(** When the round of an aggregation that missed the cache yields answers
    whose field is an integer, falsy or missing, and at least one of them is
    truthy, the aggregation resolves a summary, not an error payload, however
    many of the other calls failed; its [win] equals its [max], and the seed
    summary counts in [ans] the answers whose field is truthy. *)
Theorem usable_sample_gives_summary (this : config) {X} (scope key field : string)
    (hit : X -> state -> option (promise obj))
    (miss : X -> state -> promise obj * state)
    (xs : list X) (now : Z) (st : state) (results : list obj) :
  _get (PStr scope) (PStr scope) key now st = None ->
  promise_all (round hit miss xs st).1 = Resolve results ->
  Forall (integral field) results ->
  usable field results <> [] ->
  (exists data,
     (aggregate this scope key field hit miss seed_summary xs now st).1
       = Resolve data /\
     data !! "error" = None /\ data !! "cached" = Some (VBool false) /\
     data !! "win" = data !! "max" /\
     data !! "cnt" = Some (len results) /\
     data !! "ans" = Some (len (usable field results))) /\
  (exists data,
     (aggregate this scope key field hit miss pool_summary xs now st).1
       = Resolve data /\
     data !! "error" = None /\ data !! "cached" = Some (VBool false) /\
     data !! "win" = data !! "max").
Proof.
  intros Hmiss Hall Hint Hu.
  pose proof (samples_usable field results Hint) as Hlen.
  assert (Hne : samples field results <> []).
  { intros E. rewrite E in Hlen. destruct (usable field results);
      [now apply Hu | discriminate]. }
  destruct (summary_of_samples _ Hne) as (v & mx & mn & Ev & Emx & Emn & Hv).
  unfold aggregate. rewrite Hmiss. cbv zeta. rewrite Hall.
  unfold seed_summary, pool_summary. rewrite Ev, Emx, Emn. simpl.
  split; eexists; (split; [reflexivity |]); rewrite Hv; repeat split.
  unfold len. now rewrite Hlen.
Qed.

(** One seed of six answers: the round still resolves a summary, with one
    usable sample. *)
Lemma usable_sample_gives_summary_witness :
  exists data,
    (_getGlobalHeight (Self no_options) lone_daemon 0 fresh_state).1
      = Resolve data /\
    data !! "error" = None /\ data !! "ans" = Some (VNum 1).
Proof.
  assert (Hall : promise_all
                   (round (fun nd => rpc_hit "getheight" (host nd) (port nd) 0)
                      (fun nd => rpc_miss (Self no_options) lone_daemon
                                   "getheight" "getHeight" id (host nd) (port nd) 0)
                      (seeds (Self no_options)) fresh_state).1
                 = Resolve lone_round) by (vm_compute; reflexivity).
  assert (Hint : Forall (integral "height") lone_round)
    by (repeat constructor).
  assert (Hne : usable "height" lone_round <> [])
    by (vm_compute; discriminate).
  destruct (usable_sample_gives_summary (Self no_options)
              "network" "globalheight" "height" _ _ _ 0 fresh_state lone_round
              eq_refl Hall Hint Hne)
    as [(data & E & Herr & _ & _ & _ & Hans) _].
  exists data. split; [exact E |]. split; [exact Herr | exact Hans].
Defined.

(** ** Rejections of the block count *)

(** [getBlockCount] always asks the mirror, and rejects only with 'Failure
    encountered' and only after a live [getBlockCount] call to the node of
    [opts] has failed. *)
Theorem block_count_rejects_after_live_failure (this : config)
    (daemon : Z -> prim -> prim -> string -> reply obj)
    (daemon_count : Z -> prim -> prim -> reply jsval)
    (mirror_count : Z -> reply obj)
    (opts : node) (now : Z) (st : state) :
  let r := getBlockCount this daemon daemon_count mirror_count opts now st in
  In (CallMirror "getBlockCount") (calls r.2) /\
  cache r.2 = cache (_getHeight this daemon PUndef PUndef now st).2 /\
  forall e, r.1 = Reject e ->
    e = "Failure encountered" /\
    (exists e', daemon_count now (host opts) (port opts) = Fail e') /\
    In (CallDaemon (host opts) (port opts) "getBlockCount") (calls r.2).
Proof.
  intros r. subst r. unfold getBlockCount. cbv zeta.
  destruct (producer_never_rejects this daemon Height PUndef PUndef now st)
    as [data Hd]. simpl in Hd. rewrite Hd.
  set (asked := (_getHeight this daemon PUndef PUndef now st).2).
  assert (Hlive : forall s,
            In (CallMirror "getBlockCount") (calls s) ->
            In (CallMirror "getBlockCount") (calls (live_count daemon_count opts now s).2) /\
            cache (live_count daemon_count opts now s).2 = cache s /\
            forall e, (live_count daemon_count opts now s).1 = Reject e ->
              e = "Failure encountered" /\
              (exists e', daemon_count now (host opts) (port opts) = Fail e') /\
              In (CallDaemon (host opts) (port opts) "getBlockCount")
                 (calls (live_count daemon_count opts now s).2)).
  { intros s Hs. unfold live_count. cbv zeta.
    destruct (daemon_count now (host opts) (port opts)) as [v | e'] eqn:E; simpl.
    - split; [apply in_or_app; now left |]. split; [reflexivity | discriminate].
    - split; [apply in_or_app; now left |]. split; [reflexivity |].
      intros e [= <-]. split; [reflexivity |]. split; [eauto |].
      apply in_or_app. right. now left. }
  assert (Hm : In (CallMirror "getBlockCount")
                 (calls (log (CallMirror "getBlockCount") asked)))
    by (simpl; apply in_or_app; right; now left).
  destruct (mirror_count now) as [block | e].
  - destruct (deviates this (data !! "network_height") (block !! "count")).
    + exact (Hlive _ Hm).
    + split; [exact Hm |]. split; [reflexivity | discriminate].
  - exact (Hlive _ Hm).
Qed.

(** The default node sees 110, the mirror holds 100 and the live node is
    down: the request is rejected. *)
Lemma block_count_rejects_after_live_failure_witness :
  (getBlockCount (Self no_options) (steady_daemon 110 110) count_down
     (mirror_at 100) (default_node (Self no_options)) 0 fresh_state).1
  = Reject "Failure encountered".
Proof.
  destruct (block_count_rejects_after_live_failure (Self no_options)
              (steady_daemon 110 110) count_down (mirror_at 100)
              (default_node (Self no_options)) 0 fresh_state) as (_ & _ & H).
  destruct (getBlockCount (Self no_options) (steady_daemon 110 110) count_down
              (mirror_at 100) (default_node (Self no_options)) 0 fresh_state).1
    as [v | e] eqn:E; [vm_compute in E; discriminate |].
  now destruct (H e eq_refl) as [-> _].
Defined.
